(** * prompt-manager: version ledger, slug resolver and template engine

    A shallow embedding of [prompt_manager/core] (templates.py,
    repository.py, service.py, schemas.py, models.py) and of the parts of
    [prompt_manager/api] that call it (auth.py, the render route of
    routes/prompts.py, the exception handlers of main.py), with the
    properties of its specification and further properties of the code,
    stated over that embedding.

    Conventions.  Python [str] values are modelled as [string] over ASCII
    characters; Python integers as [Z]; dictionaries as [gmap]; sets as
    [gset]; the database session as an explicit store threaded through a
    small state-and-exception monad.  The clock and the [uuid4] keys are
    arguments of the operations that read them.  Request objects are taken
    as pydantic delivers them: the length and pattern constraints of the
    schemas belong to the validation layer and are not modelled, but the
    difference between a field that was not set and a field that was set
    to [None] is. *)

From Stdlib Require Import Ascii String.
From stdpp Require Import gmap strings list pretty sorting.

Local Open Scope string_scope.

(** ** Python [re]: the fragment used by templates.py *)

Module Re.

(** Abstract syntax of the patterns.  [Star]/[LazyStar] are [r*] and
    [r*?]; [Group] is the (single) capturing group; non-capturing groups
    [(?:...)] are plain nesting. *)
Inductive regex : Type :=
| Eps
| Lit (c : ascii)
| Dot
| Word
| Space
| Cat (r1 r2 : regex)
| Alt (r1 r2 : regex)
| Star (r : regex)
| LazyStar (r : regex)
| Group (r : regex).

Definition Plus (r : regex) : regex := Cat r (Star r).
Definition Opt (r : regex) : regex := Alt r Eps.

Fixpoint lits (s : string) : regex :=
  match s with
  | EmptyString => Eps
  | String c s' => Cat (Lit c) (lits s')
  end.

Declare Scope regex_scope.
Delimit Scope regex_scope with re.
Infix "·" := Cat (at level 41, right associativity) : regex_scope.

(** [.] without DOTALL: anything but a line feed. *)
Definition is_dot (c : ascii) : bool :=
  negb (Ascii.eqb c "010"%char).

(** [\w] on ASCII text: letters, digits and the underscore. *)
Definition is_word (c : ascii) : bool :=
  let n := nat_of_ascii c in
  (((48 <=? n) && (n <=? 57)) || ((65 <=? n) && (n <=? 90))
   || ((97 <=? n) && (n <=? 122)) || (n =? 95))%nat.

(** [\s] on ASCII text: [str.isspace], i.e. TAB, LF, VT, FF, CR, the
    separators 0x1c-0x1f, and the blank. *)
Definition is_space (c : ascii) : bool :=
  let n := nat_of_ascii c in
  (((9 <=? n) && (n <=? 13)) || ((28 <=? n) && (n <=? 31)) || (n =? 32))%nat.

Definition first_some {R} (a b : option R) : option R :=
  match a with Some x => Some x | None => b end.

Section Run.
Context {R : Type}.

(** Continuation of a match: the unread input and the current content
    of group 1. *)
Definition cont : Type := list ascii → option (list ascii) → option R.

Definition class (p : ascii → bool) (s : list ascii)
    (g : option (list ascii)) (k : cont) : option R :=
  match s with
  | c :: s' => if p c then k s' g else None
  | [] => None
  end.

(** Backtracking matcher in continuation-passing style: alternatives
    are tried in the priority order of the [re] module (left branch of
    [|] first, one more iteration first for a greedy star, one fewer
    first for a lazy one).  An iteration of a star must consume input,
    so at most [length s] iterations are possible. *)
Fixpoint run (r : regex) (s : list ascii) (g : option (list ascii))
    (k : cont) {struct r} : option R :=
  match r with
  | Eps => k s g
  | Lit c => class (Ascii.eqb c) s g k
  | Dot => class is_dot s g k
  | Word => class is_word s g k
  | Space => class is_space s g k
  | Cat r1 r2 => run r1 s g (λ s' g', run r2 s' g' k)
  | Alt r1 r2 => first_some (run r1 s g k) (run r2 s g k)
  | Star r1 =>
      (fix iter (n : nat) (s : list ascii) (g : option (list ascii)) :=
         match n with
         | O => k s g
         | S n' =>
             first_some
               (run r1 s g (λ s' g',
                  if (length s' <? length s)%nat then iter n' s' g' else None))
               (k s g)
         end) (length s) s g
  | LazyStar r1 =>
      (fix iter (n : nat) (s : list ascii) (g : option (list ascii)) :=
         match n with
         | O => k s g
         | S n' =>
             first_some
               (k s g)
               (run r1 s g (λ s' g',
                  if (length s' <? length s)%nat then iter n' s' g' else None))
         end) (length s) s g
  | Group r1 =>
      run r1 s g (λ s' _, k s' (Some (take (length s - length s') s)))
  end.
End Run.

(** [r.match(s)] anchored at the beginning of [s]: the number of
    characters consumed and the content of group 1. *)
Definition match_here (r : regex) (s : list ascii)
    : option (nat * option (list ascii)) :=
  run r s None (λ s' g, Some (length s - length s', g)).

(** [re.search]: the leftmost position at which the pattern matches. *)
Fixpoint search (r : regex) (s : list ascii) : bool :=
  match match_here r s with
  | Some _ => true
  | None => match s with [] => false | _ :: s' => search r s' end
  end.

(** [pattern.findall] for a pattern with one group: the contents of the
    group over the successive non-overlapping matches, scanning from left
    to right.  [skip] counts the characters of the previous match that
    are still to be stepped over. *)
Fixpoint findall_from (r : regex) (skip : nat) (s : list ascii)
    {struct s} : list (list ascii) :=
  match skip, s with
  | S n, _ :: s' => findall_from r n s'
  | S _, [] => []
  | O, _ =>
      match match_here r s with
      | Some (n, g) =>
          default [] g ::
            match s with [] => [] | _ :: s' => findall_from r (pred n) s' end
      | None =>
          match s with [] => [] | _ :: s' => findall_from r 0 s' end
      end
  end.

Definition findall (r : regex) (content : string) : list string :=
  string_of_list_ascii <$> findall_from r 0 (list_ascii_of_string content).

End Re.

(** ** templates.py: detection and extraction *)

Module TemplateEngine.
Import Re.
Local Open Scope regex_scope.

(** [r"\{\{.*?\}\}|\{%.*?%\}"] *)
Definition marker_pattern : regex :=
  Alt (lits "{{" · LazyStar Dot · lits "}}")
      (lits "{%" · LazyStar Dot · lits "%}").

Definition is_template (content : string) : bool :=
  search marker_pattern (list_ascii_of_string content).

(** [r"\{\{\s*(\w+)(?:\s*\|.*?)?\s*\}\}"] *)
Definition var_pattern : regex :=
  lits "{{" · Star Space · Group (Plus Word)
    · Opt (Star Space · Lit "|" · LazyStar Dot) · Star Space · lits "}}".

(** [r"\{%\s*for\s+\w+\s+in\s+(\w+)\s*%\}"] *)
Definition for_pattern : regex :=
  lits "{%" · Star Space · lits "for" · Plus Space · Plus Word
    · Plus Space · lits "in" · Plus Space · Group (Plus Word)
    · Star Space · lits "%}".

(** [r"\{%\s*if\s+(\w+)(?:\s|\})"] *)
Definition if_pattern : regex :=
  lits "{%" · Star Space · lits "if" · Plus Space · Group (Plus Word)
    · Alt Space (Lit "}").

Definition builtins : gset string :=
  {[ "loop"; "true"; "false"; "none"; "True"; "False"; "None" ]}.

(** [sorted(variables - builtins)]: Python compares strings code point
    by code point, which is [String.le]. *)
Definition extract_variables (content : string) : list string :=
  let variables : gset string :=
    (list_to_set (findall var_pattern content)
       ∪ list_to_set (findall for_pattern content))
      ∪ list_to_set (findall if_pattern content) in
  merge_sort String.le (elements (variables ∖ builtins)).

End TemplateEngine.

(** ** The jinja2 dependency

    templates.py renders through the third-party [jinja2] package,
    configured as [Environment(undefined=StrictUndefined, autoescape=False,
    keep_trailing_newline=True)].  The package is not part of the
    repository.  Its behaviour is modelled on the fragment the properties
    below need: literal text and interpolations [{{ name }}] of a plain
    variable.  Everything else ([{% %}] statements, [{# #}] comments,
    filters, literals, operators, whitespace control, the names the engine
    predefines) is left to a parameter standing for the rest of the
    engine. *)

Module Jinja.

(** The exceptions of [jinja2.exceptions] that templates.py mentions, with
    their [message]; [OtherError] is any other exception. *)
Inductive error : Type :=
| TemplateSyntaxError (message : string)
| UndefinedError (message : string)
| OtherError.

Definition CR : ascii := "013"%char.
Definition LF : ascii := "010"%char.

(** The lexer first rewrites every line break ([\r\n], [\r] or [\n]) to
    the environment's [newline_sequence], which is [\n]. *)
Fixpoint normalize_newlines (s : list ascii) : list ascii :=
  match s with
  | [] => []
  | c :: s' =>
      if Ascii.eqb c CR then
        match s' with
        | d :: s'' =>
            if Ascii.eqb d LF then LF :: normalize_newlines s''
            else LF :: normalize_newlines s'
        | [] => [LF]
        end
      else c :: normalize_newlines s'
  end.

(** Template body: [TemplateData] and [Output] of a [Name]. *)
Inductive node : Type :=
| Data (text : list ascii)
| Print (name : string).

Inductive parsed : Type :=
| Template (body : list node)
| Malformed      (* lexing or parsing raises TemplateSyntaxError *)
| Unmodelled.    (* outside the modelled fragment *)

(** Names that do not denote a plain lookup in the render context:
    literals, operator and statement keywords, and the globals and
    special names the default environment defines. *)
Definition reserved : list string :=
  [ "true"; "false"; "none"; "True"; "False"; "None";
    "not"; "and"; "or"; "in"; "is"; "if"; "else"; "elif"; "for";
    "recursive"; "with"; "without"; "context"; "ignore"; "missing";
    "import"; "from"; "as"; "set"; "block"; "extends"; "include";
    "macro"; "call"; "filter"; "raw"; "do"; "trans"; "pluralize";
    "autoescape"; "scoped"; "required";
    "range"; "dict"; "lipsum"; "cycler"; "joiner"; "namespace";
    "self"; "super"; "loop"; "caller"; "varargs"; "kwargs" ].

Definition is_name_start (c : ascii) : bool :=
  Re.is_word c && negb (bool_decide (is_Some (Ascii.is_nat c))).

Fixpoint lstrip (s : list ascii) : list ascii :=
  match s with
  | c :: s' => if Re.is_space c then lstrip s' else s
  | [] => []
  end.

Definition strip (s : list ascii) : list ascii :=
  reverse (lstrip (reverse (lstrip s))).

(** The text between [{{] and [}}] when it is one plain variable name
    surrounded by optional blanks. *)
Definition expr_name (e : list ascii) : option string :=
  let t := strip e in
  match t with
  | [] => None
  | c :: _ =>
      let name := string_of_list_ascii t in
      if is_name_start c && forallb Re.is_word t
         && negb (bool_decide (name ∈ reserved))
      then Some name else None
  end.

Inductive mode : Type :=
| InData (acc : list ascii)      (* text read so far, reversed *)
| InVar (acc : list ascii).      (* expression read so far, reversed *)

Definition add_data (acc : list ascii) (p : parsed) : parsed :=
  match p, acc with
  | Template body, _ :: _ => Template (Data (reverse acc) :: body)
  | _, _ => p
  end.

Definition add_node (n : node) (p : parsed) : parsed :=
  match p with
  | Template body => Template (n :: body)
  | _ => p
  end.

(** The lexer, one character at a time.  In the text, [{{] opens an
    interpolation; [{%] and [{#] open constructs outside the fragment.
    In an interpolation, the first [}}] closes it; reaching the end of
    the input first is a syntax error. *)
Fixpoint lex (m : mode) (s : list ascii) {struct s} : parsed :=
  match s with
  | [] =>
      match m with
      | InData acc => add_data acc (Template [])
      | InVar _ => Malformed
      end
  | c :: s' =>
      match m with
      | InData acc =>
          if Ascii.eqb c "{" then
            match s' with
            | d :: s'' =>
                if Ascii.eqb d "{" then add_data acc (lex (InVar []) s'')
                else if Ascii.eqb d "%" || Ascii.eqb d "#" then Unmodelled
                else lex (InData (c :: acc)) s'
            | [] => lex (InData (c :: acc)) s'
            end
          else lex (InData (c :: acc)) s'
      | InVar acc =>
          if Ascii.eqb c "}" then
            match s' with
            | d :: s'' =>
                if Ascii.eqb d "}" then
                  match expr_name (reverse acc) with
                  | Some name => add_node (Print name) (lex (InData []) s'')
                  | None => Unmodelled
                  end
                else lex (InVar (c :: acc)) s'
            | [] => lex (InVar (c :: acc)) s'
            end
          else lex (InVar (c :: acc)) s'
      end
  end.

Definition parse (source : string) : parsed :=
  lex (InData []) (normalize_newlines (list_ascii_of_string source)).

(** Rendering concatenates the pieces from left to right; under
    [StrictUndefined] printing a name the context does not define raises
    [UndefinedError] with the message ['name' is undefined].  Values are
    given by their [str()] form. *)
Fixpoint render_body (variables : gmap string string) (body : list node)
    : error + string :=
  match body with
  | [] => inr ""
  | Data text :: body' =>
      match render_body variables body' with
      | inr out => inr (string_of_list_ascii text ++ out)
      | inl e => inl e
      end
  | Print name :: body' =>
      match variables !! name with
      | None => inl (UndefinedError ("'" ++ name ++ "' is undefined"))
      | Some v =>
          match render_body variables body' with
          | inr out => inr (v ++ out)
          | inl e => inl e
          end
      end
  end.

Section Engine.
(** The rest of the engine: the outcome of
    [from_string(source).render] on a template outside the
    fragment, and the text of a syntax diagnostic. *)
Variable rest : string → gmap string string → error + string.
Variable diagnostic : string → string.

(** [env.from_string(source).render] with the variables passed as keyword
    arguments.  The whole source is compiled first, so a syntax error wins
    over everything else.  [Template.render(self, *args, **kwargs)] then
    receives the variables as keywords: a variable named [self] clashes
    with the method's own parameter and the call raises [TypeError] before
    anything is rendered. *)
Definition from_string_render (source : string)
    (variables : gmap string string) : error + string :=
  match parse source with
  | Template body =>
      match variables !! "self" with
      | Some _ => inl OtherError
      | None => render_body variables body
      end
  | Malformed => inl (TemplateSyntaxError (diagnostic source))
  | Unmodelled => rest source variables
  end.
End Engine.

End Jinja.

(** ** templates.py: rendering *)

(** Exceptions that leave the core: [TemplateRenderError] of templates.py,
    the store's [IntegrityError], and an exception of the engine that
    [render] does not catch. *)
Inductive exn : Type :=
| TemplateRenderError (msg : string)
| IntegrityError
| EngineError.

Section Render.
Variable rest : string → gmap string string → Jinja.error + string.
Variable diagnostic : string → string.

Definition render (content : string) (variables : gmap string string)
    : exn + string :=
  match Jinja.from_string_render rest diagnostic content variables with
  | inr out => inr out
  | inl (Jinja.TemplateSyntaxError message) =>
      inl (TemplateRenderError ("Template syntax error: " ++ message))
  | inl (Jinja.UndefinedError message) =>
      inl (TemplateRenderError ("Missing variable: " ++ message))
  | inl Jinja.OtherError => inl EngineError
  end.
End Render.

Section Validate.
(** The rest of the engine, for [env.parse]: the line and the message of
    the [TemplateSyntaxError] that a source outside the fragment raises,
    if it raises one; and the line the diagnostic of a malformed source
    of the fragment points to. *)
Variable rest : string → option (Z * string).
Variable lineno : string → Z.
Variable diagnostic : string → string.

(** [f"Syntax error at line {e.lineno}: {e.message}"] *)
Definition syntax_report (line : Z) (message : string) : string :=
  "Syntax error at line " ++ pretty line ++ ": " ++ message.

Definition validate_template (content : string) : bool * option string :=
  match Jinja.parse content with
  | Jinja.Template _ => (true, None)
  | Jinja.Malformed =>
      (false, Some (syntax_report (lineno content) (diagnostic content)))
  | Jinja.Unmodelled =>
      match rest content with
      | None => (true, None)
      | Some (line, message) => (false, Some (syntax_report line message))
      end
  end.
End Validate.

(** ** schemas.py and models.py *)

(** Timestamps are opaque instants. *)
Definition datetime : Type := Z.

(** A value of the [template_vars] descriptors, e.g.
    [{"type": "string", "required": True}]. *)
Inductive json : Type :=
| JString (s : string)
| JBool (b : bool).

Global Instance json_eq_dec : EqDecision json.
Proof. solve_decision. Defined.

Definition descriptor : Type := gmap string json.

(** [PromptCreate]: every field has a value, the defaults being [False],
    [None], the empty list and the empty dictionary. *)
Module PromptCreate.
Record t : Type := Build {
  title : string;
  content : string;
  description : option string;
  category : option string;
  tags : list string;
  source_url : option string;
  is_template : bool;
  template_vars : gmap string descriptor;
  success_notes : option string;
  failure_notes : option string;
  related_slugs : list string;
  slug : option string
}.

Definition set_is_template (b : bool) (d : t) : t :=
  Build (title d) (content d) (description d) (category d) (tags d)
    (source_url d) b (template_vars d) (success_notes d)
    (failure_notes d) (related_slugs d) (slug d).

Definition set_template_vars (v : gmap string descriptor) (d : t) : t :=
  Build (title d) (content d) (description d) (category d) (tags d)
    (source_url d) (is_template d) v (success_notes d)
    (failure_notes d) (related_slugs d) (slug d).
End PromptCreate.

(** A field of [PromptUpdate]: pydantic records which fields the caller
    set ([model_fields_set]); a field that was set may hold [None]. *)
Inductive field (A : Type) : Type :=
| Unset
| Given (v : option A).
Global Arguments Unset {A}.
Global Arguments Given {A} v.

(** Reading the attribute: an unset field reads as its default, [None]. *)
Definition value {A} (f : field A) : option A :=
  match f with Unset => None | Given v => v end.

Module PromptUpdate.
Record t : Type := Build {
  title : field string;
  content : field string;
  description : field string;
  category : field string;
  tags : field (list string);
  source_url : field string;
  is_template : field bool;
  template_vars : field (gmap string descriptor);
  success_notes : field string;
  failure_notes : field string;
  related_slugs : field (list string);
  change_note : field string
}.

Definition empty : t :=
  Build Unset Unset Unset Unset Unset Unset Unset Unset Unset Unset Unset
    Unset.

(** Assigning an attribute marks the field as set. *)
Definition set_is_template (b : bool) (d : t) : t :=
  Build (title d) (content d) (description d) (category d) (tags d)
    (source_url d) (Given (Some b)) (template_vars d) (success_notes d)
    (failure_notes d) (related_slugs d) (change_note d).

Definition set_template_vars (v : gmap string descriptor) (d : t) : t :=
  Build (title d) (content d) (description d) (category d) (tags d)
    (source_url d) (is_template d) (Given (Some v)) (success_notes d)
    (failure_notes d) (related_slugs d) (change_note d).
End PromptUpdate.

(** A row of [prompts].  The JSON columns hold [None] when the attribute
    was set to [None] (stored as the JSON null); the columns [title],
    [content] and [is_template] are NOT NULL. *)
Module Prompt.
Record t : Type := Build {
  id : string;
  slug : string;
  title : string;
  content : string;
  description : option string;
  category : option string;
  tags : option (list string);
  source_url : option string;
  is_template : bool;
  template_vars : option (gmap string descriptor);
  usage_count : Z;
  last_used_at : option datetime;
  success_notes : option string;
  failure_notes : option string;
  related_slugs : option (list string);
  version : Z;
  created_at : datetime;
  updated_at : datetime
}.

Global Instance eq_dec : EqDecision t.
Proof. solve_decision. Defined.

Definition set_updated_at (now : datetime) (p : t) : t :=
  Build (id p) (slug p) (title p) (content p) (description p) (category p)
    (tags p) (source_url p) (is_template p) (template_vars p)
    (usage_count p) (last_used_at p) (success_notes p) (failure_notes p)
    (related_slugs p) (version p) (created_at p) now.
End Prompt.

(** A row of [prompt_versions]. *)
Module PromptVersion.
Record t : Type := Build {
  id : string;
  prompt_id : string;
  version : Z;
  content : string;
  changed_at : datetime;
  change_note : option string
}.

Global Instance eq_dec : EqDecision t.
Proof. solve_decision. Defined.
End PromptVersion.

(** ** The database session

    The two tables, in insertion order.  Every repository method ends in a
    commit; a commit that violates a constraint raises [IntegrityError] and
    leaves the tables as they were. *)

Record Store : Type := {
  prompts : list Prompt.t;
  versions : list PromptVersion.t
}.

Definition M (A : Type) : Type := Store → Store * (exn + A).

Definition ret {A} (a : A) : M A := λ st, (st, inr a).
Definition raise {A} (e : exn) : M A := λ st, (st, inl e).
Definition bind {A B} (m : M A) (f : A → M B) : M B :=
  λ st, match m st with
        | (st', inr a) => f a st'
        | (st', inl e) => (st', inl e)
        end.

(** Exceptions of the Python runtime that the core lets through:
    iterating over [None], and an integer division by zero. *)
Inductive py_exn : Type :=
| TypeError
| ZeroDivisionError.

(** ** repository.py *)

Module PromptRepository.

(** [select(Prompt).where(Prompt.slug == slug)]; the column is unique, so
    at most one row qualifies. *)
Definition get_by_slug (st : Store) (slug : string) : option Prompt.t :=
  snd <$> list_find (λ p, Prompt.slug p = slug) (prompts st).

(** The loop [while existing] of [create], entered with a candidate that
    is taken.  [fuel] bounds the number of iterations. *)
Fixpoint unique_slug (fuel : nat) (st : Store) (base_slug : string)
    (counter : Z) : option string :=
  match fuel with
  | O => None
  | S fuel' =>
      let slug := base_slug ++ "-" ++ pretty counter in
      match get_by_slug st slug with
      | Some _ => unique_slug fuel' st base_slug (counter + 1)
      | None => Some slug
      end
  end.

(** The slug resolution of [create]: the candidate itself when it is
    free, otherwise the result of the loop. *)
Definition resolve_slug (fuel : nat) (st : Store) (slug : string)
    : option string :=
  match get_by_slug st slug with
  | Some _ => unique_slug fuel st slug 1
  | None => Some slug
  end.

(** Primary keys and the unique slug, checked when rows are written. *)
Definition prompt_insertable (st : Store) (p : Prompt.t) : Prop :=
  (Prompt.id p ∉ (Prompt.id <$> prompts st))
  ∧ (Prompt.slug p ∉ (Prompt.slug <$> prompts st)).

Definition version_insertable (st : Store) (v : PromptVersion.t) : Prop :=
  PromptVersion.id v ∉ (PromptVersion.id <$> versions st).

Section Create.
(** [slugify] comes from the python-slugify package. *)
Variable slugify : string → string.

(** [data.slug or slugify(data.title)] *)
Definition candidate (data : PromptCreate.t) : string :=
  match PromptCreate.slug data with
  | Some s => if decide (s = "") then slugify (PromptCreate.title data) else s
  | None => slugify (PromptCreate.title data)
  end.

(** [now] is the server clock; [pid] and [vid] are the fresh
    [uuid4] keys of the two rows.  [None]: the slug loop was cut off by
    [fuel]. *)
Definition create (fuel : nat) (now : datetime) (pid vid : string)
    (data : PromptCreate.t) (st : Store)
    : option (Store * (exn + Prompt.t)) :=
  slug ← resolve_slug fuel st (candidate data);
  let prompt :=
    Prompt.Build pid slug (PromptCreate.title data)
      (PromptCreate.content data) (PromptCreate.description data)
      (PromptCreate.category data) (Some (PromptCreate.tags data))
      (PromptCreate.source_url data) (PromptCreate.is_template data)
      (Some (PromptCreate.template_vars data)) 0 None
      (PromptCreate.success_notes data)
      (PromptCreate.failure_notes data)
      (Some (PromptCreate.related_slugs data)) 1 now now in
  let version :=
    PromptVersion.Build vid pid 1 (PromptCreate.content data) now
      (Some "Initial version") in
  Some (if decide (prompt_insertable st prompt
                   ∧ version_insertable st version)
        then ({| prompts := prompts st ++ [prompt];
                 versions := versions st ++ [version] |}, inr prompt)
        else (st, inl IntegrityError)).
End Create.

(** [setattr] on a NOT NULL column: [None] cannot be flushed. *)
Definition set_required {A} (f : field A) (old : A) : option A :=
  match f with
  | Unset => Some old
  | Given (Some v) => Some v
  | Given None => None
  end.

(** [setattr] on a nullable or JSON column. *)
Definition set_nullable {A} (f : field A) (old : option A) : option A :=
  match f with
  | Unset => old
  | Given v => v
  end.

(** ["content" in update_data and update_data["content"] != prompt.content] *)
Definition content_changed (data : PromptUpdate.t) (prompt : Prompt.t)
    : bool :=
  match PromptUpdate.content data with
  | Unset => false
  | Given v => bool_decide (v ≠ Some (Prompt.content prompt))
  end.

(** The row after the [setattr] loop and the version bump; [None] when a
    NOT NULL column was set to [None].  [change_note] is excluded from
    [update_data]. *)
Definition assign (data : PromptUpdate.t) (prompt : Prompt.t)
    : option Prompt.t :=
  title ← set_required (PromptUpdate.title data) (Prompt.title prompt);
  content ← set_required (PromptUpdate.content data) (Prompt.content prompt);
  is_template ←
    set_required (PromptUpdate.is_template data) (Prompt.is_template prompt);
  Some (Prompt.Build (Prompt.id prompt) (Prompt.slug prompt) title content
    (set_nullable (PromptUpdate.description data) (Prompt.description prompt))
    (set_nullable (PromptUpdate.category data) (Prompt.category prompt))
    (set_nullable (PromptUpdate.tags data) (Prompt.tags prompt))
    (set_nullable (PromptUpdate.source_url data) (Prompt.source_url prompt))
    is_template
    (set_nullable (PromptUpdate.template_vars data)
       (Prompt.template_vars prompt))
    (Prompt.usage_count prompt) (Prompt.last_used_at prompt)
    (set_nullable (PromptUpdate.success_notes data)
       (Prompt.success_notes prompt))
    (set_nullable (PromptUpdate.failure_notes data)
       (Prompt.failure_notes prompt))
    (set_nullable (PromptUpdate.related_slugs data)
       (Prompt.related_slugs prompt))
    (if content_changed data prompt
     then Prompt.version prompt + 1 else Prompt.version prompt)
    (Prompt.created_at prompt) (Prompt.updated_at prompt)).

(** [onupdate=func.now()]: a row that is written gets a new
    [updated_at]. *)
Definition touch (now : datetime) (old new : Prompt.t) : Prompt.t :=
  if decide (new = old) then old else Prompt.set_updated_at now new.

(** UPDATE of the row with the primary key of [new]. *)
Definition write (new : Prompt.t) (rows : list Prompt.t) : list Prompt.t :=
  (λ p, if decide (Prompt.id p = Prompt.id new) then new else p) <$> rows.

Definition update (now : datetime) (vid : string) (slug : string)
    (data : PromptUpdate.t) : M (option Prompt.t) := λ st,
  match get_by_slug st slug with
  | None => (st, inr None)
  | Some prompt =>
      match assign data prompt with
      | None => (st, inl IntegrityError)
      | Some assigned =>
          let new := touch now prompt assigned in
          if content_changed data prompt then
            let version :=
              PromptVersion.Build vid (Prompt.id new) (Prompt.version new)
                (Prompt.content new) now
                (value (PromptUpdate.change_note data)) in
            if decide (version_insertable st version) then
              ({| prompts := write new (prompts st);
                  versions := versions st ++ [version] |}, inr (Some new))
            else (st, inl IntegrityError)
          else
            ({| prompts := write new (prompts st);
                versions := versions st |}, inr (Some new))
      end
  end.

Definition increment_usage (now : datetime) (slug : string)
    : M (option Prompt.t) := λ st,
  match get_by_slug st slug with
  | None => (st, inr None)
  | Some p =>
      let new :=
        Prompt.Build (Prompt.id p) (Prompt.slug p) (Prompt.title p)
          (Prompt.content p) (Prompt.description p) (Prompt.category p)
          (Prompt.tags p) (Prompt.source_url p) (Prompt.is_template p)
          (Prompt.template_vars p) (Prompt.usage_count p + 1) (Some now)
          (Prompt.success_notes p) (Prompt.failure_notes p)
          (Prompt.related_slugs p) (Prompt.version p)
          (Prompt.created_at p) now in
      ({| prompts := write new (prompts st); versions := versions st |},
       inr (Some new))
  end.

(** The version rows of one prompt, in insertion order. *)
Definition versions_of (st : Store) (pid : string)
    : list PromptVersion.t :=
  filter (λ v, PromptVersion.prompt_id v = pid) (versions st).

Definition get_version (st : Store) (slug : string) (version : Z)
    : option PromptVersion.t :=
  prompt ← get_by_slug st slug;
  snd <$> list_find (λ v, PromptVersion.version v = version)
            (versions_of st (Prompt.id prompt)).

(** [select(Prompt).where(Prompt.id == prompt_id)] on the primary key. *)
Definition get_by_id (st : Store) (prompt_id : string) : option Prompt.t :=
  snd <$> list_find (λ p, Prompt.id p = prompt_id) (prompts st).

(** [session.delete(prompt)] removes the row and, through the relationship
    [versions] (cascade ["all, delete-orphan"], foreign key ON DELETE
    CASCADE), every version row of the prompt. *)
Definition delete (slug : string) : M bool := λ st,
  match get_by_slug st slug with
  | None => (st, inr false)
  | Some prompt =>
      ({| prompts :=
            filter (λ p, Prompt.id p ≠ Prompt.id prompt) (prompts st);
          versions :=
            filter (λ v, PromptVersion.prompt_id v ≠ Prompt.id prompt)
              (versions st) |},
       inr true)
  end.

(** [order_by(PromptVersion.version.desc())]: [newer a b] when [a] may come
    before [b]. *)
Definition newer (a b : PromptVersion.t) : Prop :=
  (PromptVersion.version b ≤ PromptVersion.version a)%Z.

Global Instance newer_dec a b : Decision (newer a b).
Proof. unfold newer. apply _. Defined.

Definition get_versions (st : Store) (slug : string)
    : list PromptVersion.t :=
  match get_by_slug st slug with
  | None => []
  | Some prompt => merge_sort newer (versions_of st (Prompt.id prompt))
  end.

(** [tag_counts[tag] = tag_counts.get(tag, 0) + 1] *)
Definition count_tag (tag_counts : gmap string Z) (tag : string)
    : gmap string Z :=
  <[tag := (default 0 (tag_counts !! tag) + 1)%Z]> tag_counts.

(** The two nested loops of [get_tags] over [select(Prompt.tags)]; a row
    whose [tags] is [None] stops the inner [for] with [TypeError]. *)
Definition get_tags (st : Store) : py_exn + gmap string Z :=
  foldl (λ acc p,
           match acc with
           | inr tag_counts =>
               match Prompt.tags p with
               | Some tags => inr (foldl count_tag tag_counts tags)
               | None => inl TypeError
               end
           | inl e => inl e
           end)
    (inr ∅) (prompts st).

(** [query.offset((page - 1) * page_size).limit(page_size)] on the rows
    of a query.  A negative OFFSET or LIMIT is left to the database
    (SQLite ignores it, PostgreSQL rejects the statement): [None]. *)
Definition paginate {A} (page page_size : Z) (rows : list A)
    : option (list A) :=
  if decide (0 ≤ (page - 1) * page_size ∧ 0 ≤ page_size)%Z
  then Some (take (Z.to_nat page_size)
               (drop (Z.to_nat ((page - 1) * page_size)) rows))
  else None.

(** The [sort] argument of [list_prompts]. *)
Inductive sort_order : Type := Recent | Popular | Updated | Created.

Section ListPrompts.
(** The rows that pass the filters, in the order [sort] asks for: the
    WHERE and ORDER BY clauses are evaluated by the database. *)
Variable query :
  option string → option (list string) → option string → sort_order →
  Store → list Prompt.t.

(** The page of rows and the total of [select(func.count())] over the
    filtered query. *)
Definition list_prompts (page page_size : Z) (category : option string)
    (tags : option (list string)) (search : option string)
    (sort : sort_order) (st : Store) : option (list Prompt.t * Z) :=
  let rows := query category tags search sort st in
  prompts ← paginate page page_size rows;
  Some (prompts, Z.of_nat (length rows)).
End ListPrompts.

End PromptRepository.

(** ** service.py *)

Module PromptService.
Import PromptRepository.

(** [{var: {"type": "string", "required": True} for var in variables}] *)
Definition string_required : descriptor :=
  {[ "type" := JString "string"; "required" := JBool true ]}.

Definition default_vars (variables : list string)
    : gmap string descriptor :=
  list_to_map ((λ var, (var, string_required)) <$> variables).

(** The two steps of [create_prompt] before the repository call, on the
    request object. *)
Definition detect_create (data : PromptCreate.t) : PromptCreate.t :=
  let data :=
    if negb (PromptCreate.is_template data)
    then PromptCreate.set_is_template
           (TemplateEngine.is_template (PromptCreate.content data)) data
    else data in
  if PromptCreate.is_template data
     && bool_decide (PromptCreate.template_vars data = ∅)
  then PromptCreate.set_template_vars
         (default_vars
            (TemplateEngine.extract_variables (PromptCreate.content data)))
         data
  else data.

(** The same steps of [update_prompt], run when the payload carries a
    content. *)
Definition detect_update (data : PromptUpdate.t) : PromptUpdate.t :=
  match value (PromptUpdate.content data) with
  | None => data
  | Some content =>
      let data :=
        match value (PromptUpdate.is_template data) with
        | None =>
            PromptUpdate.set_is_template
              (TemplateEngine.is_template content) data
        | Some _ => data
        end in
      match value (PromptUpdate.is_template data),
            value (PromptUpdate.template_vars data) with
      | Some true, None =>
          PromptUpdate.set_template_vars
            (default_vars (TemplateEngine.extract_variables content)) data
      | _, _ => data
      end
  end.

Section Service.
Variable slugify : string → string.
Variable rest : string → gmap string string → Jinja.error + string.
Variable diagnostic : string → string.

Definition create_prompt (fuel : nat) (now : datetime)
    (pid vid : string) (data : PromptCreate.t) (st : Store)
    : option (Store * (exn + Prompt.t)) :=
  create slugify fuel now pid vid (detect_create data) st.

Definition update_prompt (now : datetime) (vid : string)
    (slug : string) (data : PromptUpdate.t) : M (option Prompt.t) :=
  update now vid slug (detect_update data).

Definition get_prompt (now : datetime) (slug : string)
    (increment_usage : bool) : M (option Prompt.t) :=
  if increment_usage then PromptRepository.increment_usage now slug
  else λ st, (st, inr (get_by_slug st slug)).

Definition render_prompt (now : datetime) (slug : string)
    (variables : gmap string string)
    : M (option (string * gmap string string)) :=
  bind (get_prompt now slug true) (λ prompt,
    match prompt with
    | None => ret None
    | Some prompt =>
        match render rest diagnostic (Prompt.content prompt) variables with
        | inr rendered => ret (Some (rendered, variables))
        | inl e => raise e
        end
    end).

(** [PromptUpdate(content=..., change_note=...)]: exactly these two
    fields are set. *)
Definition restore_payload (content : string) (version : Z)
    : PromptUpdate.t :=
  PromptUpdate.Build Unset (Given (Some content)) Unset Unset Unset Unset
    Unset Unset Unset Unset Unset
    (Given (Some ("Restored from version " ++ pretty version))).

Definition restore_version (now : datetime) (vid : string)
    (slug : string) (version : Z) : M (option Prompt.t) := λ st,
  match get_version st slug version with
  | None => (st, inr None)
  | Some version_record =>
      update now vid slug
        (restore_payload (PromptVersion.content version_record) version)
        st
  end.
End Service.

(** [pages = (total + page_size - 1) // page_size if total > 0 else 1]
    of [list_prompts]; [//] is the floor division, which raises on a zero
    divisor. *)
Definition pages (total page_size : Z) : py_exn + Z :=
  if decide (0 < total)%Z then
    if decide (page_size = 0%Z) then inl ZeroDivisionError
    else inr ((total + page_size - 1) `div` page_size)%Z
  else inr 1%Z.

(** The separator [add_note] puts between two notes: a rule between two
    blank lines. *)
Definition note_separator : string :=
  String Jinja.LF (String Jinja.LF ("---" ++ String Jinja.LF (String Jinja.LF ""))).

(** One branch of [add_note]: nothing for an absent or empty note;
    otherwise the note itself when the stored text is absent or empty, and
    the stored text, the separator and the note when it is not. *)
Definition note_update (note : option string) (stored : option string)
    : field string :=
  match note with
  | None => Unset
  | Some note =>
      if decide (note = "") then Unset
      else
        let existing := default "" stored in
        Given (Some (if decide (existing = "") then note
                     else existing ++ note_separator ++ note))
  end.

(** [add_note]: the payload built from [update_data] has exactly the
    keys that were put into that dictionary; with no key the prompt is
    returned as it was read. *)
Definition add_note (now : datetime) (vid : string) (slug : string)
    (success_note failure_note : option string) : M (option Prompt.t) :=
  λ st,
  match get_by_slug st slug with
  | None => (st, inr None)
  | Some prompt =>
      let success := note_update success_note (Prompt.success_notes prompt) in
      let failure := note_update failure_note (Prompt.failure_notes prompt) in
      match success, failure with
      | Unset, Unset => (st, inr (Some prompt))
      | _, _ =>
          update now vid slug
            (PromptUpdate.Build Unset Unset Unset Unset Unset Unset Unset
               Unset success failure Unset Unset) st
      end
  end.

End PromptService.

(** ** api/auth.py *)

Module Auth.

(** The two settings that [verify_api_key] reads. *)
Record Settings : Type := {
  api_key : string;
  allow_localhost_bypass : bool
}.

(** [HTTPException(status_code=..., detail=...)] *)
Record HTTPException : Type := {
  status_code : Z;
  detail : string
}.

(** [request.client.host if request.client else None] is the argument
    [client_host]. *)
Definition is_localhost (client_host : option string) : bool :=
  match client_host with
  | Some host => bool_decide (host ∈ ["127.0.0.1"; "localhost"; "::1"])
  | None => false
  end.

(** [s[n:]] *)
Fixpoint skip (n : nat) (s : string) : string :=
  match n, s with
  | S n', String _ s' => skip n' s'
  | _, _ => s
  end.

(** [api_key] is the value of the [Authorization] header, if the request
    has one. *)
Definition verify_api_key (settings : Settings)
    (client_host : option string) (api_key : option string)
    : HTTPException + option string :=
  if allow_localhost_bypass settings && is_localhost client_host
  then inr None
  else
    match api_key with
    | None | Some "" =>
        inl {| status_code := 401;
               detail := "Missing API key. Provide 'Authorization: Bearer <key>' header." |}
    | Some key =>
        let key := if String.prefix "Bearer " key then skip 7 key else key in
        if decide (key = Auth.api_key settings) then inr (Some key)
        else inl {| status_code := 401; detail := "Invalid API key." |}
    end.

End Auth.

(** ** api/routes/prompts.py and the exception handlers of api/main.py *)

Module Api.

(** [RenderResponse] of schemas.py. *)
Record RenderResponse : Type := {
  content : string;
  slug : string;
  is_template : bool;
  variables_used : gmap string string
}.

(** [HTTPException(status_code=404, detail=f"Prompt '{slug}' not found")] *)
Definition not_found (slug : string) : Auth.HTTPException :=
  {| Auth.status_code := 404;
     Auth.detail := "Prompt '" ++ slug ++ "' not found" |}.

Section Routes.
Variable rest : string → gmap string string → Jinja.error + string.
Variable diagnostic : string → string.

(** The route [GET /prompts/{slug}/render].  An [HTTPException] the route
    raises is the left summand of the result; an exception of the core
    passes through. *)
Definition render_prompt (now : datetime) (slug : string)
    (variables : option (gmap string string))
    : M (Auth.HTTPException + RenderResponse) :=
  let variables := default ∅ variables in
  bind (PromptService.get_prompt now slug false) (λ prompt,
    match prompt with
    | None => ret (inl (not_found slug))
    | Some prompt =>
        bind (PromptService.render_prompt rest diagnostic now slug variables)
          (λ result,
             match result with
             | None => ret (inl (not_found slug))
             | Some (rendered, used_vars) =>
                 ret (inr {| content := rendered;
                             slug := slug;
                             is_template := Prompt.is_template prompt;
                             variables_used := used_vars |})
             end)
    end).
End Routes.

(** A response that is not the route's own: status code and the [detail]
    of its JSON body. *)
Record JSONResponse : Type := {
  status_code : Z;
  detail : string
}.

(** [template_error_handler]: 422 with [str(exc)]. *)
Definition template_error_handler (message : string) : JSONResponse :=
  {| status_code := 422; detail := message |}.

(** [general_exception_handler]: 500 for every other exception. *)
Definition general_exception_handler : JSONResponse :=
  {| status_code := 500; detail := "An unexpected error occurred" |}.

(** What the application answers: the handlers of api/main.py for the
    exceptions of the core, and the framework's rendering of an
    [HTTPException]. *)
Definition respond {A} (result : exn + (Auth.HTTPException + A))
    : JSONResponse + A :=
  match result with
  | inr (inr a) => inr a
  | inr (inl e) =>
      inl {| status_code := Auth.status_code e; detail := Auth.detail e |}
  | inl (TemplateRenderError message) => inl (template_error_handler message)
  | inl _ => inl general_exception_handler
  end.

End Api.

(** * Vocabulary of the properties

    Definitions that the statements below use: they describe the code, and
    are not part of it. *)

Section Vocabulary.
Import PromptRepository.
Import Jinja.
Local Open Scope Z_scope.

(** The slugs in use. *)
Definition slugs (st : Store) : list string := Prompt.slug <$> prompts st.

(** [f"{base_slug}-{counter}"] *)
Definition suffixed (base_slug : string) (counter : Z) : string :=
  base_slug ++ "-" ++ pretty counter.

(** The loop of the specification's extraction example. *)
Definition loop_example : string :=
  "{% for item in items %}{{ item }}{% endfor %}".

(** The specification's reading of a marker: an opening delimiter followed,
    anywhere later, by the matching closing delimiter. *)
Definition has_marker (content : string) : Prop :=
  ∃ pre mid post,
    content = pre ++ "{{" ++ mid ++ "}}" ++ post
    ∨ content = pre ++ "{%" ++ mid ++ "%}" ++ post.

(** A marker that starts at the beginning of [s]. *)
Definition marker_here (a b c d : ascii) (s : list ascii) : Prop :=
  ∃ mid post, s = (a :: b :: mid ++ c :: d :: post)%list ∧ Jinja.LF ∉ mid.

(** A marker written on one line: an opening delimiter followed by the
    matching closing delimiter with no line feed in between. *)
Definition one_line_marker (content : string) : Prop :=
  ∃ pre mid post,
    (content = pre ++ "{{" ++ mid ++ "}}" ++ post
     ∨ content = pre ++ "{%" ++ mid ++ "%}" ++ post)
    ∧ Jinja.LF ∉ list_ascii_of_string mid.

(** An interpolation written over three lines. *)
Definition multiline_example : string :=
  "{{" ++ String Jinja.LF ("name" ++ String Jinja.LF "}}").

(** The names a template body prints, in order. *)
Fixpoint names (body : list node) : list string :=
  match body with
  | [] => []
  | Data _ :: body' => names body'
  | Print name :: body' => name :: names body'
  end.

(** The first printed name that the mapping does not define. *)
Definition first_missing (variables : gmap string string)
    (body : list node) : option string :=
  snd <$> list_find (λ name, variables !! name = None) (names body).

(** The text with every interpolation replaced by its value. *)
Fixpoint substitute (variables : gmap string string) (body : list node)
    : string :=
  match body with
  | [] => ""
  | Data text :: body' =>
      string_of_list_ascii text ++ substitute variables body'
  | Print name :: body' =>
      default "" (variables !! name) ++ substitute variables body'
  end.

(** An interpolation that is never closed. *)
Definition unclosed_example : string := "Hello {{ name }".

(** [sub] occurs in [content]. *)
Definition occurs (sub content : string) : Prop :=
  ∃ pre post, content = pre ++ sub ++ post.

(** [c] followed by [d] is an opening delimiter of the engine. *)
Definition opens (c d : ascii) : bool :=
  Ascii.eqb c "{" && (Ascii.eqb d "{" || Ascii.eqb d "%" || Ascii.eqb d "#").

Fixpoint has_opener (s : list ascii) : bool :=
  match s with
  | [] => false
  | c :: s' =>
      match s' with d :: _ => opens c d | [] => false end || has_opener s'
  end.

(** No opening delimiter [{{], [{%] or [{#] occurs in the content. *)
Definition opener_free (content : string) : bool :=
  negb (has_opener (list_ascii_of_string content)).

(** The content with its line breaks rewritten to line feeds. *)
Definition normalized (content : string) : string :=
  string_of_list_ascii
    (Jinja.normalize_newlines (list_ascii_of_string content)).

(** The ledger of a prompt is in order: its version rows carry the numbers
    [1], [2], ..., up to the prompt's [version]. *)
Definition ledger_ok (st : Store) (p : Prompt.t) : Prop :=
  (0 < Prompt.version p)%Z
  ∧ PromptVersion.version <$> PromptRepository.versions_of st (Prompt.id p)
    = seqZ 1 (Prompt.version p).

(** The prompt's [version] is the highest version number among its version
    rows. *)
Definition version_is_highest (st : Store) (p : Prompt.t) : Prop :=
  (∃ v, v ∈ PromptRepository.versions_of st (Prompt.id p)
        ∧ PromptVersion.version v = Prompt.version p)
  ∧ ∀ v, v ∈ PromptRepository.versions_of st (Prompt.id p) →
         (PromptVersion.version v ≤ Prompt.version p)%Z.

(** A consistent store: the keys and slugs are unique, every version row
    belongs to a stored prompt, and every ledger is in order. *)
Record store_ok (st : Store) : Prop := {
  ids_unique : NoDup (Prompt.id <$> prompts st);
  slugs_unique : NoDup (slugs st);
  versions_owned :
    ∀ v, v ∈ versions st →
         PromptVersion.prompt_id v ∈ (Prompt.id <$> prompts st);
  ledgers_ok : ∀ p, p ∈ prompts st → ledger_ok st p
}.

(** The payload sets a NOT NULL column to [None]. *)
Definition nulls_required (data : PromptUpdate.t) : Prop :=
  PromptUpdate.title data = Given None
  ∨ PromptUpdate.content data = Given None
  ∨ PromptUpdate.is_template data = Given None.

(** Every column of [new] holds the value the payload supplied for it, or
    the value of [old] when the payload left it unset; the columns outside
    the payload are those of [old]. *)
Definition fields_assigned (data : PromptUpdate.t) (old new : Prompt.t)
    : Prop :=
  Prompt.id new = Prompt.id old
  ∧ Prompt.slug new = Prompt.slug old
  ∧ PromptRepository.set_required (PromptUpdate.title data) (Prompt.title old)
    = Some (Prompt.title new)
  ∧ PromptRepository.set_required (PromptUpdate.content data)
      (Prompt.content old) = Some (Prompt.content new)
  ∧ PromptRepository.set_required (PromptUpdate.is_template data)
      (Prompt.is_template old) = Some (Prompt.is_template new)
  ∧ Prompt.description new
    = PromptRepository.set_nullable (PromptUpdate.description data)
        (Prompt.description old)
  ∧ Prompt.category new
    = PromptRepository.set_nullable (PromptUpdate.category data)
        (Prompt.category old)
  ∧ Prompt.tags new
    = PromptRepository.set_nullable (PromptUpdate.tags data) (Prompt.tags old)
  ∧ Prompt.source_url new
    = PromptRepository.set_nullable (PromptUpdate.source_url data)
        (Prompt.source_url old)
  ∧ Prompt.template_vars new
    = PromptRepository.set_nullable (PromptUpdate.template_vars data)
        (Prompt.template_vars old)
  ∧ Prompt.success_notes new
    = PromptRepository.set_nullable (PromptUpdate.success_notes data)
        (Prompt.success_notes old)
  ∧ Prompt.failure_notes new
    = PromptRepository.set_nullable (PromptUpdate.failure_notes data)
        (Prompt.failure_notes old)
  ∧ Prompt.related_slugs new
    = PromptRepository.set_nullable (PromptUpdate.related_slugs data)
        (Prompt.related_slugs old)
  ∧ Prompt.usage_count new = Prompt.usage_count old
  ∧ Prompt.last_used_at new = Prompt.last_used_at old
  ∧ Prompt.created_at new = Prompt.created_at old.

(** What [update] does, case by case. *)
Inductive update_outcome (now : datetime) (vid slug : string)
    (data : PromptUpdate.t) (st : Store)
    : Store → exn + option Prompt.t → Prop :=
| update_not_found :
    get_by_slug st slug = None →
    update_outcome now vid slug data st st (inr None)
| update_rejected p :
    get_by_slug st slug = Some p →
    nulls_required data
    ∨ (content_changed data p = true
       ∧ vid ∈ (PromptVersion.id <$> versions st)) →
    update_outcome now vid slug data st st (inl IntegrityError)
| update_fields p new :
    get_by_slug st slug = Some p →
    content_changed data p = false →
    fields_assigned data p new →
    Prompt.version new = Prompt.version p →
    (new = p ∨ new ≠ p ∧ Prompt.updated_at new = now) →
    update_outcome now vid slug data st
      {| prompts := write new (prompts st); versions := versions st |}
      (inr (Some new))
| update_content p new :
    get_by_slug st slug = Some p →
    content_changed data p = true →
    vid ∉ (PromptVersion.id <$> versions st) →
    fields_assigned data p new →
    Prompt.version new = Prompt.version p + 1 →
    PromptUpdate.content data = Given (Some (Prompt.content new)) →
    update_outcome now vid slug data st
      {| prompts := write new (prompts st);
         versions :=
           (versions st ++
            [PromptVersion.Build vid (Prompt.id p) (Prompt.version p + 1)
               (Prompt.content new) now
               (value (PromptUpdate.change_note data))])%list |}
      (inr (Some new)).

(** The row and the first ledger entry that [create] writes. *)
Definition created_prompt (now : datetime) (pid slug : string)
    (data : PromptCreate.t) : Prompt.t :=
  Prompt.Build pid slug (PromptCreate.title data) (PromptCreate.content data)
    (PromptCreate.description data) (PromptCreate.category data)
    (Some (PromptCreate.tags data)) (PromptCreate.source_url data)
    (PromptCreate.is_template data) (Some (PromptCreate.template_vars data))
    0 None (PromptCreate.success_notes data)
    (PromptCreate.failure_notes data)
    (Some (PromptCreate.related_slugs data)) 1 now now.

Definition initial_version (now : datetime) (pid vid : string)
    (data : PromptCreate.t) : PromptVersion.t :=
  PromptVersion.Build vid pid 1 (PromptCreate.content data) now
    (Some "Initial version").

(** A store with one prompt, as [create] leaves it (the fixture
    [sample_prompt_data] of the repository's tests). *)
Definition example_prompt : Prompt.t :=
  Prompt.Build "id-1" "test-prompt" "Test Prompt" "This is a test prompt"
    (Some "A prompt for testing") (Some "testing") (Some ["test"; "example"])
    None false (Some ∅) 0%Z None None None (Some []) 1%Z 0%Z 0%Z.

Definition example_version : PromptVersion.t :=
  PromptVersion.Build "v-1" "id-1" 1%Z "This is a test prompt" 0%Z
    (Some "Initial version").

Definition example_store : Store :=
  {| prompts := [example_prompt]; versions := [example_version] |}.

(** [PromptUpdate(content="New content", change_note="Updated content")] *)
Definition content_payload : PromptUpdate.t :=
  PromptUpdate.Build Unset (Given (Some "New content")) Unset Unset Unset
    Unset Unset Unset Unset Unset Unset (Given (Some "Updated content")).

(** The JSON body [{"title": "New title", "content": null}]. *)
Definition null_content_payload : PromptUpdate.t :=
  PromptUpdate.Build (Given (Some "New title")) (Given None) Unset Unset
    Unset Unset Unset Unset Unset Unset Unset Unset.

(** The example store after the update with [content_payload] at time 5. *)
Definition updated_prompt : Prompt.t :=
  Prompt.Build "id-1" "test-prompt" "Test Prompt" "New content"
    (Some "A prompt for testing") (Some "testing") (Some ["test"; "example"])
    None false (Some ∅) 0%Z None None None (Some []) 2%Z 0%Z 5%Z.

Definition updated_store : Store :=
  {| prompts := [updated_prompt];
     versions :=
       [example_version;
        PromptVersion.Build "v-2" "id-1" 2%Z "New content" 5%Z
          (Some "Updated content")] |}.

(** A stored template, which the empty mapping fails to render. *)
Definition example_template : Prompt.t :=
  Prompt.Build "id-2" "test-template" "Test Template" "Hello {{ name }}!"
    None (Some "templates") (Some ["template"; "greeting"]) None true
    (Some (PromptService.default_vars ["name"])) 0%Z None None None
    (Some []) 1%Z 0%Z 0%Z.

Definition template_store : Store :=
  {| prompts := [example_template];
     versions :=
       [PromptVersion.Build "v-3" "id-2" 1%Z "Hello {{ name }}!" 0%Z
          (Some "Initial version")] |}.

(** A creation request that says [is_template = False] for a content with
    a marker. *)
Definition explicit_false_request : PromptCreate.t :=
  PromptCreate.Build "Test Template" "Hello {{name}}, welcome to {{place}}!"
    None None [] None false ∅ None None [] None.

(** *** Further vocabulary: lookups, reads, tags and notes *)

(** The database before the first request. *)
Definition empty_store : Store := {| prompts := []; versions := [] |}.

(** The row of [p] after one counted read at [now]. *)
Definition used (now : datetime) (p : Prompt.t) : Prompt.t :=
  Prompt.Build (Prompt.id p) (Prompt.slug p) (Prompt.title p)
    (Prompt.content p) (Prompt.description p) (Prompt.category p)
    (Prompt.tags p) (Prompt.source_url p) (Prompt.is_template p)
    (Prompt.template_vars p) (Prompt.usage_count p + 1) (Some now)
    (Prompt.success_notes p) (Prompt.failure_notes p)
    (Prompt.related_slugs p) (Prompt.version p)
    (Prompt.created_at p) now.

(** The store after the reads [get_prompt(slug)] made at the times
    [nows], one after the other. *)
Definition reads (slug : string) (nows : list datetime) (st : Store)
    : Store :=
  foldl (λ st now, (PromptService.get_prompt now slug true st).1) st nows.

(** The tags of all prompts, with repetitions; a prompt without a tag list
    contributes none. *)
Definition all_tags (st : Store) : list string :=
  concat ((λ p, default [] (Prompt.tags p)) <$> prompts st).

(** How often [tag] occurs in [tags]. *)
Definition occurrences (tag : string) (tags : list string) : Z :=
  Z.of_nat (length (filter (λ t, t = tag) tags)).

(** The JSON body [{"tags": null}]. *)
Definition null_tags_payload : PromptUpdate.t :=
  PromptUpdate.Build Unset Unset Unset Unset (Given None) Unset Unset Unset
    Unset Unset Unset Unset.

(** The payload [add_note] hands to [update]. *)
Definition note_payload (success_note failure_note : option string)
    (p : Prompt.t) : PromptUpdate.t :=
  PromptUpdate.Build Unset Unset Unset Unset Unset Unset Unset Unset
    (PromptService.note_update success_note (Prompt.success_notes p))
    (PromptService.note_update failure_note (Prompt.failure_notes p))
    Unset Unset.

(** The store after the notes [notes] were added to the success notes of
    a prompt, one call of [add_note] each. *)
Definition noted (now : datetime) (vid slug : string) (notes : list string)
    (st : Store) : Store :=
  foldl
    (λ st note, (PromptService.add_note now vid slug (Some note) None st).1)
    st notes.

(** The ledger entry with the prompt's version number holds the prompt's
    content. *)
Definition content_recorded (st : Store) (p : Prompt.t) : Prop :=
  ∃ v, v ∈ PromptRepository.versions_of st (Prompt.id p)
       ∧ PromptVersion.version v = Prompt.version p
       ∧ PromptVersion.content v = Prompt.content p.

(** A consistent store in which, moreover, the newest ledger entry of
    every prompt holds the prompt's content. *)
Definition consistent (st : Store) : Prop :=
  store_ok st ∧ ∀ p, p ∈ prompts st → content_recorded st p.

(** A second request for the slug of the example prompt. *)
Definition second_request : PromptCreate.t :=
  PromptCreate.Build "Test Prompt" "Another prompt" None None [] None false
    ∅ None None [] (Some "test-prompt").

(** The request that creates the example prompt. *)
Definition example_request : PromptCreate.t :=
  PromptCreate.Build "Test Prompt" "This is a test prompt"
    (Some "A prompt for testing") (Some "testing") ["test"; "example"] None
    false ∅ None None [] (Some "test-prompt").

(** [PromptUpdate(content="Hello {{ name }}!")] *)
Definition template_payload : PromptUpdate.t :=
  PromptUpdate.Build Unset (Given (Some "Hello {{ name }}!")) Unset Unset
    Unset Unset Unset Unset Unset Unset Unset Unset.

Section Steps.
Variable slugify : string → string.
Variable rest : string → gmap string string → error + string.
Variable diagnostic : string → string.

(** One call of an operation of the service that writes, with any
    arguments, whatever it returns or raises. *)
Inductive step : Store → Store → Prop :=
| step_create_prompt fuel now pid vid data st st' r :
    PromptService.create_prompt slugify fuel now pid vid data st
    = Some (st', r) →
    step st st'
| step_update_prompt now vid slug data st :
    step st (PromptService.update_prompt now vid slug data st).1
| step_delete_prompt slug st :
    step st (PromptRepository.delete slug st).1
| step_get_prompt now slug increment_usage st :
    step st (PromptService.get_prompt now slug increment_usage st).1
| step_render_prompt now slug variables st :
    step st
      (PromptService.render_prompt rest diagnostic now slug variables st).1
| step_restore_version now vid slug version st :
    step st (PromptService.restore_version now vid slug version st).1
| step_add_note now vid slug success_note failure_note st :
    step st
      (PromptService.add_note now vid slug success_note failure_note st).1.
End Steps.

End Vocabulary.

(** Patterns and the words they capture. *)

Section RegexVocabulary.
Import Re.

(** A pattern without a capturing group. *)
Fixpoint groupless (r : regex) : bool :=
  match r with
  | Group _ => false
  | Cat r1 r2 | Alt r1 r2 => groupless r1 && groupless r2
  | Star r1 | LazyStar r1 => groupless r1
  | _ => true
  end.

(** Every match of the pattern goes once through the group [(\w+)]. *)
Fixpoint captures_word (r : regex) : bool :=
  match r with
  | Group (Cat Word (Star Word)) => true
  | Cat r1 r2 =>
      (captures_word r1 && groupless r2) || (groupless r1 && captures_word r2)
  | Alt r1 r2 => captures_word r1 && captures_word r2
  | _ => false
  end.

(** A non-empty run of word characters that occurs in [s]. *)
Definition word_of (w s : list ascii) : Prop :=
  w ≠ [] ∧ Forall (λ c, is_word c = true) w
  ∧ ∃ before after, s = (before ++ w ++ after)%list.
End RegexVocabulary.

(** * Properties *)

(** ** Slug resolver *)

Section SlugResolver.
Import PromptRepository.
Local Open Scope Z_scope.

Lemma get_by_slug_None st slug :
  get_by_slug st slug = None ↔ slug ∉ slugs st.
Proof.
  unfold get_by_slug, slugs. rewrite fmap_None, list_find_None, Forall_forall.
  rewrite list_elem_of_fmap. split.
  - intros H (p & -> & Hp). by apply (H p).
  - intros H p Hp Heq. apply H. by exists p.
Qed.

Lemma get_by_slug_Some st slug p :
  get_by_slug st slug = Some p → p ∈ prompts st ∧ Prompt.slug p = slug.
Proof.
  unfold get_by_slug. intros ([i q] & Hf & ->)%fmap_Some.
  apply list_find_Some in Hf as (Hi & ? & _).
  split; [by eapply list_elem_of_lookup_2|done].
Qed.

Lemma get_by_slug_is_Some st slug :
  is_Some (get_by_slug st slug) ↔ slug ∈ slugs st.
Proof.
  rewrite <-not_eq_None_Some, get_by_slug_None.
  destruct (decide (slug ∈ slugs st)); naive_solver.
Qed.

Global Instance suffixed_inj base_slug : Inj (=) (=) (suffixed base_slug).
Proof.
  intros a b H. unfold suffixed in H.
  apply (inj (String.app base_slug)) in H.
  apply (inj (String.app "-")) in H. by apply (inj pretty).
Qed.

(** The loop returns the first free suffix at or after [counter], when
    the fuel lasts that far. *)
Lemma unique_slug_first_free st base_slug (n : nat) :
  ∀ counter fuel,
    (∀ j : nat, (j < n)%nat → suffixed base_slug (counter + Z.of_nat j) ∈ slugs st) →
    suffixed base_slug (counter + Z.of_nat n) ∉ slugs st →
    (n < fuel)%nat →
    unique_slug fuel st base_slug counter
    = Some (suffixed base_slug (counter + Z.of_nat n)).
Proof.
  induction n as [|n IH]; intros counter fuel Htaken Hfree Hfuel;
    (destruct fuel as [|fuel]; [lia|]); simpl.
  - replace (counter + Z.of_nat 0) with counter in * by lia.
    apply get_by_slug_None in Hfree. unfold suffixed in Hfree.
    by rewrite Hfree.
  - pose proof (Htaken 0%nat ltac:(lia)) as H0.
    replace (counter + Z.of_nat 0) with counter in H0 by lia.
    apply get_by_slug_is_Some in H0 as [p Hp]. unfold suffixed in Hp.
    rewrite Hp. rewrite (IH (counter + 1) fuel).
    + do 2 f_equal. lia.
    + intros j Hj. specialize (Htaken (S j) ltac:(lia)).
      by replace (counter + 1 + Z.of_nat j) with (counter + Z.of_nat (S j)) by lia.
    + by replace (counter + 1 + Z.of_nat n) with (counter + Z.of_nat (S n)) by lia.
    + lia.
Qed.

(** Among [length (slugs st) + 1] consecutive suffixes one is free. *)
Lemma some_suffix_free st base_slug counter :
  ∃ m : nat, (m ≤ length (slugs st))%nat
             ∧ (suffixed base_slug (counter + Z.of_nat m) ∉ slugs st).
Proof.
  set (cands := (λ j : nat, suffixed base_slug (counter + Z.of_nat j))
                  <$> seq 0 (S (length (slugs st)))).
  destruct (decide (Forall (λ x, x ∈ slugs st) cands)) as [Hall|Hex].
  - assert (NoDup cands) as Hnd.
    { apply NoDup_fmap_2; [|apply NoDup_seq].
      intros a b Hab. apply (inj (suffixed base_slug)) in Hab. lia. }
    assert (length cands ≤ length (slugs st))%nat as Hlen.
    { apply submseteq_length, NoDup_submseteq; [done|].
      by apply Forall_forall. }
    unfold cands in Hlen. rewrite length_fmap, length_seq in Hlen. lia.
  - apply not_Forall_Exists in Hex; [|intros x; apply _].
    apply Exists_exists in Hex as (x & Hx & Hfree).
    apply list_elem_of_fmap in Hx as (j & -> & Hj).
    apply elem_of_seq in Hj. exists j. split; [lia|done].
Qed.

Lemma first_free_suffix st base_slug counter :
  ∃ n : nat, (n ≤ length (slugs st))%nat
    ∧ (suffixed base_slug (counter + Z.of_nat n) ∉ slugs st)
    ∧ ∀ j : nat, (j < n)%nat → suffixed base_slug (counter + Z.of_nat j) ∈ slugs st.
Proof.
  destruct (some_suffix_free st base_slug counter) as (m & Hm & Hfree).
  assert (∀ b : nat,
    (∀ j : nat, (j < b)%nat
       → suffixed base_slug (counter + Z.of_nat j) ∈ slugs st)
    ∨ (∃ n : nat, (n < b)%nat
         ∧ (suffixed base_slug (counter + Z.of_nat n) ∉ slugs st)
         ∧ ∀ j : nat, (j < n)%nat
             → suffixed base_slug (counter + Z.of_nat j) ∈ slugs st))
    as Hscan.
  { induction b as [|b [IHb|(n & ? & ? & ?)]].
    - left. intros j Hj. lia.
    - destruct (decide
        (suffixed base_slug (counter + Z.of_nat b) ∈ slugs st)).
      + left. intros j Hj.
        destruct (decide (j = b)) as [->|]; [done|]. apply IHb. lia.
      + right. exists b. split_and!; [lia|done|done].
    - right. exists n. split_and!; [lia|done|done]. }
  destruct (Hscan m) as [Hall|(n & ? & ? & ?)].
  - exists m. by split_and!.
  - exists n. split_and!; [lia|done|done].
Qed.

End SlugResolver.

(** The two ways slug resolution ends: with the candidate, or with the
    first free suffix found by the loop. *)
Lemma resolve_slug_cases (st : Store) (candidate : string) :
  ((candidate ∉ slugs st)
   ∧ ∀ fuel, PromptRepository.resolve_slug fuel st candidate = Some candidate)
  ∨ (candidate ∈ slugs st
     ∧ ∃ n : nat,
         (suffixed candidate (1 + Z.of_nat n) ∉ slugs st)
         ∧ (∀ j : nat, (j < n)%nat →
              suffixed candidate (1 + Z.of_nat j) ∈ slugs st)
         ∧ ∀ fuel, (length (prompts st) < fuel)%nat →
             PromptRepository.resolve_slug fuel st candidate
             = Some (suffixed candidate (1 + Z.of_nat n))).
Proof.
  destruct (decide (candidate ∈ slugs st)) as [Hin|Hout]; [right|left].
  - destruct (first_free_suffix st candidate 1) as (n & Hn & Hfree & Htaken).
    split; [done|]. exists n. split_and!; [done..|].
    intros fuel Hfuel. unfold PromptRepository.resolve_slug.
    apply get_by_slug_is_Some in Hin as [p ->].
    apply unique_slug_first_free; [done..|].
    unfold slugs in Hn. rewrite length_fmap in Hn. lia.
  - split; [done|]. intros fuel. unfold PromptRepository.resolve_slug.
    apply get_by_slug_None in Hout. by rewrite Hout.
Qed.

(** C4.  For every candidate slug and every store, slug resolution ends
    (any fuel beyond the number of stored prompts is enough) with a slug
    that is not in use: the candidate itself when it is free, and otherwise
    [candidate-k] for the lowest [k >= 1] that is free. *)
Theorem resolve_slug_lowest_free (st : Store) (candidate : string) :
  ∃ r,
    (∀ fuel, (length (prompts st) < fuel)%nat →
       PromptRepository.resolve_slug fuel st candidate = Some r)
    ∧ (r ∉ slugs st)
    ∧ (candidate ∉ slugs st → r = candidate)
    ∧ (∀ k : Z, (1 ≤ k)%Z →
         candidate ∈ slugs st →
         (∀ j : Z, (1 ≤ j < k)%Z → suffixed candidate j ∈ slugs st) →
         suffixed candidate k ∉ slugs st →
         r = suffixed candidate k).
Proof.
  destruct (resolve_slug_cases st candidate)
    as [[Hout Hres]|(Hin & n & Hfree & Htaken & Hres)].
  - exists candidate. split_and!; [by intros fuel _|done..].
  - exists (suffixed candidate (1 + Z.of_nat n)%Z).
    split_and!; [done|done|done|].
    intros k Hk _ Hbelow Hk_free. f_equal.
    destruct (Z.lt_trichotomy k (1 + Z.of_nat n)%Z) as [Hlt|[->|Hgt]];
      [|done|].
    + destruct Hk_free. specialize (Htaken (Z.to_nat (k - 1)%Z) ltac:(lia)).
      by replace (1 + Z.of_nat (Z.to_nat (k - 1)))%Z with k in Htaken by lia.
    + destruct Hfree. apply Hbelow. lia.
Qed.

(** ** Template engine: extraction *)

(** The loop example of C5 evaluates to [item] and [items]: the
    interpolation [{{ item }}] in the loop body is captured as well, so the
    result is not the one-element list [items]. *)
Lemma extract_variables_loop_body :
  TemplateEngine.extract_variables loop_example = ["item"; "items"]
  ∧ TemplateEngine.extract_variables loop_example ≠ ["items"].
Proof. split; [by vm_compute|]. by vm_compute. Qed.

(** C5 (amended).  [extract_variables] returns, sorted and without
    duplicates, exactly the names captured by one of the three patterns
    that are not in the exclusion set; a loop variable that is
    interpolated in the loop body is captured by the interpolation
    pattern, so the loop example yields [item] and [items]. *)
Theorem extract_variables_sorted_union (content : string) :
  StronglySorted String.le (TemplateEngine.extract_variables content)
  ∧ NoDup (TemplateEngine.extract_variables content)
  ∧ (∀ name,
       name ∈ TemplateEngine.extract_variables content ↔
         (name ∈ Re.findall TemplateEngine.var_pattern content
          ∨ name ∈ Re.findall TemplateEngine.for_pattern content
          ∨ name ∈ Re.findall TemplateEngine.if_pattern content)
         ∧ name ∉ ["loop"; "true"; "false"; "none"; "True"; "False"; "None"])
  ∧ TemplateEngine.extract_variables loop_example = ["item"; "items"].
Proof.
  unfold TemplateEngine.extract_variables. split_and!.
  - apply (StronglySorted_merge_sort _).
  - rewrite merge_sort_Permutation. apply NoDup_elements.
  - intros name. rewrite merge_sort_Permutation, elem_of_elements.
    rewrite elem_of_difference, !elem_of_union, !elem_of_list_to_set.
    assert (name ∈ TemplateEngine.builtins ↔
      name ∈ ["loop"; "true"; "false"; "none"; "True"; "False"; "None"])
      as ->; [|tauto].
    unfold TemplateEngine.builtins.
    rewrite !elem_of_union, !elem_of_singleton, !elem_of_cons, elem_of_nil.
    tauto.
  - by vm_compute.
Qed.

(** ** Template engine: detection *)

Section Detection.
Import Re.
Local Arguments Ascii.eqb : simpl never.

Lemma first_some_is_Some {R} (a b : option R) :
  is_Some (first_some a b) ↔ is_Some a ∨ is_Some b.
Proof.
  destruct a as [x|]; simpl.
  - split; [by left|eauto].
  - split; [by right|]. by intros [[? [=]]|?].
Qed.

(** A two-character literal matches exactly these two characters. *)
Lemma run_lits2 {R} (a b : ascii) s g (k : @cont R) :
  is_Some (run (lits (String a (String b ""))) s g k) ↔
  ∃ s', s = a :: b :: s' ∧ is_Some (k s' g).
Proof.
  destruct s as [|c [|d s]]; simpl.
  - split; [by intros [? [=]]|by intros (? & [=] & _)].
  - destruct (Ascii.eqb_spec a c); simpl;
      (split; [by intros [? [=]]|by intros (? & [=] & _)]).
  - destruct (Ascii.eqb_spec a c) as [->|]; simpl.
    + destruct (Ascii.eqb_spec b d) as [->|]; simpl.
      * split; [eauto|]. by intros (? & [= <-] & ?).
      * split; [by intros [? [=]]|]. by intros (? & [=] & _).
    + split; [by intros [? [=]]|]. by intros (? & [=] & _).
Qed.

(** [.*?] matches any run of characters other than the line feed. *)
Lemma run_lazy_dot {R} s g (k : @cont R) :
  is_Some (run (LazyStar Dot) s g k) ↔
  ∃ mid s', s = (mid ++ s')%list ∧ Forall (λ c, is_dot c = true) mid
            ∧ is_Some (k s' g).
Proof.
  cbn [run]. generalize (Nat.le_refl (length s)).
  generalize (length s) at 2 3 as n. intros n. revert s.
  induction n as [|n IH]; intros s Hlen.
  - destruct s; [|simpl in Hlen; lia]. split.
    + intros Hk. by exists [], [].
    + intros (mid & s' & Heq & _ & Hk).
      symmetry in Heq. apply app_eq_nil in Heq as [_ ->]. done.
  - rewrite first_some_is_Some. split.
    + intros [Hk|Hiter]; [by exists [], s|].
      destruct s as [|c s]; [by destruct Hiter as [? [=]]|].
      simpl in Hiter. destruct (is_dot c) eqn:Hc;
        [|by destruct Hiter as [? [=]]].
      rewrite (proj2 (Nat.ltb_lt _ _)) in Hiter by (simpl; lia).
      apply IH in Hiter as (mid & s' & -> & Hmid & Hk);
        [|simpl in Hlen; lia].
      exists (c :: mid), s'. split_and!; [done| |done].
      by constructor.
    + intros (mid & s' & -> & Hmid & Hk).
      destruct mid as [|c mid]; [by left|right].
      apply Forall_cons in Hmid as [Hc Hmid]. simpl. rewrite Hc.
      rewrite (proj2 (Nat.ltb_lt _ _)) by (simpl; lia).
      apply IH; [simpl in Hlen; lia|]. by exists mid, s'.
Qed.

Lemma is_dot_LF mid : Forall (λ c, is_dot c = true) mid ↔ Jinja.LF ∉ mid.
Proof.
  rewrite Forall_forall. unfold is_dot. split.
  - intros H Hin. specialize (H _ Hin). by vm_compute in H.
  - intros H c Hc. apply negb_true_iff.
    destruct (Ascii.eqb_spec c "010"); [|done]. by subst.
Qed.

Lemma match_here_marker s :
  is_Some (match_here TemplateEngine.marker_pattern s) ↔
  marker_here "{" "{" "}" "}" s ∨ marker_here "{" "%" "%" "}" s.
Proof.
  unfold match_here, TemplateEngine.marker_pattern. cbn [run].
  rewrite first_some_is_Some, !run_lits2. unfold marker_here.
  setoid_rewrite run_lazy_dot. setoid_rewrite run_lits2.
  setoid_rewrite is_dot_LF.
  split.
  - intros [(s1 & -> & mid & s2 & -> & Hmid & post & -> & _)
           |(s1 & -> & mid & s2 & -> & Hmid & post & -> & _)];
      [left|right]; by exists mid, post.
  - intros [(mid & post & -> & Hmid)|(mid & post & -> & Hmid)];
      [left|right]; eexists; (split; [done|]);
      exists mid; eexists; (split; [done|]); (split; [done|]);
      by exists post.
Qed.

Lemma search_spec r s :
  search r s = true ↔
  ∃ pre s', s = (pre ++ s')%list ∧ is_Some (match_here r s').
Proof.
  induction s as [|c s IH]; simpl.
  - destruct (match_here r []) as [m|] eqn:Hm.
    + split; [|done]. intros _. exists [], []. by rewrite Hm.
    + split; [done|]. intros (pre & s' & Heq & Hs).
      symmetry in Heq. apply app_eq_nil in Heq as [_ ->].
      rewrite Hm in Hs. by destruct Hs.
  - destruct (match_here r (c :: s)) as [m|] eqn:Hm.
    + split; [|done]. intros _. exists [], (c :: s). by rewrite Hm.
    + rewrite IH. split.
      * intros (pre & s' & -> & Hs). by exists (c :: pre), s'.
      * intros (pre & s' & Heq & Hs). destruct pre as [|c' pre].
        -- simpl in Heq. subst s'. rewrite Hm in Hs. by destruct Hs.
        -- injection Heq as -> ->. by exists pre, s'.
Qed.

Lemma list_ascii_of_string_app (a b : string) :
  list_ascii_of_string (a ++ b)
  = (list_ascii_of_string a ++ list_ascii_of_string b)%list.
Proof.
  induction a as [|c a IH]; [reflexivity|].
  change (c :: list_ascii_of_string (a ++ b)
          = c :: (list_ascii_of_string a ++ list_ascii_of_string b))%list.
  by rewrite IH.
Qed.

Lemma string_of_list_ascii_app (l k : list ascii) :
  string_of_list_ascii (l ++ k)
  = string_of_list_ascii l ++ string_of_list_ascii k.
Proof.
  induction l as [|c l IH]; [reflexivity|].
  change (String c (string_of_list_ascii (l ++ k))
          = String c (string_of_list_ascii l ++ string_of_list_ascii k)).
  by rewrite IH.
Qed.

Lemma marker_here_string (a b c d : ascii) pre s content :
  list_ascii_of_string content = (pre ++ s)%list →
  marker_here a b c d s →
  ∃ pre' mid post,
    content = pre' ++ String a (String b "") ++ mid
                ++ String c (String d "") ++ post
    ∧ Jinja.LF ∉ list_ascii_of_string mid.
Proof.
  intros Hcontent (mid & post & -> & Hmid).
  exists (string_of_list_ascii pre), (string_of_list_ascii mid),
    (string_of_list_ascii post).
  rewrite list_ascii_of_string_of_list_ascii. split; [|done].
  rewrite <-(string_of_list_ascii_of_string content), Hcontent.
  rewrite string_of_list_ascii_app. f_equal.
  change (String a (String b (string_of_list_ascii (mid ++ c :: d :: post)))
          = String a (String b (string_of_list_ascii mid
              ++ String c (String d "") ++ string_of_list_ascii post))).
  by rewrite string_of_list_ascii_app.
Qed.

Lemma string_marker_here (a b c d : ascii) pre mid post :
  Jinja.LF ∉ list_ascii_of_string mid →
  ∃ s, list_ascii_of_string
         (pre ++ String a (String b "") ++ mid
            ++ String c (String d "") ++ post)
       = (list_ascii_of_string pre ++ s)%list
       ∧ marker_here a b c d s.
Proof.
  intros Hmid. eexists. split.
  - rewrite list_ascii_of_string_app. f_equal.
  - exists (list_ascii_of_string mid), (list_ascii_of_string post).
    split; [|done].
    change (a :: b :: list_ascii_of_string
              (mid ++ String c (String d "") ++ post)
            = a :: b :: list_ascii_of_string mid
                ++ c :: d :: list_ascii_of_string post)%list.
    by rewrite list_ascii_of_string_app.
Qed.

Lemma is_template_one_line_marker content :
  TemplateEngine.is_template content = true ↔ one_line_marker content.
Proof.
  unfold TemplateEngine.is_template. rewrite search_spec. split.
  - intros (pre & s & Hcontent & [Hm|Hm]%match_here_marker);
      destruct (marker_here_string _ _ _ _ _ _ _ Hcontent Hm)
        as (pre' & mid & post & -> & Hmid);
      exists pre', mid, post; (split; [|done]); [by left|by right].
  - intros (pre & mid & post & [-> | ->] & Hmid).
    + destruct (string_marker_here "{" "{" "}" "}" pre mid post Hmid)
        as (s & Hs & Hm). exists (list_ascii_of_string pre), s.
      split; [exact Hs|]. apply match_here_marker. by left.
    + destruct (string_marker_here "{" "%" "%" "}" pre mid post Hmid)
        as (s & Hs & Hm). exists (list_ascii_of_string pre), s.
      split; [exact Hs|]. apply match_here_marker. by right.
Qed.
End Detection.

(** C7.  Detection answers true exactly for the contents that have a
    marker written on one line, and the two documented examples hold; but
    it misses a marker that spans several lines: [.] does not match a line
    feed, so [is_template] answers false on [multiline_example], although
    it contains an interpolation marker, from which [extract_variables]
    itself extracts [name]. *)
Theorem is_template_misses_multiline_marker :
  TemplateEngine.is_template "{ not a template }" = false
  ∧ TemplateEngine.is_template "{{x}}" = true
  ∧ (∀ content,
       TemplateEngine.is_template content = true ↔ one_line_marker content)
  ∧ has_marker multiline_example
  ∧ TemplateEngine.extract_variables multiline_example = ["name"]
  ∧ TemplateEngine.is_template multiline_example = false.
Proof.
  split_and!; try by vm_compute.
  - apply is_template_one_line_marker.
  - exists "", (String Jinja.LF ("name" ++ String Jinja.LF "")), "".
    by left.
Qed.

(** ** Template engine: rendering *)

Section Rendering.
Import Jinja.

Lemma render_body_missing variables body name :
  first_missing variables body = Some name →
  render_body variables body
  = inl (UndefinedError ("'" ++ name ++ "' is undefined")).
Proof.
  unfold first_missing.
  induction body as [|[text|n] body IH]; simpl; intros Hf; [done|..].
  - by rewrite IH.
  - csimpl in Hf. case_decide as Hn.
    + rewrite Hn. by simplify_eq/=.
    + destruct (variables !! n) as [v|]; [|done]. rewrite IH; [done|].
      destruct (list_find _ (names body)) as [[i x]|]; by simplify_eq/=.
Qed.

Lemma render_body_defined variables body :
  first_missing variables body = None →
  render_body variables body = inr (substitute variables body).
Proof.
  unfold first_missing.
  induction body as [|[text|n] body IH]; simpl; intros Hf; [done|..].
  - by rewrite IH.
  - csimpl in Hf. case_decide as Hn; [done|].
    destruct (variables !! n) as [v|]; [|done]. rewrite IH; [done|].
    by destruct (list_find _ (names body)) as [[i x]|].
Qed.

Lemma first_missing_Some variables body name :
  first_missing variables body = Some name →
  name ∈ names body ∧ variables !! name = None.
Proof.
  unfold first_missing. intros ([i x] & Hf & ->)%fmap_Some.
  apply list_find_Some in Hf as (Hi & ? & _).
  split; [by eapply list_elem_of_lookup_2|done].
Qed.

Lemma first_missing_None variables body :
  first_missing variables body = None ↔
  ∀ name, name ∈ names body → is_Some (variables !! name).
Proof.
  unfold first_missing. rewrite fmap_None, list_find_None, Forall_forall.
  split; intros H name Hin; specialize (H name Hin).
  - by apply not_eq_None_Some.
  - by apply not_eq_None_Some in H.
Qed.

End Rendering.



(** ** Template engine: content without markers *)

Section Openers.
Import Jinja.
Local Arguments Ascii.eqb : simpl never.

Lemma opens_spec c d :
  opens c d = true ↔
  c = "{"%char ∧ (d = "{"%char ∨ d = "%"%char ∨ d = "#"%char).
Proof.
  unfold opens. rewrite andb_true_iff, !orb_true_iff, !Ascii.eqb_eq.
  tauto.
Qed.

Lemma has_opener_cons c s :
  has_opener (c :: s)
  = from_option (opens c) false (head s) || has_opener s.
Proof. by destruct s. Qed.

Lemma has_opener_occurs content :
  has_opener (list_ascii_of_string content) = true →
  occurs "{{" content ∨ occurs "{%" content ∨ occurs "{#" content.
Proof.
  induction content as [|c content IH]; simpl; [done|].
  intros [Hopen|Hrest]%orb_true_iff.
  - destruct content as [|d content]; simpl in Hopen; [done|].
    apply opens_spec in Hopen as [-> [->|[->| ->]]];
      [left|right; left|right; right]; by exists "", content.
  - destruct (IH Hrest) as [(pre&post&->)|[(pre&post&->)|(pre&post&->)]];
      [left|right; left|right; right]; by exists (String c pre), post.
Qed.

Lemma occurs_has_opener pre d post :
  d = "{"%char ∨ d = "%"%char ∨ d = "#"%char →
  has_opener (list_ascii_of_string (pre ++ String "{" (String d "") ++ post))
  = true.
Proof.
  intros Hd. induction pre as [|c pre IH].
  - change (has_opener ("{"%char :: d :: list_ascii_of_string post) = true).
    simpl. apply orb_true_iff. left. by apply opens_spec.
  - change (has_opener (c :: list_ascii_of_string
              (pre ++ String "{" (String d "") ++ post)) = true).
    rewrite has_opener_cons, IH. apply orb_true_r.
Qed.

(** [opener_free] says what its name says. *)
Lemma opener_free_spec content :
  opener_free content = true ↔
  ¬ occurs "{{" content ∧ ¬ occurs "{%" content ∧ ¬ occurs "{#" content.
Proof.
  unfold opener_free. rewrite negb_true_iff. split.
  - intros Hfree. split_and!; intros (pre & post & ->);
      rewrite occurs_has_opener in Hfree; naive_solver.
  - intros (H1 & H2 & H3).
    destruct (has_opener _) eqn:Ho; [|done].
    apply has_opener_occurs in Ho. tauto.
Qed.

Lemma has_opener_tail c s :
  has_opener (c :: s) = false → has_opener s = false.
Proof. simpl. by intros [_ ?]%orb_false_iff. Qed.

Lemma normalize_head s :
  head (normalize_newlines s)
  = (λ d, if Ascii.eqb d CR then LF else d) <$> head s.
Proof.
  destruct s as [|c [|d s]]; simpl; [done|..];
    destruct (Ascii.eqb c CR); simpl; try done.
  by destruct (Ascii.eqb d LF).
Qed.

Lemma normalize_keeps_opener_free (n : nat) :
  ∀ s, (length s ≤ n)%nat → has_opener s = false →
       has_opener (normalize_newlines s) = false.
Proof.
  induction n as [|n IH]; intros [|c s] Hlen Hfree;
    [done|simpl in Hlen; lia|done|].
  simpl in Hlen. apply has_opener_tail in Hfree as Htail.
  cbn [normalize_newlines]. destruct (Ascii.eqb c CR) eqn:Hc.
  - destruct s as [|d s]; [done|].
    destruct (Ascii.eqb d LF) eqn:Hd;
      rewrite has_opener_cons; apply orb_false_iff; split.
    + by destruct (head _).
    + apply IH; [simpl in Hlen; lia|by apply has_opener_tail in Htail].
    + by destruct (head _).
    + apply IH; [lia|done].
  - rewrite has_opener_cons, normalize_head. apply orb_false_iff. split.
    + rewrite has_opener_cons in Hfree.
      apply orb_false_iff in Hfree as [Hhead _].
      destruct s as [|d s]; simpl; [done|]. simpl in Hhead.
      destruct (Ascii.eqb d CR) eqn:Hd; [|done].
      unfold opens. by rewrite andb_false_r.
    + apply IH; [lia|done].
Qed.

Lemma normalize_without_CR s :
  CR ∉ s → normalize_newlines s = s.
Proof.
  induction s as [|c s IH]; simpl; [done|].
  intros [Hc Hs]%not_elem_of_cons.
  destruct (Ascii.eqb_spec c CR) as [->|]; [done|]. by rewrite IH.
Qed.

Lemma lex_opener_free s :
  has_opener s = false →
  ∀ acc, lex (InData acc) s = add_data (reverse s ++ acc) (Template []).
Proof.
  induction s as [|c s IH]; intros Hfree acc; [done|].
  assert (lex (InData acc) (c :: s) = lex (InData (c :: acc)) s) as ->.
  { simpl. destruct (Ascii.eqb c "{") eqn:Hc; [|done].
    destruct s as [|d s]; [done|].
    simpl in Hfree. apply orb_false_iff in Hfree as [Ho _].
    unfold opens in Ho. rewrite Hc in Ho. simpl in Ho.
    apply orb_false_iff in Ho as [[-> ->]%orb_false_iff ->]. done. }
  rewrite IH by (by eapply has_opener_tail).
  by rewrite reverse_cons, <-app_assoc.
Qed.

Lemma add_data_reverse text :
  add_data (reverse text) (Template [])
  = match text with [] => Template [] | _ => Template [Data text] end.
Proof.
  destruct text as [|c text]; [done|].
  destruct (reverse (c :: text)) as [|a acc] eqn:Hrev.
  - apply (f_equal length) in Hrev. by rewrite length_reverse in Hrev.
  - simpl. by rewrite <-Hrev, reverse_involutive.
Qed.

Lemma string_app_nil_r (s : string) : s ++ "" = s.
Proof.
  induction s as [|c s IH]; [reflexivity|].
  change (String c (s ++ "") = String c s). by rewrite IH.
Qed.

Lemma search_marker_has_opener s :
  Re.search TemplateEngine.marker_pattern s = true → has_opener s = true.
Proof.
  induction s as [|c s IH]; simpl.
  - by vm_compute.
  - destruct (Re.match_here _ (c :: s)) as [m|] eqn:Hm.
    + intros _.
      assert (∃ d t, c :: s = "{"%char :: d :: t
                     ∧ (d = "{"%char ∨ d = "%"%char)) as (d&t&[= -> ->]&Hd).
      { revert Hm. unfold Re.match_here, TemplateEngine.marker_pattern.
        destruct s as [|d t]; cbn.
        - destruct (Ascii.eqb "{" c); by cbn.
        - destruct (Ascii.eqb_spec "{" c) as [<-|]; [|done].
          destruct (Ascii.eqb_spec "{" d) as [<-|]; [eauto|].
          destruct (Ascii.eqb_spec "%" d) as [<-|]; [eauto|]. done. }
      apply orb_true_iff. left. apply opens_spec.
      destruct Hd as [->| ->]; auto.
    + intros Hs. rewrite (IH Hs). apply orb_true_r.
Qed.

End Openers.

(** C8, as stated, fails on [unclosed_example]: detection finds no marker
    in it, yet rendering does not return it; it raises the template error
    of the syntax kind, whatever the mapping.  It also fails on plain text
    with a variable named [self], which the keyword call rejects. *)
Lemma render_not_identity_on_unclosed_marker :
  TemplateEngine.is_template unclosed_example = false
  ∧ (∀ rest diagnostic variables,
       render rest diagnostic unclosed_example variables
       = inl (TemplateRenderError
                ("Template syntax error: " ++ diagnostic unclosed_example)))
  ∧ TemplateEngine.is_template "Hello world!" = false
  ∧ ∀ rest diagnostic,
      render rest diagnostic "Hello world!" {[ "self" := "me" ]}
      = inl EngineError.
Proof.
  split_and!; [by vm_compute| |by vm_compute|]; intros; by vm_compute.
Qed.

(** C8 (amended).  For every content in which no opening delimiter
    ([{{], [{%] or [{#]) occurs, detection answers false, and for every
    mapping without a variable named [self] rendering returns the content
    with its line breaks rewritten to line feeds; the content itself when
    it has no carriage return. *)
Theorem render_identity_without_openers rest diagnostic content variables :
  opener_free content = true →
  variables !! "self" = None →
  TemplateEngine.is_template content = false
  ∧ render rest diagnostic content variables = inr (normalized content)
  ∧ (Jinja.CR ∉ list_ascii_of_string content →
     render rest diagnostic content variables = inr content).
Proof.
  unfold opener_free. intros Hfree%negb_true_iff Hself.
  assert (render rest diagnostic content variables = inr (normalized content))
    as Hrender.
  { unfold render, Jinja.from_string_render, Jinja.parse.
    rewrite lex_opener_free
      by (by eapply normalize_keeps_opener_free).
    rewrite app_nil_r, add_data_reverse, Hself. unfold normalized.
    destruct (Jinja.normalize_newlines _) as [|c l]; [done|].
    cbn [Jinja.render_body]. by rewrite string_app_nil_r. }
  split_and!; [|done|].
  - unfold TemplateEngine.is_template.
    destruct (Re.search _ _) eqn:Hs; [|done].
    apply search_marker_has_opener in Hs. congruence.
  - intros Hcr. rewrite Hrender. unfold normalized.
    by rewrite normalize_without_CR, string_of_list_ascii_of_string.
Qed.

Lemma render_identity_without_openers_witness :
  opener_free "Hello world!" = true
  ∧ render (λ _ _, inl Jinja.OtherError) (λ _, "") "Hello world!" ∅
    = inr "Hello world!".
Proof.
  split; [reflexivity|].
  apply (render_identity_without_openers _ _ "Hello world!" ∅);
    [reflexivity|reflexivity|].
  apply (bool_decide_unpack _). by vm_compute.
Defined.

(** ** Version ledger *)

Section Ledger.
Import PromptRepository.
Local Open Scope Z_scope.

Lemma ledger_ok_highest st p : ledger_ok st p → version_is_highest st p.
Proof.
  intros [Hpos Hseq]. split.
  - assert (Prompt.version p ∈ seqZ 1 (Prompt.version p)) as Hin
      by (apply elem_of_seqZ; lia).
    rewrite <-Hseq in Hin.
    apply list_elem_of_fmap in Hin as (v & ? & ?). eauto.
  - intros v Hv.
    assert (PromptVersion.version v ∈ seqZ 1 (Prompt.version p)) as Hin
      by (rewrite <-Hseq; by apply list_elem_of_fmap_2).
    apply elem_of_seqZ in Hin. lia.
Qed.

Lemma seqZ_succ (n : Z) :
  0 ≤ n → seqZ 1 (n + 1) = (seqZ 1 n ++ [n + 1])%list.
Proof.
  intros Hn. rewrite seqZ_app by lia. f_equal.
  rewrite seqZ_cons by lia. rewrite seqZ_nil by lia. f_equal. lia.
Qed.

(** *** Rows written by [update] *)

Lemma touch_updated_at now old new :
  ∃ t, touch now old new = Prompt.set_updated_at t new.
Proof.
  unfold touch. case_decide as Heq; [|eauto].
  exists (Prompt.updated_at old). subst. by destruct old.
Qed.

Lemma write_ids new rows :
  Prompt.id <$> write new rows = Prompt.id <$> rows.
Proof.
  unfold write. rewrite <-list_fmap_compose. apply list_fmap_ext.
  intros i p _. simpl. by case_decide.
Qed.

Lemma elem_of_write new rows q :
  q ∈ write new rows ↔
  (q = new ∧ ∃ p, p ∈ rows ∧ Prompt.id p = Prompt.id new)
  ∨ (q ∈ rows ∧ Prompt.id q ≠ Prompt.id new).
Proof.
  unfold write. rewrite list_elem_of_fmap. split.
  - intros (p & -> & Hp). case_decide; eauto.
  - intros [[-> (p & Hp & Hid)]|[Hq Hid]].
    + exists p. by rewrite decide_True.
    + exists q. by rewrite decide_False.
Qed.

Lemma NoDup_fmap_eq {A B} (f : A → B) (l : list A) x y :
  NoDup (f <$> l) → x ∈ l → y ∈ l → f x = f y → x = y.
Proof.
  intros Hnd Hx Hy Hf.
  apply list_elem_of_lookup in Hx as [i Hi].
  apply list_elem_of_lookup in Hy as [j Hj].
  assert (i = j) as ->.
  { eapply NoDup_lookup; [done|..];
      rewrite list_lookup_fmap; [by rewrite Hi|by rewrite Hj, Hf]. }
  congruence.
Qed.

Lemma write_slugs new rows p :
  NoDup (Prompt.id <$> rows) → p ∈ rows →
  Prompt.id new = Prompt.id p → Prompt.slug new = Prompt.slug p →
  Prompt.slug <$> write new rows = Prompt.slug <$> rows.
Proof.
  intros Hnd Hp Hid Hslug. unfold write.
  rewrite <-list_fmap_compose. apply list_fmap_ext.
  intros i q Hq. simpl. case_decide as Hq'; [|done].
  rewrite Hslug. f_equal. symmetry.
  eapply (NoDup_fmap_eq Prompt.id); [done| |done|congruence].
  by eapply list_elem_of_lookup_2.
Qed.

Lemma write_same rows p :
  NoDup (Prompt.id <$> rows) → p ∈ rows → write p rows = rows.
Proof.
  intros Hnd Hp. unfold write. rewrite <-(list_fmap_id rows) at 2.
  apply list_fmap_ext. intros i q Hq. simpl. case_decide as Hq'; [|done].
  eapply (NoDup_fmap_eq Prompt.id); [done..| |congruence].
  by eapply list_elem_of_lookup_2.
Qed.

Lemma get_by_slug_write st vs new p slug :
  get_by_slug st slug = Some p →
  Prompt.id new = Prompt.id p → Prompt.slug new = slug →
  get_by_slug {| prompts := write new (prompts st); versions := vs |} slug
  = Some new.
Proof.
  unfold get_by_slug. simpl. intros Hfind Hid Hslug.
  induction (prompts st) as [|q rows IH]; [done|].
  csimpl in *. revert Hfind. case_decide as Hq; simpl.
  - intros [= ->]. rewrite (decide_True (P := Prompt.id p = _)) by done.
    by rewrite decide_True.
  - intros Hfind. destruct (decide (Prompt.id q = Prompt.id new)).
    + by rewrite decide_True.
    + rewrite decide_False by done.
      destruct (list_find _ rows) as [[i x]|] eqn:Hrows; [|done].
      simpl in *. specialize (IH Hfind).
      by destruct (list_find _ (write new rows)) as [[j y]|];
        simplify_eq/=.
Qed.

End Ledger.

Section Update.
Import PromptRepository.
Local Open Scope Z_scope.

Lemma assign_None data p : assign data p = None ↔ nulls_required data.
Proof.
  unfold assign, nulls_required, set_required.
  destruct (PromptUpdate.title data) as [|[?|]],
    (PromptUpdate.content data) as [|[?|]],
    (PromptUpdate.is_template data) as [|[?|]]; simpl;
    (split; [try done; auto|intros [?|[?|?]]; done]).
Qed.

Lemma assign_Some data p a :
  assign data p = Some a →
  fields_assigned data p a
  ∧ Prompt.version a
    = (if content_changed data p
       then Prompt.version p + 1 else Prompt.version p)
  ∧ Prompt.updated_at a = Prompt.updated_at p.
Proof.
  unfold assign, fields_assigned. intros Ha.
  destruct (set_required (PromptUpdate.title data) _) as [t|]; [|done].
  destruct (set_required (PromptUpdate.content data) _) as [c|]; [|done].
  destruct (set_required (PromptUpdate.is_template data) _) as [b|];
    [|done].
  simpl in Ha. injection Ha as <-. by split_and!.
Qed.

Lemma touch_fields data now p a :
  fields_assigned data p a → fields_assigned data p (touch now p a).
Proof.
  destruct (touch_updated_at now p a) as [t ->]. by destruct a.
Qed.

Lemma touch_version now p a :
  Prompt.version (touch now p a) = Prompt.version a.
Proof. destruct (touch_updated_at now p a) as [t ->]. by destruct a. Qed.

Lemma content_changed_true data p :
  content_changed data p = true ↔
  ∃ v, PromptUpdate.content data = Given v ∧ v ≠ Some (Prompt.content p).
Proof.
  unfold content_changed. destruct (PromptUpdate.content data) as [|v].
  - split; [done|]. by intros (? & ? & ?).
  - rewrite bool_decide_eq_true. split; [eauto|]. by intros (? & [= <-] & ?).
Qed.

Lemma update_cases now vid slug data st :
  update_outcome now vid slug data st
    (update now vid slug data st).1 (update now vid slug data st).2.
Proof.
  unfold update.
  destruct (get_by_slug st slug) as [p|] eqn:Hp; [|by constructor].
  destruct (assign data p) as [a|] eqn:Ha; simpl.
  - apply assign_Some in Ha as (Hfields & Hver & Hupd).
    pose proof (touch_fields data now p a Hfields) as Hfields'.
    pose proof (touch_version now p a) as Hver'.
    destruct (content_changed data p) eqn:Hch.
    + case_decide as Hvid; simpl.
      * unfold version_insertable in Hvid. simpl in Hvid.
        pose proof Hfields' as (Hid & _ & _ & Hc & _).
        rewrite Hid, Hver', Hver.
        eapply update_content; try done; [lia|].
        apply content_changed_true in Hch as (v & Hv & Hne).
        rewrite Hv in Hc |- *. destruct v as [c|]; [|done].
        simpl in Hc. by injection Hc as ->.
      * eapply update_rejected; [done|]. right. split; [done|].
        unfold version_insertable in Hvid. simpl in Hvid.
        by apply dec_stable in Hvid.
    + eapply update_fields; try done; [lia|].
      unfold touch. case_decide as Hne; [by left|right].
      split; [|by destruct a]. intros Heq. apply Hne.
      transitivity (Prompt.set_updated_at (Prompt.updated_at p)
                      (Prompt.set_updated_at now a)).
      * rewrite <-Hupd. by destruct a.
      * rewrite Heq. by destruct p.
  - eapply update_rejected; [done|]. left. by eapply assign_None.
Qed.

End Update.

Section Invariant.
Import PromptRepository.
Local Open Scope Z_scope.

Lemma versions_of_snoc ps vs v pid :
  versions_of {| prompts := ps; versions := (vs ++ [v])%list |} pid
  = (versions_of {| prompts := ps; versions := vs |} pid
     ++ if decide (PromptVersion.prompt_id v = pid) then [v] else [])%list.
Proof.
  unfold versions_of. simpl. by rewrite filter_app.
Qed.

Lemma versions_of_prompts ps ps' vs pid :
  versions_of {| prompts := ps; versions := vs |} pid
  = versions_of {| prompts := ps'; versions := vs |} pid.
Proof. done. Qed.

Lemma store_ok_update_fields st p new :
  store_ok st → p ∈ prompts st →
  Prompt.id new = Prompt.id p → Prompt.slug new = Prompt.slug p →
  Prompt.version new = Prompt.version p →
  store_ok {| prompts := write new (prompts st); versions := versions st |}.
Proof.
  intros [Hids Hslugs Howned Hledgers] Hp Hid Hslug Hver.
  split; simpl.
  - by rewrite write_ids.
  - unfold slugs. simpl. by erewrite write_slugs.
  - intros v Hv. rewrite write_ids. by apply Howned.
  - intros q [[-> _]|[Hq Hne]]%elem_of_write.
    + destruct (Hledgers p Hp) as [Hpos Hseq]. split; [lia|].
      rewrite Hver, Hid. exact Hseq.
    + exact (Hledgers q Hq).
Qed.

Lemma store_ok_update_content st p new v :
  store_ok st → p ∈ prompts st →
  Prompt.id new = Prompt.id p → Prompt.slug new = Prompt.slug p →
  Prompt.version new = Prompt.version p + 1 →
  PromptVersion.prompt_id v = Prompt.id p →
  PromptVersion.version v = Prompt.version p + 1 →
  store_ok {| prompts := write new (prompts st);
              versions := (versions st ++ [v])%list |}.
Proof.
  intros [Hids Hslugs Howned Hledgers] Hp Hid Hslug Hver Hvp Hvv.
  split; simpl.
  - by rewrite write_ids.
  - unfold slugs. simpl. by erewrite write_slugs.
  - intros w [Hw| ->%list_elem_of_singleton]%elem_of_app;
      rewrite write_ids; [by apply Howned|].
    rewrite Hvp. by apply list_elem_of_fmap_2.
  - intros q Hq. unfold ledger_ok. rewrite versions_of_snoc.
    apply elem_of_write in Hq as [[-> _]|[Hq Hne]].
    + destruct (Hledgers p Hp) as [Hpos Hseq]. split; [lia|].
      rewrite decide_True by congruence.
      rewrite fmap_app, Hid. unfold versions_of in *. simpl in *.
      rewrite Hseq, Hver, Hvv. by rewrite seqZ_succ by lia.
    + destruct (Hledgers q Hq) as [Hpos Hseq]. split; [done|].
      rewrite decide_False by congruence. by rewrite app_nil_r.
Qed.

Lemma store_ok_update now vid slug data st :
  store_ok st → store_ok (update now vid slug data st).1.
Proof.
  intros Hok. destruct (update_cases now vid slug data st)
    as [?|p ? ?|p new Hp ? Hf ? ?|p new Hp ? ? Hf ? ?]; try done.
  - apply get_by_slug_Some in Hp as [Hp _].
    destruct Hf as (? & ? & _). by eapply store_ok_update_fields.
  - apply get_by_slug_Some in Hp as [Hp _].
    destruct Hf as (? & ? & _). by eapply store_ok_update_content.
Qed.

(** Every stored prompt is still stored after [update], under the same
    key, with its version unchanged or increased by one. *)
Lemma update_version_step now vid slug data st p :
  store_ok st → p ∈ prompts st →
  ∃ p', p' ∈ prompts (update now vid slug data st).1
        ∧ Prompt.id p' = Prompt.id p
        ∧ (Prompt.version p' = Prompt.version p
           ∨ Prompt.version p' = Prompt.version p + 1).
Proof.
  intros Hok Hp. destruct (update_cases now vid slug data st)
    as [?|q ? ?|q new Hq ? Hf Hv ?|q new Hq ? ? Hf Hv ?]; simpl;
    [by eauto..| |].
  all: destruct Hf as (Hid & _); apply get_by_slug_Some in Hq as [Hq _].
  all: destruct (decide (Prompt.id p = Prompt.id new)) as [Heq|Hne];
    [|exists p; split_and!; [apply elem_of_write; by right|done|by left]].
  all: assert (p = q) as ->
    by (eapply (NoDup_fmap_eq Prompt.id);
        [apply (ids_unique _ Hok)|done..|congruence]).
  all: exists new; split_and!; [apply elem_of_write; left; eauto|done|].
  - by left.
  - by right.
Qed.

End Invariant.

Section Creation.
Import PromptRepository.
Local Open Scope Z_scope.
Variable slugify : string → string.

Lemma create_fresh st data now pid vid :
  store_ok st →
  pid ∉ (Prompt.id <$> prompts st) →
  vid ∉ (PromptVersion.id <$> versions st) →
  ∃ slug,
    (slug ∉ slugs st)
    ∧ (∀ fuel, (length (prompts st) < fuel)%nat →
         create slugify fuel now pid vid data st
         = Some ({| prompts :=
                      (prompts st ++ [created_prompt now pid slug data])%list;
                    versions :=
                      (versions st ++ [initial_version now pid vid data])%list
                 |},
                 inr (created_prompt now pid slug data)))
    ∧ store_ok
        {| prompts := (prompts st ++ [created_prompt now pid slug data])%list;
           versions :=
             (versions st ++ [initial_version now pid vid data])%list |}
    ∧ versions_of
        {| prompts := (prompts st ++ [created_prompt now pid slug data])%list;
           versions :=
             (versions st ++ [initial_version now pid vid data])%list |} pid
      = [initial_version now pid vid data].
Proof.
  intros Hok Hpid Hvid.
  assert (∃ slug, (slug ∉ slugs st)
            ∧ ∀ fuel, (length (prompts st) < fuel)%nat →
                resolve_slug fuel st (candidate slugify data) = Some slug)
    as (slug & Hfree & Hres).
  { destruct (resolve_slug_cases st (candidate slugify data))
      as [[? ?]|(_ & n & ? & _ & ?)]; eauto. }
  assert (versions_of st pid = []) as Hnone.
  { destruct (versions_of st pid) as [|v l] eqn:Hrows; [done|].
    assert (v ∈ versions_of st pid) as Hv by (rewrite Hrows; left).
    apply list_elem_of_filter in Hv as [Heq Hv].
    destruct Hpid. rewrite <-Heq. by apply (versions_owned _ Hok). }
  exists slug. split_and!; [done| | |].
  - intros fuel Hfuel. unfold create. rewrite (Hres fuel Hfuel). simpl.
    by rewrite decide_True.
  - destruct Hok as [Hids Hslugs Howned Hledgers]. split; simpl.
    + rewrite fmap_app. apply NoDup_app. split_and!; [done| |].
      * intros x Hx [->|[]%elem_of_nil]%elem_of_cons. done.
      * apply NoDup_singleton.
    + unfold slugs. simpl. rewrite fmap_app. apply NoDup_app.
      split_and!; [done| |apply NoDup_singleton].
      intros x Hx [->|[]%elem_of_nil]%elem_of_cons. done.
    + intros v [Hv| ->%list_elem_of_singleton]%elem_of_app;
        rewrite fmap_app, elem_of_app; [left; by apply Howned|].
      right. simpl. apply list_elem_of_singleton. done.
    + intros q Hq. unfold ledger_ok. rewrite versions_of_snoc. simpl.
      apply elem_of_app in Hq as [Hq| ->%list_elem_of_singleton].
      * rewrite decide_False, app_nil_r.
        -- exact (Hledgers q Hq).
        -- intros Heq. apply Hpid. rewrite Heq.
           by apply list_elem_of_fmap_2.
      * simpl. rewrite decide_True by done. split; [done|].
        rewrite fmap_app.
        rewrite (versions_of_prompts _ (prompts st)).
        replace {| prompts := prompts st; versions := versions st |}
          with st by (by destruct st).
        by rewrite Hnone.
  - rewrite versions_of_snoc. simpl. rewrite decide_True by done.
    rewrite (versions_of_prompts _ (prompts st)).
    replace {| prompts := prompts st; versions := versions st |}
      with st by (by destruct st).
    by rewrite Hnone.
Qed.

End Creation.

(** *** Updates of a stored prompt *)

Lemma example_store_ok : store_ok example_store.
Proof.
  split; simpl.
  - apply NoDup_singleton.
  - apply NoDup_singleton.
  - intros v ->%list_elem_of_singleton. by apply list_elem_of_singleton.
  - intros p ->%list_elem_of_singleton. by split.
Qed.

(** C1, as stated, fails on a payload whose [content] is null: the key is
    present and its value differs from the stored content, but no version
    row is written and the version is not incremented; nor is the title of
    the same payload persisted.  The commit is rejected and the store is
    unchanged. *)
Lemma update_null_content_rejected :
  PromptRepository.content_changed null_content_payload example_prompt = true
  ∧ PromptRepository.update 5%Z "v-2" "test-prompt" null_content_payload
      example_store
    = (example_store, inl IntegrityError).
Proof. split; by vm_compute. Qed.

(** C1 (amended).  A payload that sets [title], [content] or [is_template]
    to null is rejected and changes nothing.  For every other payload the
    update of a stored prompt succeeds and persists the supplied fields;
    it increments [version] by exactly one and appends exactly one version
    row, carrying the new number, the new content and the request's
    change note, if and only if the payload has a [content] key whose
    value differs from the stored content; otherwise [version] and the
    version rows are unchanged. *)
Theorem update_versions_iff_content_differs
    (st : Store) (slug : string) (prompt : Prompt.t)
    (data : PromptUpdate.t) (now : datetime) (vid : string) :
  PromptRepository.get_by_slug st slug = Some prompt →
  vid ∉ (PromptVersion.id <$> versions st) →
  let out := PromptRepository.update now vid slug data st in
  (nulls_required data → out = (st, inl IntegrityError))
  ∧ (¬ nulls_required data →
     ∃ new,
       out.2 = inr (Some new)
       ∧ PromptRepository.get_by_slug out.1 slug = Some new
       ∧ fields_assigned data prompt new
       ∧ if PromptRepository.content_changed data prompt
         then
           Prompt.version new = (Prompt.version prompt + 1)%Z
           ∧ PromptUpdate.content data = Given (Some (Prompt.content new))
           ∧ versions out.1
             = (versions st ++
                [PromptVersion.Build vid (Prompt.id prompt)
                   (Prompt.version prompt + 1) (Prompt.content new) now
                   (value (PromptUpdate.change_note data))])%list
         else
           Prompt.version new = Prompt.version prompt
           ∧ versions out.1 = versions st)
  ∧ (PromptRepository.content_changed data prompt = true ↔
     ∃ v, PromptUpdate.content data = Given v
          ∧ v ≠ Some (Prompt.content prompt)).
Proof.
  intros Hp Hvid out. split_and!; [| |apply content_changed_true].
  - intros Hnull. unfold out, PromptRepository.update. rewrite Hp.
    apply (assign_None data prompt) in Hnull. by rewrite Hnull.
  - intros Hnull. unfold out.
    destruct (update_cases now vid slug data st)
      as [Hq|q Hq Hrej|q new Hq Hch Hf Hv _|q new Hq Hch _ Hf Hv Hc];
      rewrite Hp in Hq; simplify_eq.
    + destruct Hrej as [?|[_ ?]]; done.
    + exists new. rewrite Hch. split_and!; try done.
      destruct Hf as (? & ? & _).
      eapply get_by_slug_write; [done..|].
      by apply get_by_slug_Some in Hp as [_ <-].
    + exists new. rewrite Hch. split_and!; try done.
      destruct Hf as (? & ? & _).
      eapply get_by_slug_write; [done..|].
      by apply get_by_slug_Some in Hp as [_ <-].
Qed.

Lemma update_versions_iff_content_differs_witness :
  PromptRepository.get_by_slug example_store "test-prompt"
  = Some example_prompt
  ∧ ∃ new,
      (PromptRepository.update 5%Z "v-2" "test-prompt" content_payload
         example_store).2 = inr (Some new)
      ∧ Prompt.version new = 2%Z.
Proof.
  split; [reflexivity|].
  destruct (update_versions_iff_content_differs example_store "test-prompt"
              example_prompt content_payload 5%Z "v-2")
    as (_ & Hupdate & _).
  - reflexivity.
  - apply (bool_decide_unpack _). by vm_compute.
  - destruct Hupdate as (new & Hnew & _ & _ & Hchanged).
    + intros [H|[H|H]]; discriminate H.
    + exists new. split; [exact Hnew|].
      destruct Hchanged as [Hv _]. exact Hv.
Defined.

(** C2.  In a consistent store the [version] of every prompt is the
    highest version number among its version rows, which are numbered
    [1..version] without a gap.  Creation (which ends, once the slug loop
    has fuel beyond the number of stored prompts) writes version 1 and one
    row with version 1, the full content and the note [Initial version],
    and keeps the store consistent.  Every update keeps the store
    consistent and leaves the version of every prompt unchanged or
    increased by exactly one. *)
Theorem version_is_highest_ledger_entry
    (slugify : string → string) (st : Store) :
  store_ok st →
  (∀ p, p ∈ prompts st → version_is_highest st p ∧ ledger_ok st p)
  ∧ (∀ now pid vid data,
       pid ∉ (Prompt.id <$> prompts st) →
       vid ∉ (PromptVersion.id <$> versions st) →
       ∃ p st',
         (∀ fuel, (length (prompts st) < fuel)%nat →
            PromptRepository.create slugify fuel now pid vid data st
            = Some (st', inr p))
         ∧ Prompt.version p = 1%Z
         ∧ PromptRepository.versions_of st' (Prompt.id p)
           = [PromptVersion.Build vid (Prompt.id p) 1
                (PromptCreate.content data) now (Some "Initial version")]
         ∧ store_ok st'
         ∧ ∀ q, q ∈ prompts st' → version_is_highest st' q)
  ∧ (∀ now vid slug data,
       let st' := (PromptRepository.update now vid slug data st).1 in
       store_ok st'
       ∧ (∀ q, q ∈ prompts st' → version_is_highest st' q)
       ∧ ∀ p, p ∈ prompts st →
           ∃ p', p' ∈ prompts st' ∧ Prompt.id p' = Prompt.id p
                 ∧ (Prompt.version p' = Prompt.version p
                    ∨ Prompt.version p' = (Prompt.version p + 1)%Z)).
Proof.
  intros Hok. split_and!.
  - intros p Hp. pose proof (ledgers_ok _ Hok p Hp).
    split; [by apply ledger_ok_highest|done].
  - intros now pid vid data Hpid Hvid.
    destruct (create_fresh slugify st data now pid vid Hok Hpid Hvid)
      as (slug & _ & Hcreate & Hok' & Hrows).
    eexists _, _. split_and!; [exact Hcreate|done|exact Hrows|exact Hok'|].
    intros q Hq. apply ledger_ok_highest, (ledgers_ok _ Hok' q Hq).
  - intros now vid slug data st'.
    pose proof (store_ok_update now vid slug data st Hok) as Hok'.
    split_and!; [done| |].
    + intros q Hq. apply ledger_ok_highest, (ledgers_ok _ Hok' q Hq).
    + intros p Hp. by apply update_version_step.
Qed.

Lemma version_is_highest_ledger_entry_witness :
  store_ok example_store
  ∧ version_is_highest example_store example_prompt
  ∧ store_ok
      (PromptRepository.update 5%Z "v-2" "test-prompt" content_payload
         example_store).1.
Proof.
  pose proof (version_is_highest_ledger_entry (λ title, title) example_store
                example_store_ok) as (Hhighest & _ & Hupdate).
  split_and!.
  - exact example_store_ok.
  - apply Hhighest. by apply list_elem_of_singleton.
  - apply (Hupdate 5%Z "v-2" "test-prompt" content_payload).
Defined.

(** *** Restoring a version *)

(** C3, as stated, fails when the target version holds the current
    content: restoring the example prompt to its version 1 writes nothing,
    neither a version 2 nor a note. *)
Lemma restore_current_content_writes_nothing :
  PromptRepository.get_version example_store "test-prompt" 1
  = Some example_version
  ∧ PromptService.restore_version 5%Z "v-2" "test-prompt" 1 example_store
    = (example_store, inr (Some example_prompt)).
Proof. split; by vm_compute. Qed.

(** C3 (amended).  Restoring is the update of [repository.py] with the
    content of the target row and the note [Restored from version N].
    When that content differs from the current one, the prompt gets
    version [V+1] and one row is appended with that number, the restored
    content and the note, every earlier row being kept as it is; when the
    target row holds the current content, nothing is written. *)
Theorem restore_appends_version
    (st : Store) (slug : string) (prompt : Prompt.t) (target : Z)
    (record : PromptVersion.t) (now : datetime) (vid : string) :
  store_ok st →
  PromptRepository.get_by_slug st slug = Some prompt →
  PromptRepository.get_version st slug target = Some record →
  vid ∉ (PromptVersion.id <$> versions st) →
  let out := PromptService.restore_version now vid slug target st in
  out
  = PromptRepository.update now vid slug
      (PromptService.restore_payload (PromptVersion.content record) target) st
  ∧ (PromptVersion.content record ≠ Prompt.content prompt →
     ∃ new,
       out.2 = inr (Some new)
       ∧ PromptRepository.get_by_slug out.1 slug = Some new
       ∧ Prompt.version new = (Prompt.version prompt + 1)%Z
       ∧ Prompt.content new = PromptVersion.content record
       ∧ versions out.1
         = (versions st ++
            [PromptVersion.Build vid (Prompt.id prompt)
               (Prompt.version prompt + 1) (PromptVersion.content record) now
               (Some ("Restored from version " ++ pretty target)%string)])%list)
  ∧ (PromptVersion.content record = Prompt.content prompt →
     out = (st, inr (Some prompt))).
Proof.
  intros Hok Hp Hrecord Hvid out.
  assert (out = PromptRepository.update now vid slug
            (PromptService.restore_payload (PromptVersion.content record)
               target) st) as Hout.
  { unfold out, PromptService.restore_version. by rewrite Hrecord. }
  split_and!; [done| |].
  - intros Hne. rewrite Hout.
    destruct (update_cases now vid slug
                (PromptService.restore_payload
                   (PromptVersion.content record) target) st)
      as [Hq|q Hq Hrej|q new Hq Hch _ _ _|q new Hq Hch _ Hf Hv Hc];
      rewrite Hp in Hq; simplify_eq.
    + destruct Hrej as [[H|[H|H]]|[_ ?]]; done.
    + unfold PromptRepository.content_changed in Hch. simpl in Hch.
      apply bool_decide_eq_false in Hch. destruct Hch. congruence.
    + simpl in Hc. injection Hc as Hc. exists new. rewrite Hc.
      split_and!; try done.
      destruct Hf as (? & ? & _).
      eapply get_by_slug_write; [done..|].
      by apply get_by_slug_Some in Hp as [_ <-].
  - intros Heq. rewrite Hout. unfold PromptRepository.update. rewrite Hp.
    assert (PromptRepository.content_changed
              (PromptService.restore_payload
                 (PromptVersion.content record) target) prompt = false)
      as Hch.
    { unfold PromptRepository.content_changed. simpl.
      apply bool_decide_eq_false. intros H. apply H. by rewrite Heq. }
    assert (PromptRepository.assign
              (PromptService.restore_payload
                 (PromptVersion.content record) target) prompt = Some prompt)
      as Ha.
    { unfold PromptRepository.assign. rewrite Hch. simpl. rewrite Heq.
      by destruct prompt. }
    rewrite Ha, Hch. unfold PromptRepository.touch.
    rewrite decide_True by done.
    rewrite write_same;
      [by destruct st|apply (ids_unique _ Hok)|].
    by apply get_by_slug_Some in Hp as [? _].
Qed.

Lemma updated_store_ok : store_ok updated_store.
Proof.
  assert ((PromptRepository.update 5%Z "v-2" "test-prompt" content_payload
             example_store).1 = updated_store) as <- by (by vm_compute).
  apply store_ok_update, example_store_ok.
Qed.

Lemma restore_appends_version_witness :
  store_ok updated_store
  ∧ ∃ new,
      (PromptService.restore_version 9%Z "v-3" "test-prompt" 1
         updated_store).2 = inr (Some new)
      ∧ Prompt.version new = 3%Z
      ∧ Prompt.content new = "This is a test prompt".
Proof.
  split; [exact updated_store_ok|].
  destruct (restore_appends_version updated_store "test-prompt"
              updated_prompt 1%Z example_version 9%Z "v-3"
              updated_store_ok eq_refl eq_refl)
    as (_ & Hrestore & _).
  - apply (bool_decide_unpack _). by vm_compute.
  - destruct Hrestore as (new & Hnew & _ & Hversion & Hcontent & _).
    + discriminate.
    + exists new. split_and!; [exact Hnew|exact Hversion|exact Hcontent].
Defined.

(** ** Usage statistics and rendering *)

Lemma render_prompt_after_increment
    (rest : string → gmap string string → Jinja.error + string)
    (diagnostic : string → string)
    (st : Store) (slug : string) (prompt : Prompt.t) (now : datetime)
    (variables : gmap string string) :
  PromptRepository.get_by_slug st slug = Some prompt →
  PromptService.render_prompt rest diagnostic now slug variables st
  = ((PromptRepository.increment_usage now slug st).1,
     match render rest diagnostic (Prompt.content prompt) variables with
     | inr rendered => inr (Some (rendered, variables))
     | inl e => inl e
     end).
Proof.
  intros Hp. unfold PromptService.render_prompt, bind,
    PromptService.get_prompt, PromptRepository.increment_usage.
  rewrite Hp. simpl.
  by destruct (render rest diagnostic (Prompt.content prompt) variables).
Qed.

(** C10.  For every stored prompt, [render_prompt] first counts the use:
    in the resulting store the prompt has [usage_count] increased by
    exactly one and [last_used_at] set to the current time, whatever the
    outcome of the rendering that follows; when rendering raises, the
    exception leaves [render_prompt] with the statistics already
    stored. *)
Theorem render_prompt_counts_usage_first
    (rest : string → gmap string string → Jinja.error + string)
    (diagnostic : string → string)
    (st : Store) (slug : string) (prompt : Prompt.t) (now : datetime)
    (variables : gmap string string) :
  PromptRepository.get_by_slug st slug = Some prompt →
  let out :=
    PromptService.render_prompt rest diagnostic now slug variables st in
  ∃ new,
    PromptRepository.get_by_slug out.1 slug = Some new
    ∧ Prompt.usage_count new = (Prompt.usage_count prompt + 1)%Z
    ∧ Prompt.last_used_at new = Some now
    ∧ Prompt.content new = Prompt.content prompt
    ∧ versions out.1 = versions st
    ∧ out.2
      = match render rest diagnostic (Prompt.content prompt) variables with
        | inr rendered => inr (Some (rendered, variables))
        | inl e => inl e
        end.
Proof.
  intros Hp out. unfold out.
  rewrite (render_prompt_after_increment _ _ _ _ _ _ _ Hp). simpl.
  unfold PromptRepository.increment_usage. rewrite Hp. simpl.
  eexists. split.
  - eapply get_by_slug_write; [exact Hp|done|].
    by apply get_by_slug_Some in Hp as [_ <-].
  - by split_and!.
Qed.

Lemma render_prompt_counts_usage_first_witness :
  PromptRepository.get_by_slug template_store "test-template"
  = Some example_template
  ∧ ∃ new,
      PromptRepository.get_by_slug
        (PromptService.render_prompt (λ _ _, inl Jinja.OtherError) (λ _, "")
           7%Z "test-template" ∅ template_store).1 "test-template"
      = Some new
      ∧ Prompt.usage_count new = 1%Z
      ∧ (PromptService.render_prompt (λ _ _, inl Jinja.OtherError) (λ _, "")
           7%Z "test-template" ∅ template_store).2
        = inl (TemplateRenderError "Missing variable: 'name' is undefined").
Proof.
  split; [reflexivity|].
  destruct (render_prompt_counts_usage_first
              (λ _ _, inl Jinja.OtherError) (λ _, "") template_store
              "test-template" example_template 7%Z ∅ eq_refl)
    as (new & Hnew & Hcount & _ & _ & _ & Hout).
  exists new. split_and!; [exact Hnew|exact Hcount|].
  rewrite Hout. by vm_compute.
Defined.

(** ** Template detection in the create and update flows *)


Lemma default_vars_lookup (variables : list string) (name : string) :
  PromptService.default_vars variables !! name
  = if decide (name ∈ variables)
    then Some PromptService.string_required else None.
Proof.
  unfold PromptService.default_vars.
  induction variables as [|var variables IH]; csimpl.
  - by rewrite lookup_empty.
  - rewrite lookup_insert, IH.
    destruct (decide (var = name)) as [->|Hvar].
    + rewrite decide_True; [done|left].
    + destruct (decide (name ∈ variables)) as [Hin|Hout].
      * rewrite decide_True; [done|by right].
      * rewrite decide_False; [done|].
        intros [?|?]%elem_of_cons; congruence.
Qed.


(** * Further properties of the repository, the service and the API *)

(** ** Lookups, deletion and history *)

Section Lookup.
Import PromptRepository.
Local Open Scope Z_scope.

Lemma list_find_unique {A} (P : A → Prop) `{∀ x, Decision (P x)} (l : list A) x :
  x ∈ l → P x → (∀ y, y ∈ l → P y → y = x) → snd <$> list_find P l = Some x.
Proof.
  intros Hx HP Huniq.
  destruct (list_find P l) as [[i y]|] eqn:Hf; simpl.
  - apply list_find_Some in Hf as (Hi & Hy & _).
    f_equal. apply Huniq; [by eapply list_elem_of_lookup_2|done].
  - apply list_find_None in Hf. rewrite Forall_forall in Hf.
    by destruct (Hf x Hx).
Qed.

Lemma get_by_slug_unique st p :
  NoDup (slugs st) → p ∈ prompts st →
  get_by_slug st (Prompt.slug p) = Some p.
Proof.
  intros Hnd Hp. unfold get_by_slug. apply list_find_unique; [done..|].
  intros q Hq Hs. by eapply (NoDup_fmap_eq Prompt.slug).
Qed.

Lemma get_by_slug_stored st p :
  store_ok st → p ∈ prompts st → get_by_slug st (Prompt.slug p) = Some p.
Proof. intros Hok. apply get_by_slug_unique, (slugs_unique _ Hok). Qed.

(** Writing the row of [p] leaves the lookup of every other slug as it
    was. *)
Lemma get_by_slug_write_other st vs new p slug :
  store_ok st → p ∈ prompts st →
  Prompt.id new = Prompt.id p → Prompt.slug new = Prompt.slug p →
  slug ≠ Prompt.slug p →
  get_by_slug {| prompts := write new (prompts st); versions := vs |} slug
  = get_by_slug st slug.
Proof.
  intros Hok Hp Hid Hslug Hne.
  pose proof (write_slugs new (prompts st) p (ids_unique _ Hok) Hp Hid Hslug)
    as Hslugs.
  destruct (get_by_slug st slug) as [q|] eqn:Hq.
  - apply get_by_slug_Some in Hq as [Hq <-].
    apply get_by_slug_unique.
    + unfold slugs. simpl. rewrite Hslugs. apply (slugs_unique _ Hok).
    + simpl. apply elem_of_write. right. split; [done|].
      intros Heq. apply Hne. f_equal.
      eapply (NoDup_fmap_eq Prompt.id);
        [apply (ids_unique _ Hok)|done..|congruence].
  - apply get_by_slug_None. apply get_by_slug_None in Hq.
    unfold slugs in *. simpl. by rewrite Hslugs.
Qed.

Lemma get_by_id_stored st p :
  store_ok st → p ∈ prompts st → get_by_id st (Prompt.id p) = Some p.
Proof.
  intros Hok Hp. unfold get_by_id. apply list_find_unique; [done..|].
  intros q Hq Hs. eapply (NoDup_fmap_eq Prompt.id); eauto.
  apply (ids_unique _ Hok).
Qed.

Lemma get_by_id_Some st pid p :
  get_by_id st pid = Some p → p ∈ prompts st ∧ Prompt.id p = pid.
Proof.
  unfold get_by_id. intros ([i q] & Hf & ->)%fmap_Some.
  apply list_find_Some in Hf as (Hi & ? & _).
  split; [by eapply list_elem_of_lookup_2|done].
Qed.

End Lookup.

(** X3.  In a consistent store the two lookups of the repository agree:
    [get_by_slug] returns exactly the stored prompt with that slug and
    [get_by_id] exactly the stored prompt with that key, so the prompt
    found under a slug is the one found under its own key, and
    conversely. *)
Theorem lookups_agree (st : Store) :
  store_ok st →
  (∀ slug p, PromptRepository.get_by_slug st slug = Some p
             ↔ p ∈ prompts st ∧ Prompt.slug p = slug)
  ∧ (∀ pid p, PromptRepository.get_by_id st pid = Some p
              ↔ p ∈ prompts st ∧ Prompt.id p = pid)
  ∧ (∀ slug p, PromptRepository.get_by_slug st slug = Some p →
               PromptRepository.get_by_id st (Prompt.id p) = Some p)
  ∧ (∀ pid p, PromptRepository.get_by_id st pid = Some p →
              PromptRepository.get_by_slug st (Prompt.slug p) = Some p).
Proof.
  intros Hok. split_and!.
  - intros slug p. split; [apply get_by_slug_Some|].
    intros [Hp <-]. by apply get_by_slug_stored.
  - intros pid p. split; [apply get_by_id_Some|].
    intros [Hp <-]. by apply get_by_id_stored.
  - intros slug p [Hp _]%get_by_slug_Some. by apply get_by_id_stored.
  - intros pid p [Hp _]%get_by_id_Some. by apply get_by_slug_stored.
Qed.

Lemma lookups_agree_witness :
  store_ok example_store
  ∧ PromptRepository.get_by_id example_store "id-1" = Some example_prompt.
Proof.
  destruct (lookups_agree example_store example_store_ok)
    as (_ & _ & Hid & _).
  split; [exact example_store_ok|].
  apply (Hid "test-prompt" example_prompt eq_refl).
Defined.

Section Removal.
Import PromptRepository.
Local Open Scope Z_scope.

Lemma delete_cases slug st :
  (get_by_slug st slug = None ∧ delete slug st = (st, inr false))
  ∨ (∃ p, get_by_slug st slug = Some p
          ∧ delete slug st
            = ({| prompts :=
                    filter (λ q, Prompt.id q ≠ Prompt.id p) (prompts st);
                  versions :=
                    filter (λ v, PromptVersion.prompt_id v ≠ Prompt.id p)
                      (versions st) |}, inr true)).
Proof.
  unfold delete. destruct (get_by_slug st slug) as [p|]; [right|left]; eauto.
Qed.

Lemma versions_of_removed st pid pid' :
  versions_of
    {| prompts := filter (λ q, Prompt.id q ≠ pid) (prompts st);
       versions := filter (λ v, PromptVersion.prompt_id v ≠ pid)
                     (versions st) |} pid'
  = if decide (pid' = pid) then [] else versions_of st pid'.
Proof.
  unfold versions_of. simpl. rewrite list_filter_filter.
  case_decide as Heq.
  - subst. induction (versions st) as [|v vs IH]; [done|].
    rewrite filter_cons. case_decide as Hv; [by destruct Hv|done].
  - apply list_filter_iff. intros v. split; [by intros [? _]|].
    intros Hv. split; [done|congruence].
Qed.

Lemma store_ok_removed st pid :
  store_ok st →
  store_ok
    {| prompts := filter (λ q, Prompt.id q ≠ pid) (prompts st);
       versions := filter (λ v, PromptVersion.prompt_id v ≠ pid)
                     (versions st) |}.
Proof.
  intros [Hids Hslugs Howned Hledgers]. split; simpl.
  - eapply sublist_NoDup; [exact Hids|]. apply fmap_sublist, sublist_filter.
  - eapply sublist_NoDup; [exact Hslugs|].
    unfold slugs. simpl. apply fmap_sublist, sublist_filter.
  - intros v [Hne Hv]%list_elem_of_filter.
    apply Howned, list_elem_of_fmap in Hv as (q & Hq & Hin).
    apply list_elem_of_fmap. exists q. split; [done|].
    apply list_elem_of_filter. split; [congruence|done].
  - intros q [Hne Hq]%list_elem_of_filter. unfold ledger_ok.
    rewrite versions_of_removed, decide_False by done.
    exact (Hledgers q Hq).
Qed.

Lemma get_by_slug_removed st p slug :
  store_ok st → p ∈ prompts st → slug ≠ Prompt.slug p →
  get_by_slug
    {| prompts := filter (λ q, Prompt.id q ≠ Prompt.id p) (prompts st);
       versions := filter (λ v, PromptVersion.prompt_id v ≠ Prompt.id p)
                     (versions st) |} slug
  = get_by_slug st slug.
Proof.
  intros Hok Hp Hslug.
  destruct (get_by_slug st slug) as [q|] eqn:Hq.
  - apply get_by_slug_Some in Hq as [Hq <-].
    apply (get_by_slug_stored _ q (store_ok_removed st (Prompt.id p) Hok)).
    simpl. apply list_elem_of_filter. split; [|done].
    intros Heq. apply Hslug. f_equal.
    eapply (NoDup_fmap_eq Prompt.id); eauto. apply (ids_unique _ Hok).
  - apply get_by_slug_None in Hq. apply get_by_slug_None.
    intros Hin. apply Hq. unfold slugs in *. simpl in Hin.
    eapply elem_of_sublist; [exact Hin|]. apply fmap_sublist, sublist_filter.
Qed.

End Removal.

Section History.
Import PromptRepository.
Local Open Scope Z_scope.

Global Instance newer_trans : Transitive newer.
Proof. unfold newer. intros a b c ??. lia. Qed.

Global Instance newer_total : Total newer.
Proof. unfold newer. intros a b. lia. Qed.

(** Rows whose version numbers are consecutive come oldest first. *)
Lemma consecutive_oldest_first (l : list PromptVersion.t) :
  ∀ m n, PromptVersion.version <$> l = seqZ m n →
         StronglySorted (flip newer) l.
Proof.
  induction l as [|x l IH]; intros m n Hl; [constructor|].
  destruct (decide (0 < n)) as [Hn|Hn]; [|by rewrite seqZ_nil in Hl by lia].
  rewrite seqZ_cons in Hl by done. injection Hl as Hx Hl.
  constructor; [by eapply IH|].
  apply Forall_forall. intros y Hy. unfold flip, newer.
  assert (PromptVersion.version y ∈ seqZ (Z.succ m) (Z.pred n)) as Hin
    by (rewrite <-Hl; by apply list_elem_of_fmap_2).
  apply elem_of_seqZ in Hin. lia.
Qed.

Lemma get_versions_stored st slug p :
  store_ok st → get_by_slug st slug = Some p →
  get_versions st slug = reverse (versions_of st (Prompt.id p)).
Proof.
  intros Hok Hp. unfold get_versions. rewrite Hp.
  apply get_by_slug_Some in Hp as [Hp _].
  destruct (ledgers_ok _ Hok p Hp) as [_ Hseq].
  apply (Sorted_unique_strong newer).
  - intros x y Hx Hy Hxy Hyx.
    rewrite merge_sort_Permutation in Hx. rewrite elem_of_reverse in Hy.
    eapply (NoDup_fmap_eq PromptVersion.version); [|done..|].
    + rewrite Hseq. apply NoDup_seqZ.
    + unfold newer in *. lia.
  - apply (Sorted_merge_sort _).
  - apply (Sorted_reverse (flip newer)), StronglySorted_Sorted.
    by eapply consecutive_oldest_first.
  - by rewrite merge_sort_Permutation, reverse_Permutation.
Qed.

Lemma get_version_stored st slug p n :
  store_ok st → get_by_slug st slug = Some p →
  (∀ v, get_version st slug n = Some v ↔
        v ∈ versions_of st (Prompt.id p) ∧ PromptVersion.version v = n)
  ∧ (is_Some (get_version st slug n) ↔ 1 ≤ n ≤ Prompt.version p).
Proof.
  intros Hok Hp. unfold get_version. rewrite Hp. simpl.
  apply get_by_slug_Some in Hp as [Hp _].
  destruct (ledgers_ok _ Hok p Hp) as [Hpos Hseq].
  assert (∀ v, snd <$> list_find (λ v, PromptVersion.version v = n)
                 (versions_of st (Prompt.id p)) = Some v ↔
               v ∈ versions_of st (Prompt.id p) ∧ PromptVersion.version v = n)
    as Hfind.
  { intros v. split.
    - intros ([i w] & Hf & ->)%fmap_Some.
      apply list_find_Some in Hf as (Hi & ? & _).
      split; [by eapply list_elem_of_lookup_2|done].
    - intros [Hv Hn]. apply list_find_unique; [done..|].
      intros w Hw Hwn.
      eapply (NoDup_fmap_eq PromptVersion.version); [|done..|congruence].
      rewrite Hseq. apply NoDup_seqZ. }
  split; [done|]. split.
  - intros [v [Hv Hn]%Hfind].
    assert (n ∈ seqZ 1 (Prompt.version p)) as Hin
      by (rewrite <-Hseq, <-Hn; by apply list_elem_of_fmap_2).
    apply elem_of_seqZ in Hin. lia.
  - intros Hn.
    assert (n ∈ seqZ 1 (Prompt.version p)) as Hin
      by (apply elem_of_seqZ; lia).
    rewrite <-Hseq in Hin. apply list_elem_of_fmap in Hin as (v & -> & Hv).
    exists v. by apply Hfind.
Qed.

End History.

Section Usage.
Import PromptRepository.
Local Open Scope Z_scope.

Lemma increment_usage_stored now slug st p :
  get_by_slug st slug = Some p →
  increment_usage now slug st
  = ({| prompts := write (used now p) (prompts st);
        versions := versions st |}, inr (Some (used now p))).
Proof. intros Hp. unfold increment_usage. by rewrite Hp. Qed.

Lemma reads_stored slug nows :
  ∀ st p,
    store_ok st → get_by_slug st slug = Some p →
    store_ok (reads slug nows st)
    ∧ versions (reads slug nows st) = versions st
    ∧ get_by_slug (reads slug nows st) slug
      = Some (foldl (λ q now, used now q) p nows)
    ∧ ∀ slug', slug' ≠ slug →
        get_by_slug (reads slug nows st) slug' = get_by_slug st slug'.
Proof.
  induction nows as [|now nows IH]; intros st p Hok Hp; [done|].
  change (reads slug (now :: nows) st)
    with (reads slug nows (increment_usage now slug st).1).
  rewrite (increment_usage_stored now slug st p Hp). simpl.
  pose proof Hp as [Hin Hslug]%get_by_slug_Some.
  destruct (IH {| prompts := write (used now p) (prompts st);
                  versions := versions st |} (used now p))
    as (Hok' & Hvs & Hget & Hother).
  - by apply (store_ok_update_fields st p).
  - eapply get_by_slug_write; [exact Hp|done|done].
  - split_and!; [done|done|done|].
    intros slug' Hne. rewrite (Hother slug' Hne).
    apply (get_by_slug_write_other st _ _ p); [done..|congruence].
Qed.

Lemma used_many p nows :
  let q := foldl (λ q now, used now q) p nows in
  Prompt.usage_count q = Prompt.usage_count p + Z.of_nat (length nows)
  ∧ Prompt.last_used_at q = from_option Some (Prompt.last_used_at p) (last nows)
  ∧ Prompt.version q = Prompt.version p
  ∧ Prompt.content q = Prompt.content p
  ∧ Prompt.id q = Prompt.id p
  ∧ Prompt.slug q = Prompt.slug p.
Proof.
  revert p. induction nows as [|now nows IH]; intros p; simpl.
  - split_and!; try done. lia.
  - destruct (IH (used now p)) as (Hu & Hl & Hv & Hc & Hi & Hs).
    rewrite Hu, Hl, Hv, Hc, Hi, Hs. simpl. split_and!; try done; [lia|].
    rewrite last_cons. by destruct (last nows).
Qed.

End Usage.

(** X1.  Deleting a stored prompt returns [True] and removes exactly
    that prompt and exactly its version rows: afterwards neither its slug
    nor its key finds a prompt, its history is empty, no version of it can
    be fetched, and a second [delete] of the slug returns [False] without
    touching the store. *)
Theorem delete_removes_prompt_and_ledger
    (st : Store) (slug : string) (p : Prompt.t) :
  store_ok st →
  PromptRepository.get_by_slug st slug = Some p →
  let out := PromptRepository.delete slug st in
  out.2 = inr true
  ∧ (∀ q, q ∈ prompts out.1 ↔ q ∈ prompts st ∧ q ≠ p)
  ∧ (∀ v, v ∈ versions out.1 ↔
          v ∈ versions st ∧ PromptVersion.prompt_id v ≠ Prompt.id p)
  ∧ PromptRepository.get_by_slug out.1 slug = None
  ∧ PromptRepository.get_by_id out.1 (Prompt.id p) = None
  ∧ PromptRepository.get_versions out.1 slug = []
  ∧ (∀ n, PromptRepository.get_version out.1 slug n = None)
  ∧ PromptRepository.delete slug out.1 = (out.1, inr false).
Proof.
  intros Hok Hp out.
  assert (out = ({| prompts :=
                      filter (λ q, Prompt.id q ≠ Prompt.id p) (prompts st);
                    versions :=
                      filter (λ v, PromptVersion.prompt_id v ≠ Prompt.id p)
                        (versions st) |}, inr true)) as Hout.
  { unfold out, PromptRepository.delete. by rewrite Hp. }
  pose proof Hp as [Hin Hslug]%get_by_slug_Some.
  assert (PromptRepository.get_by_slug out.1 slug = None) as Hgone.
  { rewrite Hout. simpl. apply get_by_slug_None. unfold slugs. simpl.
    intros (q & Hq & [Hne Hqin]%list_elem_of_filter)%list_elem_of_fmap.
    apply Hne. f_equal.
    eapply (NoDup_fmap_eq Prompt.slug);
      [apply (slugs_unique _ Hok)|done..|congruence]. }
  split_and!.
  - by rewrite Hout.
  - intros q. rewrite Hout. simpl. rewrite list_elem_of_filter.
    split.
    + intros [Hne Hq]. split; [done|congruence].
    + intros [Hq Hne]. split; [|done]. intros Heq. apply Hne.
      eapply (NoDup_fmap_eq Prompt.id); [apply (ids_unique _ Hok)|done..].
  - intros v. rewrite Hout. simpl. rewrite list_elem_of_filter. tauto.
  - done.
  - rewrite Hout. simpl.
    destruct (PromptRepository.get_by_id _ _) as [q|] eqn:Hq; [|done].
    apply get_by_id_Some in Hq as [[Hne _]%list_elem_of_filter Hid]. done.
  - unfold PromptRepository.get_versions. by rewrite Hgone.
  - intros n. unfold PromptRepository.get_version. by rewrite Hgone.
  - unfold PromptRepository.delete. rewrite Hgone. by destruct out.
Qed.

Lemma delete_removes_prompt_and_ledger_witness :
  store_ok updated_store
  ∧ (PromptRepository.delete "test-prompt" updated_store).2 = inr true
  ∧ PromptRepository.get_by_slug
      (PromptRepository.delete "test-prompt" updated_store).1 "test-prompt"
    = None.
Proof.
  pose proof (delete_removes_prompt_and_ledger updated_store "test-prompt"
                updated_prompt updated_store_ok eq_refl)
    as (Hout & _ & _ & Hgone & _).
  split_and!; [exact updated_store_ok|exact Hout|exact Hgone].
Defined.

(** X2.  [delete] keeps the store consistent and touches nothing but its
    target: with an unknown slug it returns [False] and leaves the store
    as it was, and in every case the lookup, the history and every single
    version of each other slug are unchanged. *)
Theorem delete_keeps_other_prompts (st : Store) (slug : string) :
  store_ok st →
  let out := PromptRepository.delete slug st in
  store_ok out.1
  ∧ (PromptRepository.get_by_slug st slug = None → out = (st, inr false))
  ∧ ∀ slug', slug' ≠ slug →
      PromptRepository.get_by_slug out.1 slug'
      = PromptRepository.get_by_slug st slug'
      ∧ PromptRepository.get_versions out.1 slug'
        = PromptRepository.get_versions st slug'
      ∧ ∀ n, PromptRepository.get_version out.1 slug' n
             = PromptRepository.get_version st slug' n.
Proof.
  intros Hok out. unfold out.
  destruct (delete_cases slug st) as [[Hnone ->]|(p & Hp & ->)]; simpl.
  { by split_and!. }
  pose proof Hp as [Hin Hslug]%get_by_slug_Some.
  split_and!; [by apply store_ok_removed|by rewrite Hp|].
  intros slug' Hne.
  assert (PromptRepository.get_by_slug
            {| prompts :=
                 filter (λ q, Prompt.id q ≠ Prompt.id p) (prompts st);
               versions :=
                 filter (λ v, PromptVersion.prompt_id v ≠ Prompt.id p)
                   (versions st) |} slug'
          = PromptRepository.get_by_slug st slug') as Hsame
    by (apply get_by_slug_removed; [done..|congruence]).
  assert (∀ q, PromptRepository.get_by_slug st slug' = Some q →
               PromptRepository.versions_of
                 {| prompts :=
                      filter (λ q, Prompt.id q ≠ Prompt.id p) (prompts st);
                    versions :=
                      filter (λ v, PromptVersion.prompt_id v ≠ Prompt.id p)
                        (versions st) |} (Prompt.id q)
               = PromptRepository.versions_of st (Prompt.id q)) as Hrows.
  { intros q [Hq Hqs]%get_by_slug_Some.
    rewrite versions_of_removed, decide_False; [done|].
    intros Heq. apply Hne. rewrite <-Hqs, <-Hslug. f_equal.
    eapply (NoDup_fmap_eq Prompt.id); [apply (ids_unique _ Hok)|done..]. }
  split_and!; [done| |intros n].
  - unfold PromptRepository.get_versions. rewrite Hsame.
    destruct (PromptRepository.get_by_slug st slug') as [q|] eqn:Hq; [|done].
    by rewrite Hrows.
  - unfold PromptRepository.get_version. rewrite Hsame.
    destruct (PromptRepository.get_by_slug st slug') as [q|] eqn:Hq; [|done].
    simpl. by rewrite Hrows.
Qed.

Lemma delete_keeps_other_prompts_witness :
  store_ok example_store
  ∧ store_ok (PromptRepository.delete "test-prompt" example_store).1
  ∧ PromptRepository.delete "other" example_store
    = (example_store, inr false).
Proof.
  pose proof (delete_keeps_other_prompts example_store "test-prompt"
                example_store_ok) as (Hok & _).
  pose proof (delete_keeps_other_prompts example_store "other"
                example_store_ok) as (_ & Hnone & _).
  split_and!; [exact example_store_ok|exact Hok|exact (Hnone eq_refl)].
Defined.

(** X4.  In a consistent store [get_versions] returns the whole ledger of
    the prompt, newest entry first: the rows of the prompt in the reverse
    of their insertion order, numbered [V, V-1, ..., 1] for the current
    version [V]; for an unknown slug it returns the empty list. *)
Theorem get_versions_newest_first
    (st : Store) (slug : string) (p : Prompt.t) :
  store_ok st →
  PromptRepository.get_by_slug st slug = Some p →
  PromptRepository.get_versions st slug
  = reverse (PromptRepository.versions_of st (Prompt.id p))
  ∧ PromptVersion.version <$> PromptRepository.get_versions st slug
    = reverse (seqZ 1 (Prompt.version p))
  ∧ length (PromptRepository.get_versions st slug)
    = Z.to_nat (Prompt.version p)
  ∧ ∀ slug', PromptRepository.get_by_slug st slug' = None →
             PromptRepository.get_versions st slug' = [].
Proof.
  intros Hok Hp.
  pose proof (get_versions_stored st slug p Hok Hp) as Heq.
  pose proof Hp as [Hin _]%get_by_slug_Some.
  destruct (ledgers_ok _ Hok p Hin) as [_ Hseq].
  assert (PromptVersion.version <$> PromptRepository.get_versions st slug
          = reverse (seqZ 1 (Prompt.version p))) as Hnum
    by (by rewrite Heq, fmap_reverse, Hseq).
  split_and!; [done|done| |].
  - rewrite <-(length_fmap PromptVersion.version), Hnum, length_reverse.
    apply length_seqZ.
  - intros slug' Hnone. unfold PromptRepository.get_versions.
    by rewrite Hnone.
Qed.

Lemma get_versions_newest_first_witness :
  store_ok updated_store
  ∧ PromptVersion.version
      <$> PromptRepository.get_versions updated_store "test-prompt"
    = [2; 1]%Z.
Proof.
  pose proof (get_versions_newest_first updated_store "test-prompt"
                updated_prompt updated_store_ok eq_refl)
    as (_ & Hnum & _).
  split; [exact updated_store_ok|]. rewrite Hnum. reflexivity.
Defined.

(** X5.  In a consistent store [get_version(slug, n)] finds a row
    exactly for [1 <= n <= version]; the row it returns is the only row of
    that prompt with the number [n]; for an unknown slug it returns
    [None]. *)
Theorem get_version_within_ledger
    (st : Store) (slug : string) (p : Prompt.t) (n : Z) :
  store_ok st →
  PromptRepository.get_by_slug st slug = Some p →
  (is_Some (PromptRepository.get_version st slug n)
   ↔ (1 ≤ n ≤ Prompt.version p)%Z)
  ∧ (∀ v, PromptRepository.get_version st slug n = Some v ↔
          v ∈ versions st ∧ PromptVersion.prompt_id v = Prompt.id p
          ∧ PromptVersion.version v = n)
  ∧ ∀ slug', PromptRepository.get_by_slug st slug' = None →
             PromptRepository.get_version st slug' n = None.
Proof.
  intros Hok Hp.
  destruct (get_version_stored st slug p n Hok Hp) as [Hrow Hsome].
  split_and!; [done| |].
  - intros v. rewrite Hrow. unfold PromptRepository.versions_of.
    rewrite list_elem_of_filter. tauto.
  - intros slug' Hnone. unfold PromptRepository.get_version.
    by rewrite Hnone.
Qed.

Lemma get_version_within_ledger_witness :
  store_ok updated_store
  ∧ is_Some (PromptRepository.get_version updated_store "test-prompt" 2)
  ∧ ¬ is_Some (PromptRepository.get_version updated_store "test-prompt" 3).
Proof.
  split; [exact updated_store_ok|]. split.
  - apply (get_version_within_ledger updated_store "test-prompt"
             updated_prompt 2%Z updated_store_ok eq_refl). simpl. lia.
  - intros H.
    apply (get_version_within_ledger updated_store "test-prompt"
             updated_prompt 3%Z updated_store_ok eq_refl) in H.
    simpl in H. lia.
Defined.

(** X6.  Counted reads count: after [get_prompt(slug)] was called, with
    [increment_usage] left [True], at the times [nows], the usage count has
    grown by the number of calls and [last_used_at] is the time of the
    last one, while the version, the content, the ledger, the other
    prompts and the consistency of the store are as before; [get_prompt]
    with [increment_usage=False] returns the prompt and leaves the store
    untouched. *)
Theorem reads_count_usage
    (st : Store) (slug : string) (p : Prompt.t) (nows : list datetime) :
  store_ok st →
  PromptRepository.get_by_slug st slug = Some p →
  let st' := reads slug nows st in
  store_ok st'
  ∧ versions st' = versions st
  ∧ (∃ p',
       PromptRepository.get_by_slug st' slug = Some p'
       ∧ Prompt.usage_count p'
         = (Prompt.usage_count p + Z.of_nat (length nows))%Z
       ∧ Prompt.last_used_at p'
         = from_option Some (Prompt.last_used_at p) (last nows)
       ∧ Prompt.version p' = Prompt.version p
       ∧ Prompt.content p' = Prompt.content p
       ∧ Prompt.id p' = Prompt.id p)
  ∧ (∀ slug', slug' ≠ slug →
       PromptRepository.get_by_slug st' slug'
       = PromptRepository.get_by_slug st slug')
  ∧ ∀ now, PromptService.get_prompt now slug false st = (st, inr (Some p)).
Proof.
  intros Hok Hp st'.
  destruct (reads_stored slug nows st p Hok Hp) as (Hok' & Hvs & Hget & Hoth).
  destruct (used_many p nows) as (Hu & Hl & Hv & Hc & Hi & _).
  split_and!; [done|done| |done|].
  - eexists. split; [exact Hget|]. by split_and!.
  - intros now. unfold PromptService.get_prompt. by rewrite Hp.
Qed.

Lemma reads_count_usage_witness :
  store_ok example_store
  ∧ ∃ p', PromptRepository.get_by_slug
            (reads "test-prompt" [3; 4; 8]%Z example_store) "test-prompt"
          = Some p'
          ∧ Prompt.usage_count p' = 3%Z
          ∧ Prompt.last_used_at p' = Some 8%Z.
Proof.
  split; [exact example_store_ok|].
  destruct (reads_count_usage example_store "test-prompt" example_prompt
              [3; 4; 8]%Z example_store_ok eq_refl)
    as (_ & _ & (p' & Hget & Hu & Hl & _) & _).
  exists p'. split_and!; [exact Hget|exact Hu|exact Hl].
Defined.

(** ** Tags and pagination *)

Section Tags.
Import PromptRepository.
Local Open Scope Z_scope.

Lemma occurrences_cons tag t tags :
  occurrences tag (t :: tags)
  = (if decide (t = tag) then 1 else 0) + occurrences tag tags.
Proof.
  unfold occurrences. rewrite filter_cons. case_decide; simpl; lia.
Qed.

Lemma occurrences_app tag l k :
  occurrences tag (l ++ k) = occurrences tag l + occurrences tag k.
Proof. unfold occurrences. rewrite filter_app, length_app. lia. Qed.

Lemma occurrences_nonneg tag tags : 0 ≤ occurrences tag tags.
Proof. unfold occurrences. lia. Qed.

(** The inner loop adds to every counter the occurrences of its tag, and
    keeps the counters positive. *)
Lemma count_tags_lookup tags :
  ∀ counts : gmap string Z,
    (∀ t n, counts !! t = Some n → 0 < n) →
    (∀ tag, default 0 (foldl count_tag counts tags !! tag)
            = default 0 (counts !! tag) + occurrences tag tags)
    ∧ (∀ t n, foldl count_tag counts tags !! t = Some n → 0 < n).
Proof.
  induction tags as [|t tags IH]; intros counts Hpos; simpl.
  - split; [|done]. intros tag. unfold occurrences. simpl. lia.
  - assert (∀ t' n, count_tag counts t !! t' = Some n → 0 < n) as Hpos'.
    { intros t' n. unfold count_tag.
      destruct (decide (t = t')) as [->|Hne].
      - rewrite lookup_insert_eq. intros [= <-].
        destruct (counts !! t') as [m|] eqn:Hm; simpl; [|lia].
        specialize (Hpos t' m Hm). lia.
      - rewrite lookup_insert_ne by done. apply Hpos. }
    destruct (IH (count_tag counts t) Hpos') as [Hsum Hpos''].
    split; [|done]. intros tag. rewrite Hsum, occurrences_cons.
    unfold count_tag. case_decide as Heq.
    + subst. rewrite lookup_insert_eq. simpl. lia.
    + rewrite lookup_insert_ne by done. lia.
Qed.

Lemma get_tags_rows rows :
  ∀ acc,
    match
      foldl (λ (acc : py_exn + gmap string Z) p,
               match acc with
               | inr tag_counts =>
                   match Prompt.tags p with
                   | Some tags => inr (foldl count_tag tag_counts tags)
                   | None => inl TypeError
                   end
               | inl e => inl e
               end) acc rows
    with
    | inr counts =>
        ∃ counts0, acc = inr counts0
          ∧ (∀ p, p ∈ rows → is_Some (Prompt.tags p))
          ∧ counts
            = foldl count_tag counts0
                (concat ((λ p, default [] (Prompt.tags p)) <$> rows))
    | inl e =>
        acc = inl e
        ∨ (e = TypeError ∧ ∃ p, p ∈ rows ∧ Prompt.tags p = None)
    end.
Proof.
  induction rows as [|p rows IH]; intros acc; simpl.
  - destruct acc as [e|counts]; [by left|].
    exists counts. split_and!; [done| |done]. by intros p ?%elem_of_nil.
  - specialize (IH (match acc with
                    | inr tag_counts =>
                        match Prompt.tags p with
                        | Some tags => inr (foldl count_tag tag_counts tags)
                        | None => inl TypeError
                        end
                    | inl e => inl e
                    end)).
    destruct (foldl _ _ rows) as [e|counts].
    + destruct IH as [Hacc|[-> (q & Hq & Hnone)]].
      * destruct acc as [e'|counts0]; [left; congruence|].
        destruct (Prompt.tags p) eqn:Hp; [done|]. injection Hacc as <-.
        right. split; [done|]. exists p. split; [left|done].
      * right. split; [done|]. exists q. split; [by right|done].
    + destruct IH as (counts1 & Hacc & Hall & ->).
      destruct acc as [e'|counts0]; [done|].
      destruct (Prompt.tags p) as [tags|] eqn:Hp; [|done].
      injection Hacc as <-. exists counts0. split_and!; [done| |].
      * intros q [->|Hq]%elem_of_cons; [by rewrite Hp|by apply Hall].
      * simpl. by rewrite foldl_app.
Qed.

End Tags.

(** X7.  [get_tags] returns, for every tag, the number of its occurrences
    over the tag lists of all prompts (a tag repeated in one list counts
    each time), and has no entry for a tag that does not occur.  It raises
    [TypeError] exactly when some prompt has no tag list, which is the
    state that an update setting [tags] to null leaves behind. *)
Theorem get_tags_counts_occurrences (st : Store) :
  match PromptRepository.get_tags st with
  | inr tag_counts =>
      (∀ p, p ∈ prompts st → is_Some (Prompt.tags p))
      ∧ ∀ tag,
          tag_counts !! tag
          = if decide (occurrences tag (all_tags st) = 0%Z) then None
            else Some (occurrences tag (all_tags st))
  | inl e =>
      e = TypeError ∧ ∃ p, p ∈ prompts st ∧ Prompt.tags p = None
  end
  ∧ ∀ now vid slug p,
      PromptRepository.get_by_slug st slug = Some p →
      let out := PromptRepository.update now vid slug null_tags_payload st in
      (∃ p', out.2 = inr (Some p') ∧ Prompt.tags p' = None)
      ∧ PromptRepository.get_tags out.1 = inl TypeError.
Proof.
  split.
  - unfold PromptRepository.get_tags.
    pose proof (get_tags_rows (prompts st) (inr ∅)) as Hrows.
    destruct (foldl _ _ (prompts st)) as [e|counts].
    + destruct Hrows as [[=]|[-> ?]]. done.
    + destruct Hrows as (counts0 & [= <-] & Hall & ->).
      split; [done|]. intros tag.
      destruct (count_tags_lookup (all_tags st) ∅) as [Hsum Hpos].
      { intros t n. by rewrite lookup_empty. }
      specialize (Hsum tag). rewrite lookup_empty in Hsum. simpl in Hsum.
      fold (all_tags st).
      destruct (foldl PromptRepository.count_tag ∅ (all_tags st) !! tag)
        as [n|] eqn:Hn; simpl in Hsum.
      * specialize (Hpos tag n Hn). rewrite decide_False by lia.
        f_equal. lia.
      * rewrite decide_True by lia. done.
  - intros now vid slug p Hp out. unfold out.
    destruct (update_cases now vid slug null_tags_payload st)
      as [Hq|q Hq Hrej|q new Hq Hch Hf Hv _|q new Hq Hch _ Hf Hv Hc];
      rewrite Hp in Hq; simplify_eq.
    + destruct Hrej as [[H|[H|H]]|[H _]]; done.
    + destruct Hf as (Hid & _ & _ & _ & _ & _ & _ & Htags & _).
      simpl in Htags. split; [by eauto|].
      unfold PromptRepository.get_tags. simpl.
      pose proof (get_tags_rows (PromptRepository.write new (prompts st))
                    (inr ∅)) as Hrows.
      destruct (foldl _ _ (PromptRepository.write new (prompts st)))
        as [e|counts].
      * destruct Hrows as [[=]|[-> ?]]. done.
      * destruct Hrows as (counts0 & _ & Hall & _).
        destruct (Hall new) as [? Hsome]; [|congruence].
        apply elem_of_write. left. split; [done|].
        exists q. split; [|done]. by apply get_by_slug_Some in Hp as [? _].
Qed.

Section Pagination.
Import PromptRepository.

(** Consecutive chunks of [k] rows, enough of them, make up the rows. *)
Lemma chunks_cover {A} (k : nat) :
  ∀ (n : nat) (rows : list A),
    (length rows ≤ n * k)%nat →
    concat ((λ i : nat, take k (drop (i * k) rows)) <$> seq 0 n) = rows.
Proof.
  induction n as [|n IH]; intros rows Hlen; simpl.
  - destruct rows; [done|simpl in Hlen; lia].
  - transitivity (take k rows ++ drop k rows)%list; [|apply take_drop].
    f_equal. rewrite <-(IH (drop k rows)) by (rewrite length_drop; lia).
    f_equal. rewrite <-fmap_S_seq, <-list_fmap_compose.
    apply list_fmap_ext. intros i j _. simpl.
    by rewrite drop_drop.
Qed.

Lemma pages_ceiling (total page_size : Z) :
  (1 ≤ page_size)%Z → (0 ≤ total)%Z →
  ∃ n : Z,
    PromptService.pages total page_size = inr n
    ∧ (1 ≤ n)%Z
    ∧ (total ≤ n * page_size)%Z
    ∧ (0 < total → (n - 1) * page_size < total)%Z
    ∧ (total = 0%Z → n = 1%Z).
Proof.
  intros Hps Htotal. unfold PromptService.pages.
  case_decide as Hpos; [|exists 1%Z; split_and!; [done|lia..]].
  rewrite decide_False by lia. eexists. split; [done|].
  split_and!; try lia; Z.div_mod_to_equations; nia.
Qed.

End Pagination.



(** ** Authorization and validation *)

Section Authorization.
Import Auth.

Lemma prefix_app (s1 s2 : string) :
  String.prefix s1 s2 = true ↔ ∃ r, s2 = s1 ++ r.
Proof.
  revert s2. induction s1 as [|a s1 IH]; intros s2.
  - split; [by exists s2|]. by destruct s2.
  - destruct s2 as [|b s2]; simpl.
    + split; [done|]. by intros (r & [=]).
    + destruct (ascii_dec a b) as [->|Hne].
      * rewrite IH. split; intros (r & Hr); exists r.
        -- by rewrite Hr.
        -- by injection Hr.
      * split; [done|]. intros (r & [= ? ?]). done.
Qed.

Lemma skip_app (s1 r : string) : skip (String.length s1) (s1 ++ r) = r.
Proof. induction s1 as [|a s1 IH]; simpl; [by destruct r|done]. Qed.

Lemma skip_bearer (r : string) : skip 7 ("Bearer " ++ r) = r.
Proof. exact (skip_app "Bearer " r). Qed.

End Authorization.

(** X15.  [verify_api_key] lets a request through without a key exactly
    when the localhost bypass is on and the client is local.  Otherwise it
    returns a key exactly when the [Authorization] header is the
    configured key after the prefix [Bearer ], or the bare configured key
    (provided that key does not itself start with [Bearer ]); the key it
    returns is the configured one, and every refusal is a 401. *)
Theorem verify_api_key_accepts
    (settings : Auth.Settings) (client_host header : option string) :
  let out := Auth.verify_api_key settings client_host header in
  let bypass :=
    Auth.allow_localhost_bypass settings && Auth.is_localhost client_host in
  (out = inr None ↔ bypass = true)
  ∧ (∀ key,
       out = inr (Some key) ↔
       bypass = false
       ∧ key = Auth.api_key settings
       ∧ ∃ h, header = Some h ∧ h ≠ ""
              ∧ (h = "Bearer " ++ key
                 ∨ (h = key ∧ String.prefix "Bearer " key = false)))
  ∧ (∀ e, out = inl e → Auth.status_code e = 401%Z)
  ∧ (Auth.is_localhost client_host = true ↔
     client_host ∈ [Some "127.0.0.1"; Some "localhost"; Some "::1"]).
Proof.
  intros out bypass.
  assert (∀ h, h ≠ "" → bypass = false →
            out = (let key :=
                     if String.prefix "Bearer " h then Auth.skip 7 h else h in
                   if decide (key = Auth.api_key settings) then inr (Some key)
                   else inl {| Auth.status_code := 401;
                               Auth.detail := "Invalid API key." |}) ∨ header ≠ Some h)
    as Hkey.
  { intros h Hh Hb. destruct (decide (header = Some h)) as [->|]; [left|by right].
    unfold out, Auth.verify_api_key. fold bypass. rewrite Hb.
    by destruct h. }
  split_and!.
  - unfold out, Auth.verify_api_key. fold bypass.
    destruct bypass; [done|]. split; [|done].
    destruct header as [[|c h]|]; [done| |done].
    simpl. by case_decide.
  - intros key. split.
    + intros Hout. destruct bypass eqn:Hb.
      { unfold out, Auth.verify_api_key in Hout. fold bypass in Hout.
        by rewrite Hb in Hout. }
      destruct header as [h|]; [|by unfold out, Auth.verify_api_key in Hout;
                                     fold bypass in Hout; rewrite Hb in Hout].
      destruct (decide (h = "")) as [->|Hh].
      { unfold out, Auth.verify_api_key in Hout. fold bypass in Hout.
        by rewrite Hb in Hout. }
      destruct (Hkey h Hh eq_refl) as [Hout'|]; [|done].
      rewrite Hout' in Hout. cbv zeta in Hout.
      destruct (String.prefix "Bearer " h) eqn:Hp.
      * apply prefix_app in Hp as (r & ->). rewrite skip_bearer in Hout.
        case_decide as Heq; [|done]. injection Hout as <-.
        split_and!; [done|done|]. exists ("Bearer " ++ r).
        split_and!; [done..|by left].
      * case_decide as Heq; [|done]. injection Hout as <-.
        split_and!; [done|done|]. exists h.
        split_and!; [done..|by right].
    + intros (Hb & -> & h & -> & Hh & Hcase).
      destruct (Hkey h Hh Hb) as [->|]; [|done]. cbv zeta.
      destruct Hcase as [->|[-> Hp]].
      * assert (String.prefix "Bearer " ("Bearer " ++ Auth.api_key settings)
                = true) as -> by (apply prefix_app; eauto).
        rewrite skip_bearer.
        by rewrite decide_True.
      * rewrite Hp. by rewrite decide_True.
  - intros e. unfold out, Auth.verify_api_key. fold bypass.
    destruct bypass; [done|].
    destruct header as [[|c h]|]; [by intros [= <-]| |by intros [= <-]].
    simpl. case_decide; [done|]. by intros [= <-].
  - unfold Auth.is_localhost. destruct client_host as [host|].
    + rewrite bool_decide_eq_true, !elem_of_cons, !elem_of_nil.
      split; [intros [->|[->|[->|[]]]]; auto|].
      intros [[= ->]|[[= ->]|[[= ->]|[]]]]; auto.
    + split; [done|].
      rewrite !elem_of_cons, elem_of_nil. intros [|[|[|[]]]]; done.
Qed.

Section Validation.
Import Jinja.

Lemma render_body_outcome variables body :
  (∃ out, render_body variables body = inr out)
  ∨ (∃ message, render_body variables body = inl (UndefinedError message)).
Proof.
  induction body as [|[text|name] body IH]; simpl; [by eauto|..].
  - destruct IH as [[out ->]|[m ->]]; eauto.
  - destruct (variables !! name); [|by eauto].
    destruct IH as [[out ->]|[m ->]]; eauto.
Qed.

Lemma parse_opener_free content :
  opener_free content = true → ∃ body, parse content = Template body.
Proof.
  unfold opener_free. intros Hfree%negb_true_iff. unfold parse.
  rewrite lex_opener_free by (by eapply normalize_keeps_opener_free).
  unfold add_data. destruct (_ ++ _)%list; eauto.
Qed.

End Validation.


(** ** Updates and notes *)

Section Frame.
Import PromptRepository.
Local Open Scope Z_scope.

(** The rows of the other prompts after an update of [p]. *)
Lemma versions_of_other st p new v q :
  store_ok st → p ∈ prompts st → q ∈ prompts st →
  PromptVersion.prompt_id v = Prompt.id p → Prompt.slug q ≠ Prompt.slug p →
  versions_of {| prompts := write new (prompts st);
                 versions := (versions st ++ [v])%list |} (Prompt.id q)
  = versions_of st (Prompt.id q).
Proof.
  intros Hok Hp Hq Hv Hne. rewrite versions_of_snoc.
  rewrite decide_False, app_nil_r; [done|].
  rewrite Hv. intros Heq. apply Hne. f_equal.
  eapply (NoDup_fmap_eq Prompt.id); [apply (ids_unique _ Hok)|done..].
Qed.

Lemma get_versions_ext st st' slug :
  get_by_slug st' slug = get_by_slug st slug →
  (∀ q, get_by_slug st slug = Some q →
        versions_of st' (Prompt.id q) = versions_of st (Prompt.id q)) →
  get_versions st' slug = get_versions st slug.
Proof.
  intros Hget Hrows. unfold get_versions. rewrite Hget.
  destruct (get_by_slug st slug) as [q|]; [|done]. by rewrite Hrows.
Qed.

End Frame.

Section UpdateFrame.
Import PromptRepository.
Local Open Scope Z_scope.

(** X11.  An update touches one prompt and only appends to the ledger:
    the lookup and the history of every other slug are unchanged, the
    version rows that existed are still there, in the same order and
    before any new one, and no key or slug changes.  It returns [None]
    exactly for an unknown slug, and when it raises it raises
    [IntegrityError] and leaves the store as it was. *)
Theorem update_touches_one_prompt
    (st : Store) (now : datetime) (vid slug : string)
    (data : PromptUpdate.t) :
  store_ok st →
  let out := PromptRepository.update now vid slug data st in
  (∀ slug', slug' ≠ slug →
     PromptRepository.get_by_slug out.1 slug'
     = PromptRepository.get_by_slug st slug'
     ∧ PromptRepository.get_versions out.1 slug'
       = PromptRepository.get_versions st slug')
  ∧ versions st `prefix_of` versions out.1
  ∧ Prompt.id <$> prompts out.1 = Prompt.id <$> prompts st
  ∧ slugs out.1 = slugs st
  ∧ (out.2 = inr None ↔ PromptRepository.get_by_slug st slug = None)
  ∧ ∀ e, out.2 = inl e → e = IntegrityError ∧ out.1 = st.
Proof.
  intros Hok out. unfold out.
  destruct (update_cases now vid slug data st)
    as [Hq|q Hq Hrej|q new Hq Hch Hf Hv _|q new Hq Hch Hvid Hf Hv Hc];
    simpl.
  - split_and!; [done|done|done|done|done|]. by intros e [=].
  - split_and!; [done|done|done|done| |].
    + rewrite Hq. split; done.
    + by intros e [= <-].
  - pose proof Hq as [Hin Hslug]%get_by_slug_Some.
    destruct Hf as (Hid & Hs & _).
    split_and!.
    + intros slug' Hne.
      assert (get_by_slug
                {| prompts := write new (prompts st);
                   versions := versions st |} slug'
              = get_by_slug st slug') as Hget
        by (apply (get_by_slug_write_other st _ _ q); [done..|congruence]).
      split; [done|]. by apply get_versions_ext.
    + done.
    + apply write_ids.
    + unfold slugs. simpl. by eapply write_slugs; [apply (ids_unique _ Hok)|..].
    + rewrite Hq. split; done.
    + by intros e [=].
  - pose proof Hq as [Hin Hslug]%get_by_slug_Some.
    destruct Hf as (Hid & Hs & _).
    split_and!.
    + intros slug' Hne.
      assert (get_by_slug
                {| prompts := write new (prompts st);
                   versions :=
                     (versions st ++
                      [PromptVersion.Build vid (Prompt.id q)
                         (Prompt.version q + 1) (Prompt.content new) now
                         (value (PromptUpdate.change_note data))])%list |}
                slug'
              = get_by_slug st slug') as Hget
        by (apply (get_by_slug_write_other st _ _ q); [done..|congruence]).
      split; [done|]. apply get_versions_ext; [done|].
      intros q' [Hq' Hs']%get_by_slug_Some.
      apply (versions_of_other st q); [done..|congruence].
    + by apply prefix_app_r.
    + apply write_ids.
    + unfold slugs. simpl. by eapply write_slugs; [apply (ids_unique _ Hok)|..].
    + rewrite Hq. split; done.
    + by intros e [=].
Qed.

Lemma update_touches_one_prompt_witness :
  store_ok example_store
  ∧ versions example_store
    `prefix_of` versions
      (PromptRepository.update 5%Z "v-2" "test-prompt" content_payload
         example_store).1.
Proof.
  pose proof (update_touches_one_prompt example_store 5%Z "v-2" "test-prompt"
                content_payload example_store_ok) as (_ & Hprefix & _).
  split; [exact example_store_ok|exact Hprefix].
Defined.

End UpdateFrame.

Section Notes.
Import PromptRepository PromptService.
Local Open Scope Z_scope.

Lemma string_app_assoc (a b c : string) : (a ++ b) ++ c = a ++ (b ++ c).
Proof.
  induction a as [|x a IH]; [reflexivity|].
  change (String x ((a ++ b) ++ c) = String x (a ++ (b ++ c))).
  by rewrite IH.
Qed.

Lemma string_app_empty (a b : string) : a ++ b = "" → a = "".
Proof. by destruct a. Qed.

Lemma note_update_Unset note stored :
  note_update note stored = Unset ↔ note = None ∨ note = Some "".
Proof.
  unfold note_update. destruct note as [n|]; [|by split; auto].
  case_decide as Hn; [subst; by split; auto|].
  split; [done|]. intros [?|[= ?]]; done.
Qed.


Lemma add_note_stored now vid slug success_note failure_note st p :
  get_by_slug st slug = Some p →
  let out := add_note now vid slug success_note failure_note st in
  ∃ p',
    out.2 = inr (Some p')
    ∧ versions out.1 = versions st
    ∧ (out.1 = st ∧ p' = p
       ∨ out.1 = {| prompts := write p' (prompts st);
                    versions := versions st |})
    ∧ fields_assigned (note_payload success_note failure_note p) p p'
    ∧ Prompt.version p' = Prompt.version p.
Proof.
  intros Hp out.
  assert ((note_update success_note (Prompt.success_notes p) = Unset
           ∧ note_update failure_note (Prompt.failure_notes p) = Unset)
          ∨ out = update now vid slug
                    (note_payload success_note failure_note p) st)
    as [[Hs Hf]| ->].
  { unfold out, add_note, note_payload. rewrite Hp.
    destruct (note_update success_note _);
      destruct (note_update failure_note _); auto. }
  - exists p. unfold out, add_note. rewrite Hp, Hs, Hf. simpl.
    split_and!; [done|done|by left| |done].
    unfold fields_assigned, note_payload. rewrite Hs, Hf. by split_and!.
  -     destruct (update_cases now vid slug
                (note_payload success_note failure_note p) st)
      as [Hq|q Hq Hrej|q new Hq Hch Hf Hv _|q new Hq Hch _ Hf Hv Hc];
      rewrite Hp in Hq; simplify_eq.
    + destruct Hrej as [[H|[H|H]]|[H _]]; done.
    + exists new. simpl. split_and!; [done|done|by right|done|done].
Qed.

End Notes.

Section NotesProperties.
Import PromptRepository PromptService.
Local Open Scope Z_scope.

Lemma add_note_lookup now vid slug success_note failure_note st p p' :
  get_by_slug st slug = Some p →
  (add_note now vid slug success_note failure_note st).1 = st ∧ p' = p
  ∨ (add_note now vid slug success_note failure_note st).1
    = {| prompts := write p' (prompts st); versions := versions st |} →
  Prompt.id p' = Prompt.id p → Prompt.slug p' = Prompt.slug p →
  get_by_slug (add_note now vid slug success_note failure_note st).1 slug
  = Some p'.
Proof.
  intros Hp [[-> ->]| ->] Hid Hslug; [done|].
  eapply get_by_slug_write; [done..|].
  apply get_by_slug_Some in Hp as [_ <-]. done.
Qed.

(** X8.  [add_note] never writes a version: for a stored prompt it
    returns the prompt with the same version, content, title, tags,
    template fields and usage count, and the version rows are unchanged.
    A note that is given and not empty replaces absent or empty stored
    notes, and is appended after the separator otherwise; an absent or
    empty note leaves the stored text alone, and when both notes are
    absent or empty nothing is written at all.  For an unknown slug the
    result is [None]. *)
Theorem add_note_writes_no_version
    (st : Store) (slug : string) (p : Prompt.t) (now : datetime)
    (vid : string) (success_note failure_note : option string) :
  get_by_slug st slug = Some p →
  let out := add_note now vid slug success_note failure_note st in
  versions out.1 = versions st
  ∧ (∃ p',
       out.2 = inr (Some p')
       ∧ get_by_slug out.1 slug = Some p'
       ∧ Prompt.version p' = Prompt.version p
       ∧ Prompt.content p' = Prompt.content p
       ∧ Prompt.title p' = Prompt.title p
       ∧ Prompt.tags p' = Prompt.tags p
       ∧ Prompt.is_template p' = Prompt.is_template p
       ∧ Prompt.template_vars p' = Prompt.template_vars p
       ∧ Prompt.usage_count p' = Prompt.usage_count p
       ∧ (∀ note, success_note = Some note → note ≠ "" →
            Prompt.success_notes p'
            = Some (match Prompt.success_notes p with
                    | None | Some "" => note
                    | Some stored => stored ++ note_separator ++ note
                    end))
       ∧ (success_note = None ∨ success_note = Some "" →
          Prompt.success_notes p' = Prompt.success_notes p)
       ∧ (∀ note, failure_note = Some note → note ≠ "" →
            Prompt.failure_notes p'
            = Some (match Prompt.failure_notes p with
                    | None | Some "" => note
                    | Some stored => stored ++ note_separator ++ note
                    end))
       ∧ (failure_note = None ∨ failure_note = Some "" →
          Prompt.failure_notes p' = Prompt.failure_notes p))
  ∧ ((success_note = None ∨ success_note = Some "") →
     (failure_note = None ∨ failure_note = Some "") →
     out = (st, inr (Some p)))
  ∧ ∀ slug', get_by_slug st slug' = None →
      add_note now vid slug' success_note failure_note st = (st, inr None).
Proof.
  intros Hp out.
  destruct (add_note_stored now vid slug success_note failure_note st p Hp)
    as (p' & Hout & Hvs & Hst & Hf & Hv).
  fold out in Hout, Hvs, Hst.
  destruct Hf as (Hid & Hslug & Ht & Hc & Hi & _ & _ & Htags & _ & Hvars
                  & Hsn & Hfn & _ & Hu & _).
  simpl in *.
  assert (∀ note stored new_notes,
            new_notes = set_nullable (note_update note stored) stored →
            (∀ n, note = Some n → n ≠ "" →
               new_notes = Some (match stored with
                                 | None | Some "" => n
                                 | Some stored => stored ++ note_separator ++ n
                                 end))
            ∧ (note = None ∨ note = Some "" → new_notes = stored)) as Hnote.
  { intros note stored new_notes ->. split.
    - intros n -> Hn. unfold note_update. rewrite decide_False by done.
      simpl. f_equal. destruct stored as [[|c e]|]; simpl; try done.
    - intros Hnone%(note_update_Unset _ stored). by rewrite Hnone. }
  split_and!; [done| | |].
  - exists p'. split_and!; try done; try congruence.
    + by apply (add_note_lookup _ _ _ _ _ _ p).
    + by apply (Hnote success_note).
    + by apply (Hnote success_note).
    + by apply (Hnote failure_note).
    + by apply (Hnote failure_note).
  - intros Hs%(note_update_Unset _ (Prompt.success_notes p))
           Hf%(note_update_Unset _ (Prompt.failure_notes p)).
    unfold out, add_note. by rewrite Hp, Hs, Hf.
  - intros slug' Hnone. unfold add_note. by rewrite Hnone.
Qed.

Lemma add_note_writes_no_version_witness :
  get_by_slug example_store "test-prompt" = Some example_prompt
  ∧ ∃ p',
      (add_note 5%Z "v-2" "test-prompt" (Some "worked well") None
         example_store).2 = inr (Some p')
      ∧ Prompt.version p' = 1%Z
      ∧ Prompt.success_notes p' = Some "worked well".
Proof.
  split; [reflexivity|].
  destruct (add_note_writes_no_version example_store "test-prompt"
              example_prompt 5%Z "v-2" (Some "worked well") None eq_refl)
    as (_ & (p' & Hout & _ & Hv & _ & _ & _ & _ & _ & _ & Hs & _) & _).
  exists p'. split_and!; [exact Hout|exact Hv|].
  apply (Hs "worked well" eq_refl). discriminate.
Defined.

End NotesProperties.

Section NotesAccumulate.
Import PromptRepository PromptService.
Local Open Scope Z_scope.

Lemma concat_cons_cons sep (a b : string) l :
  String.concat sep (a :: b :: l) = a ++ sep ++ String.concat sep (b :: l).
Proof. done. Qed.

(** Appending notes one by one gives the stored text and the notes,
    separated. *)
Lemma fold_notes_concat notes :
  ∀ acc, acc ≠ "" → Forall (λ note, note ≠ "") notes →
    foldl (λ acc note, if decide (acc = "") then note
                       else acc ++ note_separator ++ note) acc notes
    = String.concat note_separator (acc :: notes).
Proof.
  induction notes as [|n notes IH]; intros acc Hacc Hall; [done|].
  apply Forall_cons in Hall as [Hn Hall]. simpl foldl.
  rewrite decide_False by done. rewrite IH; [|by intros ?%string_app_empty|done].
  destruct notes as [|m notes]; [done|].
  rewrite !concat_cons_cons. by rewrite !string_app_assoc.
Qed.

Lemma noted_stored now vid slug notes :
  ∀ st p,
    get_by_slug st slug = Some p →
    Forall (λ note, note ≠ "") notes →
    versions (noted now vid slug notes st) = versions st
    ∧ ∃ p',
        get_by_slug (noted now vid slug notes st) slug = Some p'
        ∧ Prompt.version p' = Prompt.version p
        ∧ Prompt.content p' = Prompt.content p
        ∧ Prompt.failure_notes p' = Prompt.failure_notes p
        ∧ Prompt.success_notes p'
          = match notes with
            | [] => Prompt.success_notes p
            | _ :: _ =>
                Some (foldl (λ acc note, if decide (acc = "") then note
                                         else acc ++ note_separator ++ note)
                        (default "" (Prompt.success_notes p)) notes)
            end.
Proof.
  induction notes as [|n notes IH]; intros st p Hp Hall.
  { split; [done|]. exists p. by split_and!. }
  apply Forall_cons in Hall as [Hn Hall].
  change (noted now vid slug (n :: notes) st)
    with (noted now vid slug notes (add_note now vid slug (Some n) None st).1).
  destruct (add_note_stored now vid slug (Some n) None st p Hp)
    as (p1 & _ & Hvs & Hst & Hf & Hv).
  destruct Hf as (Hid & Hslug & _ & Hc & _ & _ & _ & _ & _ & _
                  & Hsn & Hfn & _).
  simpl in Hc, Hsn, Hfn. injection Hc as Hc.
  unfold note_update in Hsn. rewrite decide_False in Hsn by done.
  simpl in Hsn.
  pose proof (add_note_lookup now vid slug (Some n) None st p p1 Hp Hst
                Hid Hslug) as Hp1.
  destruct (IH _ p1 Hp1 Hall) as (Hvs' & p' & Hget & Hv' & Hc' & Hfn' & Hsn').
  split; [congruence|]. exists p'. split_and!; try congruence.
  rewrite Hsn'. destruct notes as [|m notes]; [by rewrite Hsn|].
  by rewrite Hsn.
Qed.

(** X9.  Notes accumulate in the order they are added: after one
    [add_note] per note of a non-empty list of non-empty success notes,
    the stored success notes are the text that was stored before (if there
    was any) and the notes, in order, joined by the separator; failure
    notes, version, content and ledger are unchanged. *)
Theorem notes_accumulate_in_order
    (st : Store) (slug : string) (p : Prompt.t) (now : datetime)
    (vid : string) (notes : list string) :
  get_by_slug st slug = Some p →
  Forall (λ note, note ≠ "") notes →
  notes ≠ [] →
  versions (noted now vid slug notes st) = versions st
  ∧ ∃ p',
      get_by_slug (noted now vid slug notes st) slug = Some p'
      ∧ Prompt.success_notes p'
        = Some (String.concat note_separator
                  match Prompt.success_notes p with
                  | None | Some "" => notes
                  | Some stored => stored :: notes
                  end)
      ∧ Prompt.failure_notes p' = Prompt.failure_notes p
      ∧ Prompt.version p' = Prompt.version p
      ∧ Prompt.content p' = Prompt.content p.
Proof.
  intros Hp Hall Hne.
  destruct (noted_stored now vid slug notes st p Hp Hall)
    as (Hvs & p' & Hget & Hv & Hc & Hfn & Hsn).
  split; [done|]. exists p'. split_and!; try done.
  rewrite Hsn. destruct notes as [|n notes]; [done|]. f_equal.
  apply Forall_cons in Hall as [Hn Hall].
  assert (∀ stored, stored ≠ "" →
            foldl (λ acc note, if decide (acc = "") then note
                               else acc ++ note_separator ++ note)
              stored (n :: notes)
            = String.concat note_separator (stored :: n :: notes)) as Hfold.
  { intros stored Hs. apply fold_notes_concat; [done|by constructor]. }
  destruct (Prompt.success_notes p) as [[|c stored]|]; simpl default.
  - simpl foldl. by apply fold_notes_concat.
  - by apply Hfold.
  - simpl foldl. by apply fold_notes_concat.
Qed.

Lemma notes_accumulate_in_order_witness :
  get_by_slug example_store "test-prompt" = Some example_prompt
  ∧ ∃ p',
      get_by_slug
        (noted 5%Z "v-2" "test-prompt" ["first"; "second"] example_store)
        "test-prompt" = Some p'
      ∧ Prompt.success_notes p'
        = Some ("first" ++ note_separator ++ "second").
Proof.
  split; [reflexivity|].
  destruct (notes_accumulate_in_order example_store "test-prompt"
              example_prompt 5%Z "v-2" ["first"; "second"] eq_refl)
    as (_ & p' & Hget & Hs & _).
  - repeat constructor; discriminate.
  - discriminate.
  - exists p'. split; [exact Hget|exact Hs].
Defined.

End NotesAccumulate.

(** ** Reachable stores *)

Section Consistency.
Import PromptRepository PromptService.
Local Open Scope Z_scope.

Lemma content_unchanged data p c :
  content_changed data p = false →
  set_required (PromptUpdate.content data) (Prompt.content p) = Some c →
  c = Prompt.content p.
Proof.
  unfold content_changed, set_required.
  destruct (PromptUpdate.content data) as [|[c'|]]; [by intros _ [= <-]| |done].
  intros Hne%bool_decide_eq_false [= <-].
  destruct (decide (c' = Prompt.content p)) as [|Hc]; [done|].
  destruct Hne. congruence.
Qed.

Lemma consistent_update now vid slug data st :
  consistent st → consistent (update now vid slug data st).1.
Proof.
  intros [Hok Hrec]. split; [by apply store_ok_update|].
  destruct (update_cases now vid slug data st)
    as [Hq|q Hq Hrej|q new Hq Hch Hf Hv _|q new Hq Hch Hvid Hf Hv Hc];
    simpl; [done|done|..].
  - pose proof Hq as [Hin _]%get_by_slug_Some.
    destruct Hf as (Hid & _ & _ & Hcontent & _).
    apply content_unchanged in Hcontent; [|done].
    intros p' [[-> _]|[Hp' _]]%elem_of_write.
    + destruct (Hrec q Hin) as (v & Hvin & Hvv & Hvc).
      exists v. rewrite Hid, Hv, Hcontent. by split_and!.
    + exact (Hrec p' Hp').
  - pose proof Hq as [Hin _]%get_by_slug_Some.
    destruct Hf as (Hid & _).
    intros p' Hp'. unfold content_recorded. rewrite versions_of_snoc.
    apply elem_of_write in Hp' as [[-> _]|[Hp' Hne]].
    + eexists. split_and!.
      * apply elem_of_app. right. rewrite decide_True by (by simpl).
        apply list_elem_of_singleton. reflexivity.
      * simpl. by rewrite Hv.
      * done.
    + destruct (Hrec p' Hp') as (v & Hvin & Hvv & Hvc).
      exists v. split_and!; [|done..]. apply elem_of_app. by left.
Qed.

Lemma store_ok_insert st p v :
  store_ok st →
  prompt_insertable st p →
  Prompt.version p = 1 →
  PromptVersion.prompt_id v = Prompt.id p →
  PromptVersion.version v = 1 →
  store_ok {| prompts := (prompts st ++ [p])%list;
              versions := (versions st ++ [v])%list |}
  ∧ versions_of {| prompts := (prompts st ++ [p])%list;
                   versions := (versions st ++ [v])%list |} (Prompt.id p)
    = [v].
Proof.
  intros Hok [Hpid Hslug] Hpv Hvp Hvv.
  assert (versions_of st (Prompt.id p) = []) as Hnone.
  { destruct (versions_of st (Prompt.id p)) as [|w l] eqn:Hrows; [done|].
    assert (w ∈ versions_of st (Prompt.id p)) as Hw by (rewrite Hrows; left).
    apply list_elem_of_filter in Hw as [Heq Hw].
    destruct Hpid. rewrite <-Heq. by apply (versions_owned _ Hok). }
  assert (versions_of {| prompts := (prompts st ++ [p])%list;
                         versions := (versions st ++ [v])%list |}
            (Prompt.id p) = [v]) as Hrows.
  { rewrite versions_of_snoc, decide_True by done.
    rewrite (versions_of_prompts _ (prompts st)).
    replace {| prompts := prompts st; versions := versions st |}
      with st by (by destruct st).
    by rewrite Hnone. }
  split; [|done].
  destruct Hok as [Hids Hslugs Howned Hledgers]. split; simpl.
  - rewrite fmap_app. apply NoDup_app. split_and!; [done| |].
    + intros x Hx [->|[]%elem_of_nil]%elem_of_cons. done.
    + apply NoDup_singleton.
  - unfold slugs. simpl. rewrite fmap_app. apply NoDup_app.
    split_and!; [done| |apply NoDup_singleton].
    intros x Hx [->|[]%elem_of_nil]%elem_of_cons. done.
  - intros w [Hw| ->%list_elem_of_singleton]%elem_of_app;
      rewrite fmap_app, elem_of_app; [left; by apply Howned|].
    right. simpl. apply list_elem_of_singleton. done.
  - intros q [Hq| ->%list_elem_of_singleton]%elem_of_app.
    + unfold ledger_ok. rewrite versions_of_snoc.
      rewrite decide_False, app_nil_r.
      * exact (Hledgers q Hq).
      * rewrite Hvp. intros Heq. apply Hpid. rewrite Heq.
        by apply list_elem_of_fmap_2.
    + unfold ledger_ok. rewrite Hrows, Hpv. simpl. by rewrite Hvv.
Qed.

Section Create.
Variable slugify : string → string.

(** The two ways [create] ends when the slug loop ends. *)
Lemma create_outcome fuel now pid vid data st st' r :
  create slugify fuel now pid vid data st = Some (st', r) →
  (st' = st ∧ r = inl IntegrityError
   ∧ ¬ ((pid ∉ (Prompt.id <$> prompts st))
        ∧ (vid ∉ (PromptVersion.id <$> versions st))))
  ∨ (∃ slug,
       resolve_slug fuel st (candidate slugify data) = Some slug
       ∧ prompt_insertable st (created_prompt now pid slug data)
       ∧ (vid ∉ (PromptVersion.id <$> versions st))
       ∧ st' = {| prompts :=
                    (prompts st ++ [created_prompt now pid slug data])%list;
                  versions :=
                    (versions st ++ [initial_version now pid vid data])%list |}
       ∧ r = inr (created_prompt now pid slug data)).
Proof.
  unfold create.
  destruct (resolve_slug fuel st (candidate slugify data)) as [slug|] eqn:Hs;
    [|done].
  simpl. fold (created_prompt now pid slug data).
  fold (initial_version now pid vid data).
  assert (slug ∉ slugs st) as Hfree.
  { revert Hs. unfold resolve_slug.
    destruct (get_by_slug st (candidate slugify data)) eqn:Hc.
    - clear Hc. generalize 1. induction fuel as [|fuel IH]; intros c; [done|].
      simpl. destruct (get_by_slug st _) eqn:Hg; [apply IH|].
      intros [= <-]. by apply get_by_slug_None.
    - intros [= <-]. by apply get_by_slug_None. }
  case_decide as Hins.
  - intros [= <- <-]. right. exists slug.
    destruct Hins as [Hp Hv]. by split_and!.
  - intros [= <- <-]. left. split_and!; [done|done|].
    intros [Hpid Hvid]. apply Hins. split; [split|]; done.
Qed.

Lemma consistent_create fuel now pid vid data st st' r :
  create slugify fuel now pid vid data st = Some (st', r) →
  consistent st → consistent st'.
Proof.
  intros [(-> & _)|(slug & _ & Hp & Hv & -> & _)]%create_outcome [Hok Hrec];
    [done|].
  destruct (store_ok_insert st (created_prompt now pid slug data)
              (initial_version now pid vid data) Hok Hp)
    as [Hok' Hrows]; [done..|].
  split; [done|].
  intros q [Hq| ->%list_elem_of_singleton]%elem_of_app.
  - destruct (Hrec q Hq) as (v & Hvin & Hvv & Hvc).
    exists v. split_and!; [|done..]. rewrite versions_of_snoc.
    apply elem_of_app. by left.
  - exists (initial_version now pid vid data). rewrite Hrows.
    split_and!; [by apply list_elem_of_singleton|done..].
Qed.
End Create.

Lemma consistent_delete slug st :
  consistent st → consistent (delete slug st).1.
Proof.
  intros [Hok Hrec].
  destruct (delete_cases slug st) as [[_ ->]|(p & _ & ->)]; [done|]. simpl.
  split; [by apply store_ok_removed|].
  intros q [Hne Hq]%list_elem_of_filter. unfold content_recorded.
  rewrite versions_of_removed, decide_False by done. exact (Hrec q Hq).
Qed.

Lemma consistent_increment_usage now slug st :
  consistent st → consistent (increment_usage now slug st).1.
Proof.
  intros [Hok Hrec].
  destruct (get_by_slug st slug) as [p|] eqn:Hp.
  - rewrite (increment_usage_stored now slug st p Hp). simpl.
    pose proof Hp as [Hin _]%get_by_slug_Some.
    split; [by apply (store_ok_update_fields st p)|].
    intros q [[-> _]|[Hq _]]%elem_of_write; [|exact (Hrec q Hq)].
    exact (Hrec p Hin).
  - unfold increment_usage. by rewrite Hp.
Qed.

Lemma consistent_add_note now vid slug success_note failure_note st :
  consistent st →
  consistent (add_note now vid slug success_note failure_note st).1.
Proof.
  intros Hc. unfold add_note.
  destruct (get_by_slug st slug) as [p|]; [|done].
  destruct (note_update success_note _); destruct (note_update failure_note _);
    try done; by apply consistent_update.
Qed.

Section Steps.
Variable slugify : string → string.
Variable rest : string → gmap string string → Jinja.error + string.
Variable diagnostic : string → string.

Lemma consistent_step st st' :
  step slugify rest diagnostic st st' → consistent st → consistent st'.
Proof.
  intros Hstep Hc.
  destruct Hstep
    as [fuel now pid vid data st st' r Hcreate|now vid slug data st|slug st
       |now slug counted st|now slug variables st|now vid slug version st
       |now vid slug success_note failure_note st].
  - by eapply consistent_create.
  - by apply consistent_update.
  - by apply consistent_delete.
  - unfold get_prompt. destruct counted; [|done].
    by apply consistent_increment_usage.
  - pose proof (consistent_increment_usage now slug st Hc) as Hc'.
    unfold render_prompt, bind, get_prompt.
    destruct (PromptRepository.increment_usage now slug st)
      as [st1 [e|[p|]]]; try done.
    simpl in *. by destruct (render rest diagnostic _ _).
  - unfold restore_version.
    destruct (get_version st slug version); [|done].
    by apply consistent_update.
  - by apply consistent_add_note.
Qed.

Lemma consistent_reachable st :
  rtc (step slugify rest diagnostic) empty_store st → consistent st.
Proof.
  intros Hsteps.
  assert (consistent empty_store) as Hempty.
  { split; [|by intros p ?%elem_of_nil]. split; simpl.
    - apply NoDup_nil_2.
    - apply NoDup_nil_2.
    - by intros v ?%elem_of_nil.
    - by intros p ?%elem_of_nil. }
  revert Hempty. induction Hsteps as [|st1 st2 st3 Hstep _ IH]; [done|].
  intros Hc. apply IH. by eapply consistent_step.
Qed.

End Steps.

(** The newest entry comes first in the history. *)
Lemma newest_first st slug p :
  store_ok st → content_recorded st p → get_by_slug st slug = Some p →
  ∃ v older,
    get_versions st slug = v :: older
    ∧ PromptVersion.version v = Prompt.version p
    ∧ PromptVersion.content v = Prompt.content p.
Proof.
  intros Hok (v & Hvin & Hvv & Hvc) Hp.
  rewrite (get_versions_stored st slug p Hok Hp).
  pose proof Hp as [Hin _]%get_by_slug_Some.
  destruct (ledgers_ok _ Hok p Hin) as [Hpos Hseq].
  replace (Prompt.version p) with (Prompt.version p - 1 + 1) in Hseq by lia.
  rewrite seqZ_succ in Hseq by lia.
  apply fmap_app_inv in Hseq as (l1 & l2 & Hl1 & Hl2 & Hl).
  destruct l2 as [|x [|y l2]]; try done.
  injection Hl2 as Hx.
  assert (x = v) as ->.
  { eapply (NoDup_fmap_eq PromptVersion.version);
      [| |exact Hvin|lia].
    - destruct (ledgers_ok _ Hok p Hin) as [_ ->]. apply NoDup_seqZ.
    - rewrite Hl. apply elem_of_app. right. by left. }
  exists v, (reverse l1). rewrite Hl, reverse_snoc. done.
Qed.

End Consistency.

Section ConsistencyProperties.
Import PromptRepository PromptService.
Local Open Scope Z_scope.

(** X12.  Every store that the service can reach from the empty database,
    by any sequence of [create_prompt], [update_prompt], [delete_prompt],
    [get_prompt], [render_prompt], [restore_version] and [add_note] calls,
    with any arguments and whether they return or raise, is consistent,
    and in it the ledger entry numbered with a prompt's [version] holds
    the prompt's current content: it is the highest entry, and the first
    row of [get_versions]. *)
Theorem service_keeps_ledgers_consistent
    (slugify : string → string)
    (rest : string → gmap string string → Jinja.error + string)
    (diagnostic : string → string) (st : Store) :
  rtc (step slugify rest diagnostic) empty_store st →
  store_ok st
  ∧ ∀ slug p,
      get_by_slug st slug = Some p →
      content_recorded st p
      ∧ version_is_highest st p
      ∧ ∃ v older,
          get_versions st slug = v :: older
          ∧ PromptVersion.version v = Prompt.version p
          ∧ PromptVersion.content v = Prompt.content p.
Proof.
  intros [Hok Hrec]%consistent_reachable. split; [done|].
  intros slug p Hp. pose proof Hp as [Hin _]%get_by_slug_Some.
  split_and!.
  - by apply Hrec.
  - apply ledger_ok_highest, (ledgers_ok _ Hok p Hin).
  - apply newest_first; [done|by apply Hrec|done].
Qed.

Lemma service_keeps_ledgers_consistent_witness :
  rtc (step (λ title, title) (λ _ _, inl Jinja.OtherError) (λ _, ""))
    empty_store updated_store
  ∧ store_ok updated_store
  ∧ content_recorded updated_store updated_prompt.
Proof.
  assert (rtc (step (λ title, title) (λ _ _, inl Jinja.OtherError) (λ _, ""))
            empty_store updated_store) as Hsteps.
  { eapply rtc_l.
    - apply (step_create_prompt _ _ _ 1%nat 0 "id-1" "v-1"
               example_request
               empty_store example_store (inr example_prompt)).
      reflexivity.
    - apply rtc_once.
      exact (step_update_prompt _ _ _ 5 "v-2" "test-prompt" content_payload
               example_store). }
  destruct (service_keeps_ledgers_consistent _ _ _ _ Hsteps) as [Hok Hrec].
  split_and!; [exact Hsteps|exact Hok|].
  apply (Hrec "test-prompt" updated_prompt eq_refl).
Defined.

Section CreateLookup.
Variable slugify : string → string.

(** X13.  [create] followed by a lookup returns what was created: when it
    succeeds the store stays consistent and the new prompt has the given
    key, a slug that was free (the candidate itself if that was free), the
    request's title, content and tags, no use so far and version 1; it is
    found under its slug and under its key, and its history is the single
    initial entry; every prompt stored before is found as before, with the
    same history.  When it fails, it fails with [IntegrityError], the
    store is unchanged, and one of the two keys was already in use. *)
Theorem create_then_lookup
    (st st' : Store) (fuel : nat) (now : datetime) (pid vid : string)
    (data : PromptCreate.t) (r : exn + Prompt.t) :
  store_ok st →
  create slugify fuel now pid vid data st = Some (st', r) →
  match r with
  | inr p =>
      store_ok st'
      ∧ Prompt.id p = pid
      ∧ (Prompt.slug p ∉ slugs st)
      ∧ (candidate slugify data ∉ slugs st →
         Prompt.slug p = candidate slugify data)
      ∧ Prompt.title p = PromptCreate.title data
      ∧ Prompt.content p = PromptCreate.content data
      ∧ Prompt.tags p = Some (PromptCreate.tags data)
      ∧ Prompt.usage_count p = 0
      ∧ Prompt.last_used_at p = None
      ∧ Prompt.version p = 1
      ∧ get_by_slug st' (Prompt.slug p) = Some p
      ∧ get_by_id st' pid = Some p
      ∧ get_versions st' (Prompt.slug p)
        = [PromptVersion.Build vid pid 1 (PromptCreate.content data) now
             (Some "Initial version")]
      ∧ ∀ slug q,
          get_by_slug st slug = Some q →
          get_by_slug st' slug = Some q
          ∧ get_versions st' slug = get_versions st slug
  | inl e =>
      e = IntegrityError ∧ st' = st
      ∧ (pid ∈ (Prompt.id <$> prompts st)
         ∨ vid ∈ (PromptVersion.id <$> versions st))
  end.
Proof.
  intros Hok [(-> & -> & Hused)|(slug & Hslug & Hp & Hv & -> & ->)]%create_outcome.
  { split_and!; [done..|].
    destruct (decide (pid ∈ (Prompt.id <$> prompts st))); [by left|right].
    destruct (decide (vid ∈ (PromptVersion.id <$> versions st))); [done|].
    by destruct Hused. }
  destruct (store_ok_insert st (created_prompt now pid slug data)
              (initial_version now pid vid data) Hok Hp)
    as [Hok' Hrows]; [done..|].
  set (p := created_prompt now pid slug data) in *.
  set (st' := {| prompts := (prompts st ++ [p])%list;
                 versions := (versions st ++ [initial_version now pid vid data])%list |})
    in *.
  assert (p ∈ prompts st') as Hin by (apply elem_of_app; right; by left).
  assert (get_by_slug st' (Prompt.slug p) = Some p) as Hget
    by (by apply get_by_slug_stored).
  destruct Hp as [Hpid Hfree].
  split_and!; try done.
  - intros Hc. revert Hslug. unfold resolve_slug.
    apply get_by_slug_None in Hc. rewrite Hc. by intros [= <-].
  - by apply (get_by_id_stored st' p).
  - rewrite (get_versions_stored st' _ p Hok' Hget). by rewrite Hrows.
  - intros slug' q Hq. pose proof Hq as [Hqin <-]%get_by_slug_Some.
    assert (get_by_slug st' (Prompt.slug q) = Some q) as Hq'.
    { apply get_by_slug_stored; [done|]. apply elem_of_app. by left. }
    split; [done|]. apply get_versions_ext; [congruence|].
    intros q' [Hq'in _]%get_by_slug_Some. unfold st'.
    rewrite versions_of_snoc, decide_False, app_nil_r; [done|].
    simpl. intros Heq. apply Hpid. simpl. rewrite Heq.
    by apply list_elem_of_fmap_2.
Qed.

End CreateLookup.

Lemma create_then_lookup_witness :
  store_ok example_store
  ∧ ∃ st' p,
      create (λ title, title) 2%nat 3 "id-9" "v-9" second_request
        example_store = Some (st', inr p)
      ∧ Prompt.slug p = "test-prompt-1"
      ∧ get_by_slug st' "test-prompt" = Some example_prompt.
Proof.
  split; [exact example_store_ok|].
  exists {| prompts :=
              [example_prompt;
               created_prompt 3 "id-9" "test-prompt-1" second_request];
            versions :=
              [example_version;
               initial_version 3 "id-9" "v-9" second_request] |},
    (created_prompt 3 "id-9" "test-prompt-1" second_request).
  assert (create (λ title, title) 2%nat 3 "id-9" "v-9" second_request
            example_store
          = Some ({| prompts :=
                       [example_prompt;
                        created_prompt 3 "id-9" "test-prompt-1"
                          second_request];
                     versions :=
                       [example_version;
                        initial_version 3 "id-9" "v-9" second_request] |},
                  inr (created_prompt 3 "id-9" "test-prompt-1"
                         second_request))) as Hcreate by reflexivity.
  split; [exact Hcreate|]. split; [reflexivity|].
  pose proof (create_then_lookup (λ title, title) _ _ _ _ _ _ _ _
                example_store_ok Hcreate) as H.
  simpl in H.
  destruct H as (_ & _ & _ & _ & _ & _ & _ & _ & _ & _ & _ & _ & _ & Hframe).
  apply (Hframe "test-prompt" example_prompt eq_refl).
Defined.

End ConsistencyProperties.

(** ** Repeated updates and restores *)

Section Idempotence.
Import PromptRepository.
Local Open Scope Z_scope.

Lemma set_required_again {A} (f : field A) (old new : A) :
  set_required f old = Some new → set_required f new = Some new.
Proof. by destruct f as [|[v|]]. Qed.

Lemma set_nullable_again {A} (f : field A) (old : option A) :
  set_nullable f (set_nullable f old) = set_nullable f old.
Proof. by destruct f. Qed.

(** Assigning a payload to the row it produced changes nothing. *)
Lemma assign_again data p new :
  fields_assigned data p new →
  content_changed data new = false ∧ assign data new = Some new.
Proof.
  intros (_ & _ & Ht & Hc & Hi & Hd & Hcat & Htags & Hsrc & Hvars & Hsn
          & Hfn & Hrel & _).
  assert (content_changed data new = false) as Hch.
  { unfold content_changed. revert Hc. unfold set_required.
    destruct (PromptUpdate.content data) as [|[c|]]; [done| |done].
    intros [= ->]. by apply bool_decide_eq_false; intros H; apply H. }
  split; [done|]. unfold assign.
  rewrite (set_required_again _ _ _ Ht), (set_required_again _ _ _ Hc),
    (set_required_again _ _ _ Hi), Hch. simpl.
  rewrite Hd, Hcat, Htags, Hsrc, Hvars, Hsn, Hfn, Hrel.
  rewrite !set_nullable_again.
  rewrite <-Hd, <-Hcat, <-Htags, <-Hsrc, <-Hvars, <-Hsn, <-Hfn, <-Hrel.
  by destruct new.
Qed.

(** X16.  Repeating an update changes nothing: when an update of a
    consistent store succeeded, the same payload applied again, at any
    later time and with any key for a version row, returns the same prompt
    and leaves the store exactly as the first update left it, without a
    second version row or a new [updated_at]; and an update that found no
    prompt finds none again. *)
Theorem update_twice_is_update_once
    (st : Store) (now now' : datetime) (vid vid' slug : string)
    (data : PromptUpdate.t) :
  store_ok st →
  let first := update now vid slug data st in
  let second := update now' vid' slug data first.1 in
  (∀ p', first.2 = inr (Some p') → second = (first.1, inr (Some p')))
  ∧ (first.2 = inr None → second = first).
Proof.
  intros Hok first second.
  pose proof (store_ok_update now vid slug data st Hok) as Hok'.
  fold first in Hok'. unfold second. clear second. revert Hok'.
  unfold first. clear first.
  destruct (update_cases now vid slug data st)
    as [Hq|q Hq Hrej|q new Hq Hch Hf Hv _|q new Hq Hch Hvid Hf Hv Hc];
    simpl; intros Hok'.
  - split; [by intros p' [=]|]. intros _. unfold update. by rewrite Hq.
  - split; [by intros p' [=]|]. by intros [=].
  - split; [|by intros [=]]. intros p' [= <-].
    destruct (assign_again data q new Hf) as [Hch' Ha].
    pose proof Hf as (Hid & Hslug & _).
    assert (get_by_slug {| prompts := write new (prompts st);
                           versions := versions st |} slug = Some new)
      as Hget.
    { eapply get_by_slug_write; [done..|].
      by apply get_by_slug_Some in Hq as [_ <-]. }
    unfold update. rewrite Hget, Ha, Hch'. unfold touch.
    rewrite decide_True by done. simpl.
    rewrite write_same; [done|apply (ids_unique _ Hok')|].
    by apply get_by_slug_Some in Hget as [? _].
  - split; [|by intros [=]]. intros p' [= <-].
    destruct (assign_again data q new Hf) as [Hch' Ha].
    pose proof Hf as (Hid & Hslug & _).
    set (st1 := {| prompts := write new (prompts st);
                   versions := (versions st ++ _)%list |}) in *.
    assert (get_by_slug st1 slug = Some new) as Hget.
    { eapply get_by_slug_write; [done..|].
      by apply get_by_slug_Some in Hq as [_ <-]. }
    unfold update. rewrite Hget, Ha, Hch'. unfold touch.
    rewrite decide_True by done. simpl.
    rewrite write_same; [done|apply (ids_unique _ Hok')|].
    by apply get_by_slug_Some in Hget as [? _].
Qed.

Lemma update_twice_is_update_once_witness :
  store_ok example_store
  ∧ update 9 "v-3" "test-prompt" content_payload
      (update 5 "v-2" "test-prompt" content_payload example_store).1
    = (updated_store, inr (Some updated_prompt)).
Proof.
  split; [exact example_store_ok|].
  destruct (update_twice_is_update_once example_store 5 9 "v-2" "v-3"
              "test-prompt" content_payload example_store_ok) as [Hsame _].
  exact (Hsame updated_prompt eq_refl).
Defined.

End Idempotence.

Section RestoreUndo.
Import PromptRepository PromptService.
Local Open Scope Z_scope.

(** One restore that changes the content, spelled out. *)
Lemma restore_stored st slug p n r now vid :
  get_by_slug st slug = Some p →
  get_version st slug n = Some r →
  PromptVersion.content r ≠ Prompt.content p →
  vid ∉ (PromptVersion.id <$> versions st) →
  ∃ new,
    restore_version now vid slug n st
    = ({| prompts := write new (prompts st);
          versions :=
            (versions st ++
             [PromptVersion.Build vid (Prompt.id p) (Prompt.version p + 1)
                (PromptVersion.content r) now
                (Some ("Restored from version " ++ pretty n)%string)])%list |},
       inr (Some new))
    ∧ Prompt.id new = Prompt.id p
    ∧ Prompt.slug new = Prompt.slug p
    ∧ Prompt.version new = Prompt.version p + 1
    ∧ Prompt.content new = PromptVersion.content r.
Proof.
  intros Hp Hr Hne Hvid. unfold restore_version. rewrite Hr.
  pose proof (update_cases now vid slug
                (restore_payload (PromptVersion.content r) n) st) as Hcases.
  destruct (update now vid slug _ st) as [st1 out]. simpl in Hcases.
  destruct Hcases
    as [Hq|q Hq Hrej|q new Hq Hch _ _ _|q new Hq Hch _ Hf Hv Hc];
    rewrite Hp in Hq; simplify_eq.
  - destruct Hrej as [[H|[H|H]]|[_ ?]]; done.
  - unfold content_changed in Hch. simpl in Hch.
    apply bool_decide_eq_false in Hch. destruct Hch. congruence.
  - simpl in Hc. injection Hc as Hc. exists new. rewrite Hc.
    destruct Hf as (? & ? & _). by split_and!.
Qed.

Lemma consistent_updated_store : consistent updated_store.
Proof.
  assert ((update 5 "v-2" "test-prompt" content_payload example_store).1
          = updated_store) as <- by (by vm_compute).
  apply consistent_update. split; [exact example_store_ok|].
  intros p ->%list_elem_of_singleton. exists example_version.
  split_and!; [|done..]. by apply list_elem_of_singleton.
Qed.

(** X17.  A restore can be undone: in a consistent store in which every
    prompt's content is recorded under its version number, after a prompt
    of version [V] was restored to an entry with another content,
    restoring it to [V] brings back the content it had, as version [V+2];
    the ledger then ends with the two rows of the two restores, and
    nothing before them has changed. *)
Theorem restore_can_be_undone
    (st : Store) (slug : string) (p : Prompt.t) (n : Z)
    (r : PromptVersion.t) (now now' : datetime) (vid vid' : string) :
  consistent st →
  get_by_slug st slug = Some p →
  get_version st slug n = Some r →
  PromptVersion.content r ≠ Prompt.content p →
  vid ∉ (PromptVersion.id <$> versions st) →
  vid' ∉ (PromptVersion.id <$> versions st) →
  vid' ≠ vid →
  let restored := (restore_version now vid slug n st).1 in
  let out := restore_version now' vid' slug (Prompt.version p) restored in
  ∃ p',
    out.2 = inr (Some p')
    ∧ get_by_slug out.1 slug = Some p'
    ∧ Prompt.content p' = Prompt.content p
    ∧ Prompt.version p' = Prompt.version p + 2
    ∧ versions out.1
      = (versions st ++
         [PromptVersion.Build vid (Prompt.id p) (Prompt.version p + 1)
            (PromptVersion.content r) now
            (Some ("Restored from version " ++ pretty n)%string);
          PromptVersion.Build vid' (Prompt.id p) (Prompt.version p + 2)
            (Prompt.content p) now'
            (Some ("Restored from version "
                   ++ pretty (Prompt.version p))%string)])%list.
Proof.
  intros [Hok Hrec] Hp Hr Hne Hvid Hvid' Hvids restored out.
  destruct (restore_stored st slug p n r now vid Hp Hr Hne Hvid)
    as (p1 & Hfirst & Hid1 & Hslug1 & Hv1 & Hc1).
  pose proof Hp as [Hin Hs]%get_by_slug_Some.
  assert (store_ok restored) as Hok1.
  { unfold restored. rewrite Hfirst. simpl.
    by apply (store_ok_update_content st p). }
  assert (get_by_slug restored slug = Some p1) as Hp1.
  { unfold restored. rewrite Hfirst. simpl.
    eapply get_by_slug_write; [done..|congruence]. }
  destruct (Hrec p Hin) as (v & Hvin & Hvv & Hvc).
  assert (get_version restored slug (Prompt.version p) = Some v) as Hr1.
  { apply (get_version_stored restored slug p1 _ Hok1 Hp1). split; [|done].
    unfold restored. rewrite Hfirst. simpl. rewrite versions_of_snoc, Hid1.
    apply elem_of_app. by left. }
  destruct (restore_stored restored slug p1 (Prompt.version p) v now' vid'
              Hp1 Hr1) as (p2 & Hsecond & Hid2 & Hslug2 & Hv2 & Hc2).
  { congruence. }
  { unfold restored. rewrite Hfirst. simpl. rewrite fmap_app.
    intros [?|[->|[]%elem_of_nil]%elem_of_cons]%elem_of_app; done. }
  exists p2. unfold out. rewrite Hsecond. simpl. split_and!.
  - done.
  - eapply get_by_slug_write; [done..|congruence].
  - congruence.
  - lia.
  - unfold restored. rewrite Hfirst. simpl. rewrite <-app_assoc. simpl.
    rewrite Hid1, Hv1, Hvc. do 4 f_equal. lia.
Qed.

Lemma restore_can_be_undone_witness :
  consistent updated_store
  ∧ ∃ p',
      (restore_version 11 "v-4" "test-prompt" 2
         (restore_version 9 "v-3" "test-prompt" 1 updated_store).1).2
      = inr (Some p')
      ∧ Prompt.content p' = "New content"
      ∧ Prompt.version p' = 4.
Proof.
  split; [exact consistent_updated_store|].
  destruct (restore_can_be_undone updated_store "test-prompt" updated_prompt
              1 example_version 9 11 "v-3" "v-4" consistent_updated_store
              eq_refl eq_refl)
    as (p' & Hout & _ & Hc & Hv & _).
  - discriminate.
  - apply (bool_decide_unpack _). by vm_compute.
  - apply (bool_decide_unpack _). by vm_compute.
  - discriminate.
  - exists p'. split_and!; [exact Hout|exact Hc|exact Hv].
Defined.

End RestoreUndo.

(** ** Extracted names *)

Section Capture.
Import Re.
Local Arguments Ascii.eqb : simpl never.

Lemma class_Some {R} p s g (k : @cont R) x :
  class p s g k = Some x →
  ∃ c s', s = c :: s' ∧ p c = true ∧ k s' g = Some x.
Proof.
  destruct s as [|c s']; simpl; [done|].
  destruct (p c) eqn:Hp; [|done]. eauto.
Qed.

Lemma first_some_Some {R} (a b : option R) x :
  first_some a b = Some x → a = Some x ∨ b = Some x.
Proof. destruct a; simpl; auto. Qed.

Lemma run_groupless r :
  groupless r = true →
  ∀ R s g (k : @cont R) x,
    run r s g k = Some x → ∃ s', s' `suffix_of` s ∧ k s' g = Some x.
Proof.
  induction r as [|c| | | |r1 IH1 r2 IH2|r1 IH1 r2 IH2|r1 IH1|r1 IH1|r1 _];
    simpl; intros Hg R s g k x.
  - intros Hk. by exists s.
  - intros (c' & s' & -> & _ & Hk)%class_Some. exists s'.
    split; [by apply suffix_cons_r|done].
  - intros (c' & s' & -> & _ & Hk)%class_Some. exists s'.
    split; [by apply suffix_cons_r|done].
  - intros (c' & s' & -> & _ & Hk)%class_Some. exists s'.
    split; [by apply suffix_cons_r|done].
  - intros (c' & s' & -> & _ & Hk)%class_Some. exists s'.
    split; [by apply suffix_cons_r|done].
  - apply andb_true_iff in Hg as [Hg1 Hg2].
    intros (s1 & Hs1 & Hrun)%(IH1 Hg1).
    apply (IH2 Hg2) in Hrun as (s2 & Hs2 & Hk).
    exists s2. split; [by etrans|done].
  - apply andb_true_iff in Hg as [Hg1 Hg2].
    intros [Hrun|Hrun]%first_some_Some; [by apply (IH1 Hg1) in Hrun|].
    by apply (IH2 Hg2) in Hrun.
  - generalize (length s) at 1. intros n. revert s g.
    induction n as [|n IHn]; intros s g; [intros Hk; by exists s|].
    intros [Hrun|Hk]%first_some_Some; [|by exists s].
    apply (IH1 Hg) in Hrun as (s1 & Hs1 & Hrun).
    destruct (length s1 <? length s)%nat; [|done].
    apply IHn in Hrun as (s2 & Hs2 & Hk).
    exists s2. split; [by etrans|done].
  - generalize (length s) at 1. intros n. revert s g.
    induction n as [|n IHn]; intros s g; [intros Hk; by exists s|].
    intros [Hk|Hrun]%first_some_Some; [by exists s|].
    apply (IH1 Hg) in Hrun as (s1 & Hs1 & Hrun).
    destruct (length s1 <? length s)%nat; [|done].
    apply IHn in Hrun as (s2 & Hs2 & Hk).
    exists s2. split; [by etrans|done].
  - done.
Qed.

(** [\w+] consumes a non-empty run of word characters. *)
Lemma run_plus_word {R} s g (k : @cont R) x :
  run (Cat Word (Star Word)) s g k = Some x →
  ∃ w s', s = (w ++ s')%list ∧ w ≠ []
          ∧ Forall (λ c, is_word c = true) w ∧ k s' g = Some x.
Proof.
  simpl. intros (c & s1 & -> & Hc & Hrun)%class_Some.
  revert Hrun. generalize (length s1) at 1. intros n.
  assert (∀ s g,
    (fix iter (n : nat) (s : list ascii) (g : option (list ascii)) :=
       match n with
       | O => k s g
       | S n' =>
           first_some
             (class is_word s g
                (λ s' g', if (length s' <? length s)%nat then iter n' s' g'
                          else None))
             (k s g)
       end) n s g = Some x →
    ∃ w s', s = (w ++ s')%list ∧ Forall (λ c, is_word c = true) w
            ∧ k s' g = Some x) as Hiter.
  { induction n as [|n IHn]; intros s g'.
    - intros Hk. by exists [], s.
    - intros [Hrun|Hk]%first_some_Some; [|by exists [], s].
      apply class_Some in Hrun as (d & s2 & -> & Hd & Hrun).
      destruct (length s2 <? length (d :: s2))%nat; [|done].
      apply IHn in Hrun as (w & s' & -> & Hw & Hk).
      exists (d :: w), s'. split_and!; [done|by constructor|done]. }
  intros (w & s' & -> & Hw & Hk)%Hiter.
  exists (c :: w), s'. split_and!; [done|done|by constructor|done].
Qed.

Lemma word_of_suffix w s' s : s' `suffix_of` s → word_of w s' → word_of w s.
Proof.
  intros [pre ->] (Hne & Hw & before & after & ->).
  split_and!; [done..|]. exists (pre ++ before)%list, after.
  by rewrite <-app_assoc.
Qed.

Lemma run_captures r :
  captures_word r = true →
  ∀ R s g (k : @cont R) x,
    run r s g k = Some x →
    ∃ s' w, s' `suffix_of` s ∧ word_of w s ∧ k s' (Some w) = Some x.
Proof.
  induction r as [|c| | | |r1 IH1 r2 IH2|r1 IH1 r2 IH2|r1 _|r1 _|r1 _];
    try done; intros Hc R s g k x.
  - simpl in Hc. apply orb_true_iff in Hc as [[Hc Hg]%andb_true_iff
                                               |[Hg Hc]%andb_true_iff].
    + simpl. intros (s1 & w & Hs1 & Hw & Hrun)%(IH1 Hc).
      apply (run_groupless r2 Hg) in Hrun as (s2 & Hs2 & Hk).
      exists s2, w. split_and!; [by etrans|done|done].
    + simpl. intros (s1 & Hs1 & Hrun)%(run_groupless r1 Hg).
      apply (IH2 Hc) in Hrun as (s2 & w & Hs2 & Hw & Hk).
      exists s2, w. split_and!; [by etrans|by eapply word_of_suffix|done].
  - simpl in Hc. apply andb_true_iff in Hc as [Hc1 Hc2]. simpl.
    intros [Hrun|Hrun]%first_some_Some; [by apply (IH1 Hc1) in Hrun|].
    by apply (IH2 Hc2) in Hrun.
  - destruct r1 as [| | | | |[] []| | | |]; try done.
    match goal with H : captures_word (Group (Cat Word (Star ?r))) = true |- _ =>
      destruct r; try done end.
    change (run (Group (Cat Word (Star Word))) s g k)
      with (run (Cat Word (Star Word)) s g
              (λ s' _, k s' (Some (take (length s - length s') s)))).
    intros (w & s' & -> & Hne & Hw & Hk)%run_plus_word.
    exists s', w. split_and!.
    + by apply suffix_app_r.
    + split_and!; [done..|]. by exists [], s'.
    + rewrite length_app in Hk.
      replace (length w + length s' - length s')%nat with (length w) in Hk
        by lia.
      by rewrite take_app_length in Hk.
Qed.

Lemma match_here_captures r s n g :
  captures_word r = true → match_here r s = Some (n, g) →
  ∃ w, g = Some w ∧ word_of w s.
Proof.
  intros Hc (s' & w & _ & Hw & [= _ <-])%(run_captures r Hc). eauto.
Qed.

(** Every element of [findall] is the group of a match at some
    position. *)
Lemma findall_from_match r s :
  ∀ skip w,
    w ∈ findall_from r skip s →
    ∃ t n g, t `suffix_of` s ∧ match_here r t = Some (n, g)
             ∧ w = default [] g.
Proof.
  induction s as [|c s IH]; intros skip w.
  - destruct skip as [|skip]; simpl; [|by intros ?%elem_of_nil].
    destruct (match_here r []) as [[n g]|] eqn:Hm; [|by intros ?%elem_of_nil].
    intros [->|[]%elem_of_nil]%elem_of_cons. by exists [], n, g.
  - destruct skip as [|skip]; simpl.
    + destruct (match_here r (c :: s)) as [[n g]|] eqn:Hm.
      * intros [->|Hw]%elem_of_cons; [by exists (c :: s), n, g|].
        apply IH in Hw as (t & n' & g' & Ht & Hm' & ->).
        exists t, n', g'. split_and!; [by apply suffix_cons_r|done..].
      * intros (t & n' & g' & Ht & Hm' & ->)%IH.
        exists t, n', g'. split_and!; [by apply suffix_cons_r|done..].
    + intros (t & n' & g' & Ht & Hm' & ->)%IH.
      exists t, n', g'. split_and!; [by apply suffix_cons_r|done..].
Qed.

End Capture.

Section Identifiers.
Import Re TemplateEngine.
Local Arguments Ascii.eqb : simpl never.

Lemma has_opener_suffix t s :
  t `suffix_of` s → has_opener t = true → has_opener s = true.
Proof.
  intros [pre ->]. induction pre as [|c pre IH]; [done|].
  intros Ht. simpl. rewrite (IH Ht). apply orb_true_r.
Qed.

(** A match of a pattern that begins with [{{] or [{%] begins at an
    opening delimiter. *)
Lemma match_here_opener (a : ascii) r t :
  a = "{"%char ∨ a = "%"%char →
  is_Some (match_here (Cat (lits (String "{" (String a ""))) r) t) →
  has_opener t = true.
Proof.
  intros Ha. unfold match_here.
  change (run (Cat ?p r) t None ?k)
    with (run p t None (λ s' g', run r s' g' k)).
  intros (s' & -> & _)%run_lits2. simpl. apply orb_true_iff. left.
  apply opens_spec. split; [done|]. destruct Ha as [->| ->]; auto.
Qed.

Lemma findall_names r content name :
  captures_word r = true →
  (∀ t, is_Some (match_here r t) → has_opener t = true) →
  name ∈ findall r content →
  name ≠ ""
  ∧ Forall (λ c, is_word c = true) (list_ascii_of_string name)
  ∧ occurs name content
  ∧ opener_free content = false.
Proof.
  intros Hc Hopen (w & -> & Hw)%list_elem_of_fmap.
  apply findall_from_match in Hw as (t & n & g & Ht & Hm & ->).
  destruct (match_here_captures r t n g Hc Hm) as (w & -> & Hword).
  apply (word_of_suffix _ _ _ Ht) in Hword
    as (Hne & Hall & before & after & Hs).
  simpl. split_and!.
  - intros Hnil. apply Hne.
    by rewrite <-(list_ascii_of_string_of_list_ascii w), Hnil.
  - by rewrite list_ascii_of_string_of_list_ascii.
  - exists (string_of_list_ascii before), (string_of_list_ascii after).
    rewrite <-!string_of_list_ascii_app, <-Hs.
    by rewrite string_of_list_ascii_of_string.
  - unfold opener_free. apply negb_false_iff.
    apply (has_opener_suffix t); [done|]. apply Hopen. by rewrite Hm.
Qed.

Lemma elem_of_extract_variables content name :
  name ∈ extract_variables content ↔
  (name ∈ findall var_pattern content
   ∨ name ∈ findall for_pattern content
   ∨ name ∈ findall if_pattern content)
  ∧ name ∉ builtins.
Proof.
  unfold extract_variables.
  rewrite merge_sort_Permutation, elem_of_elements.
  rewrite elem_of_difference, !elem_of_union, !elem_of_list_to_set. tauto.
Qed.

End Identifiers.

Section IdentifiersProperties.
Import Re TemplateEngine.


End IdentifiersProperties.

(** ** The render route *)

Section ApiProperties.
Import PromptRepository.
Local Open Scope Z_scope.

(** X19.  The route [GET /prompts/{slug}/render] answers 404 with
    [Prompt 'slug' not found] for an unknown slug and leaves the store
    alone.  For a stored prompt it counts exactly one use, although it
    reads the prompt twice, whatever happens next: it answers with the
    rendered content, the slug, the stored [is_template] flag and the
    variables it was given (none when the request has none); with 422 and
    the message of the [TemplateRenderError] when rendering raises one;
    and with 500 when rendering raises anything else, as it does for a
    variable named [self]. *)
Theorem render_route_answers
    (rest : string → gmap string string → Jinja.error + string)
    (diagnostic : string → string)
    (st : Store) (now : datetime) (slug : string)
    (variables : option (gmap string string)) :
  let out := Api.render_prompt rest diagnostic now slug variables st in
  match get_by_slug st slug with
  | None =>
      out.1 = st
      ∧ Api.respond out.2
        = inl {| Api.status_code := 404;
                 Api.detail := "Prompt '" ++ slug ++ "' not found" |}
  | Some p =>
      out.1 = (increment_usage now slug st).1
      ∧ (∃ p', get_by_slug out.1 slug = Some p'
               ∧ Prompt.usage_count p' = Prompt.usage_count p + 1)
      ∧ Api.respond out.2
        = match render rest diagnostic (Prompt.content p)
                  (default ∅ variables) with
          | inr rendered =>
              inr {| Api.content := rendered;
                     Api.slug := slug;
                     Api.is_template := Prompt.is_template p;
                     Api.variables_used := default ∅ variables |}
          | inl (TemplateRenderError message) =>
              inl {| Api.status_code := 422; Api.detail := message |}
          | inl _ =>
              inl {| Api.status_code := 500;
                     Api.detail := "An unexpected error occurred" |}
          end
      ∧ (opener_free (Prompt.content p) = true →
         ∀ value, default ∅ variables !! "self" = Some value →
           Api.respond out.2
           = inl {| Api.status_code := 500;
                    Api.detail := "An unexpected error occurred" |})
  end.
Proof.
  intros out.
  destruct (get_by_slug st slug) as [p|] eqn:Hp.
  2: { unfold out, Api.render_prompt, bind, PromptService.get_prompt.
       by rewrite Hp. }
  assert (out = ((increment_usage now slug st).1,
                 match render rest diagnostic (Prompt.content p)
                         (default ∅ variables) with
                 | inr rendered =>
                     inr (inr {| Api.content := rendered;
                                 Api.slug := slug;
                                 Api.is_template := Prompt.is_template p;
                                 Api.variables_used := default ∅ variables |})
                 | inl e => inl e
                 end)) as ->.
  { unfold out, Api.render_prompt, bind, PromptService.get_prompt.
    rewrite Hp. simpl.
    rewrite (render_prompt_after_increment _ _ _ _ _ _ _ Hp).
    by destruct (render rest diagnostic _ _). }
  cbn [fst snd]. split_and!.
  - done.
  - rewrite (increment_usage_stored now slug st p Hp). cbn [fst].
    exists (used now p). split; [|done].
    eapply get_by_slug_write; [done..|].
    by apply get_by_slug_Some in Hp as [_ <-].
  - by destruct (render rest diagnostic _ _) as [[]|].
  - intros Hfree value Hself.
    unfold render, Jinja.from_string_render.
    destruct (parse_opener_free _ Hfree) as [body ->]. by rewrite Hself.
Qed.

End ApiProperties.

(** ** Detection in the update flow *)

Section Redetection.
Import PromptRepository PromptService.
Local Open Scope Z_scope.

(** X20.  What [update_prompt] stores when the payload gives a content and
    neither [is_template] nor [template_vars]: the new content; the result
    of the detection as [is_template], which is true exactly for a content
    with a marker written on one line; the descriptors of the extracted
    names as [template_vars] when the content is a template, and the
    [template_vars] the prompt had, untouched, when it is not; and a
    version increased by one exactly when the content differs from the
    stored one. *)
Theorem update_prompt_stores_detection
    (st : Store) (slug : string) (p : Prompt.t) (now : datetime)
    (vid : string) (data : PromptUpdate.t) (c : string) :
  get_by_slug st slug = Some p →
  vid ∉ (PromptVersion.id <$> versions st) →
  PromptUpdate.content data = Given (Some c) →
  PromptUpdate.is_template data = Unset →
  PromptUpdate.template_vars data = Unset →
  PromptUpdate.title data ≠ Given None →
  let out := update_prompt now vid slug data st in
  ∃ p',
    out.2 = inr (Some p')
    ∧ get_by_slug out.1 slug = Some p'
    ∧ Prompt.content p' = c
    ∧ Prompt.is_template p' = TemplateEngine.is_template c
    ∧ (Prompt.is_template p' = true ↔ one_line_marker c)
    ∧ Prompt.template_vars p'
      = (if TemplateEngine.is_template c
         then Some (default_vars (TemplateEngine.extract_variables c))
         else Prompt.template_vars p)
    ∧ Prompt.version p'
      = (if decide (c = Prompt.content p) then Prompt.version p
         else Prompt.version p + 1).
Proof.
  intros Hp Hvid Hc Ht Hv Htitle out.
  set (data' := detect_update data).
  assert (PromptUpdate.content data' = Given (Some c)
          ∧ PromptUpdate.is_template data'
            = Given (Some (TemplateEngine.is_template c))
          ∧ PromptUpdate.template_vars data'
            = (if TemplateEngine.is_template c
               then Given (Some (default_vars
                                   (TemplateEngine.extract_variables c)))
               else Unset)
          ∧ PromptUpdate.title data' = PromptUpdate.title data)
    as (Hc' & Ht' & Hv' & Htitle').
  { unfold data', detect_update. rewrite Hc, Ht. simpl.
    destruct (TemplateEngine.is_template c); simpl; rewrite Hv; simpl;
      by rewrite ?Hc, ?Hv. }
  assert (content_changed data' p
          = bool_decide (c ≠ Prompt.content p)) as Hch'.
  { unfold content_changed. rewrite Hc'.
    apply bool_decide_ext. split; [congruence|]. intros Hne [= ?]. done. }
  unfold out, update_prompt. fold data'.
  destruct (update_cases now vid slug data' st)
    as [Hq|q Hq Hrej|q new Hq Hch Hf Hver _|q new Hq Hch _ Hf Hver _];
    rewrite Hp in Hq; simplify_eq.
  - destruct Hrej as [[H|[H|H]]|[_ ?]]; [congruence..|done].
  - destruct Hf as (Hid & Hslug & _ & Hfc & Hfi & _ & _ & _ & _ & Hfv & _).
    rewrite Hc' in Hfc. rewrite Ht' in Hfi. rewrite Hv' in Hfv.
    simpl in Hfc, Hfi. injection Hfc as Hfc. injection Hfi as Hfi.
    rewrite Hch' in Hch. apply bool_decide_eq_false in Hch.
    exists new. simpl. rewrite <-Hfc, <-Hfi, Hfv. split_and!; try done.
    + eapply get_by_slug_write; [done..|].
      by apply get_by_slug_Some in Hp as [_ <-].
    + apply is_template_one_line_marker.
    + by destruct (TemplateEngine.is_template _).
    + rewrite decide_True; [done|]. by apply dec_stable.
  - destruct Hf as (Hid & Hslug & _ & Hfc & Hfi & _ & _ & _ & _ & Hfv & _).
    rewrite Hc' in Hfc. rewrite Ht' in Hfi. rewrite Hv' in Hfv.
    simpl in Hfc, Hfi. injection Hfc as Hfc. injection Hfi as Hfi.
    rewrite Hch' in Hch. apply bool_decide_eq_true in Hch.
    exists new. simpl. rewrite <-Hfc, <-Hfi, Hfv. split_and!; try done.
    + eapply get_by_slug_write; [done..|].
      by apply get_by_slug_Some in Hp as [_ <-].
    + apply is_template_one_line_marker.
    + by destruct (TemplateEngine.is_template _).
    + by rewrite decide_False.
Qed.

Lemma update_prompt_stores_detection_witness :
  get_by_slug example_store "test-prompt" = Some example_prompt
  ∧ ∃ p',
      (update_prompt 5 "v-2" "test-prompt" template_payload example_store).2
      = inr (Some p')
      ∧ Prompt.is_template p' = true
      ∧ Prompt.template_vars p' = Some (default_vars ["name"])
      ∧ Prompt.version p' = 2.
Proof.
  split; [reflexivity|].
  destruct (update_prompt_stores_detection example_store "test-prompt"
              example_prompt 5 "v-2" template_payload "Hello {{ name }}!"
              eq_refl)
    as (p' & Hout & _ & _ & Ht & _ & Hv & Hver).
  - apply (bool_decide_unpack _). by vm_compute.
  - reflexivity.
  - reflexivity.
  - reflexivity.
  - discriminate.
  - exists p'. split_and!; [exact Hout|exact Ht|exact Hv|exact Hver].
Defined.

End Redetection.
